(** * LSH_Memory: the key-value memory module of [memory.py]

    A shallow embedding of [memory.py] (class [Memory] and its helpers) and
    the properties of its construction, read path ([predict]) and training
    path ([query] followed by [update]).

    Conventions of the embedding.
    - A float tensor entry is a real number: arithmetic is exact, rounding,
      overflow and NaN are not modelled.  A 2-D float tensor is a list of
      rows, a 1-D or [n x 1] tensor is a list.  Long tensors are lists of
      [Z] (labels) or of [nat] (slot and row indices).  The labels [y] of a
      call are a 1-D tensor, the shape [unsqueeze(y.data, dim=1)] is
      written for; pointwise operations and indexed assignments broadcast
      along the first dimension, and indexing checks its positions.  Only
      [flatten] depends on how a tensor is stored: its argument is a view
      on a storage, with offset and strides.
    - The tensor semantics are those of the PyTorch release the file is
      written for (the [Variable] API, before 0.4): a tensor has no dimension
      of size zero, so an empty selection has [size() == ()] and
      [len(t.size()) > 0] tests that a selection is not empty; [squeeze]
      never goes below one dimension.
    - The object state is threaded explicitly: a method is a function from
      the memory to a result and the memory it leaves behind; a raised
      exception keeps the writes done before it.
    - Random draws ([torch.randn], [torch.rand]) are inputs of the model. *)

From Stdlib Require Import Reals Lra Lia List ZArith Bool Sorted.
From stdpp Require Import base list.
Import ListNotations.

Open Scope R_scope.

(** ** Tensors *)

Abbreviation vec := (list R).
Abbreviation matrix := (list (list R)).

Definition tabulate {A : Type} (n : nat) (f : nat -> A) : list A :=
  map f (seq 0 n).

(** Python exceptions the module can raise. *)
Inductive exn : Set :=
| ValueError
| ZeroDivisionError
| RuntimeError
| IndexError
| AssertionError.

Inductive result (A : Type) : Type :=
| Ok (a : A)
| Raise (e : exn).
Arguments Ok {A} a.
Arguments Raise {A} e.

(** [x.size()] of a 2-D tensor given as a list of rows: every row has the
    same, non-zero length and there is at least one row. *)
Definition is_tensor2 (rows cols : nat) (x : matrix) : bool :=
  (0 <? rows)%nat && (0 <? cols)%nat
  && (length x =? rows)%nat && forallb (fun r => (length r =? cols)%nat) x.

Fixpoint dot (u v : vec) : R :=
  match u, v with
  | a :: u', b :: v' => a * b + dot u' v'
  | _, _ => 0
  end.

(** [v.norm(2)] *)
Definition l2norm (v : vec) : R := sqrt (dot v v).

(** The default [eps] of [F.normalize]. *)
Definition eps : R := 1e-12.

(** [F.normalize(x, dim=1)]:
    [x / x.norm(2, 1, True).clamp(min=eps).expand_as(x)]. *)
Definition normalize_row (v : vec) : vec :=
  map (fun a => a / Rmax (l2norm v) eps) v.

Definition normalize (x : matrix) : matrix := map normalize_row x.

(** [torch.matmul(a, torch.t(b))] *)
Definition matmul_t (a b : matrix) : matrix :=
  map (fun r => map (dot r) b) a.

Definition Rsum (l : list R) : R := fold_right Rplus 0 l.

(** [F.softmax] of one row. *)
Definition softmax_row (v : vec) : vec :=
  map (fun a => exp a / Rsum (map exp v)) v.

(** [F.softmax(x)] of a 2-D tensor runs along dimension 1. *)
Definition softmax (x : matrix) : matrix := map softmax_row x.

(** *** [torch.topk] along one row

    The [k] largest entries, largest first, with their positions.  Equal
    entries are taken in the order of their positions. *)

Fixpoint insert_desc (a : R * nat) (l : list (R * nat)) : list (R * nat) :=
  match l with
  | [] => [a]
  | b :: l' =>
      if Rle_dec (fst b) (fst a) then a :: b :: l' else b :: insert_desc a l'
  end.

Definition sort_desc (l : list (R * nat)) : list (R * nat) :=
  fold_right insert_desc [] l.

Definition enumerate (l : list R) : list (R * nat) :=
  combine l (seq 0 (length l)).

Definition topk (l : list R) (k : nat) : result (list R * list nat) :=
  if (k <=? length l)%nat
  then Ok (split (firstn k (sort_desc (enumerate l))))
  else Raise RuntimeError.

(** [torch.topk(x, k, dim=1)] on a 2-D tensor. *)
Fixpoint topk_rows (x : matrix) (k : nat)
  : result (matrix * list (list nat)) :=
  match x with
  | [] => Ok ([], [])
  | r :: x' =>
      match topk r k, topk_rows x' k with
      | Ok (v, i), Ok (vs, ixs) => Ok (v :: vs, i :: ixs)
      | Raise e, _ => Raise e
      | _, Raise e => Raise e
      end
  end.

(** *** Indexing with a long tensor *)

(** [t[idx]]: the rows of [t] at the positions [idx] (a copy). *)
Definition index_select {A : Type} (d : A) (t : list A) (idx : list nat)
  : list A :=
  map (fun i => nth i t d) idx.

(** [t[idx] = src]: the rows of [src] are copied to the positions [idx] one
    after the other, so that the last write to a position is the one that
    stays. *)
Fixpoint index_copy {A : Type} (t : list A) (idx : list nat) (src : list A)
  : list A :=
  match idx, src with
  | i :: idx', v :: src' => index_copy (<[i := v]> t) idx' src'
  | _, _ => t
  end.

(** [t[idx] = v] with a scalar [v]. *)
Definition index_fill {A : Type} (t : list A) (idx : list nat) (v : A)
  : list A :=
  fold_left (fun t' i => <[i := v]> t') idx t.

(** [torch.squeeze(torch.nonzero(mask))]: the positions where the mask is
    set, in increasing order. *)
Fixpoint nonzero_from (i : nat) (mask : list bool) : list nat :=
  match mask with
  | [] => []
  | b :: mask' =>
      if b then i :: nonzero_from (S i) mask' else nonzero_from (S i) mask'
  end.

Definition nonzero (mask : list bool) : list nat := nonzero_from 0 mask.

(** [random_uniform(shape, low, high)] for the shape [(n, 1)]; [rand i] is
    the [i]-th draw of [torch.rand], a number of the interval [0, 1). *)
Definition random_uniform (n : nat) (low high : R) (rand : nat -> R)
  : list R :=
  tabulate n (fun i => (high - low) * rand i + low).

(** [multiply(x)]: [functools.reduce(lambda x, y: x * y, x, 1)]. *)
Definition multiply (x : list nat) : nat := fold_left Nat.mul x 1%nat.

(** A 2-D tensor as PyTorch holds it: a view on a storage, whose entry
    [(i, j)] is the entry [offset + i * stride0 + j * stride1] of the
    storage. *)
Record tensor2 (A : Type) : Type := mkTensor2 {
  t_storage : list A;
  t_offset : nat;
  size0 : nat;
  size1 : nat;
  stride0 : nat;
  stride1 : nat
}.
Arguments mkTensor2 {A}.
Arguments t_storage {A}.
Arguments t_offset {A}.
Arguments size0 {A}.
Arguments size1 {A}.
Arguments stride0 {A}.
Arguments stride1 {A}.

(** The rows a tensor shows. *)
Definition entries {A : Type} (d : A) (t : tensor2 A) : list (list A) :=
  tabulate (size0 t)
    (fun i => tabulate (size1 t)
       (fun j => nth (t_offset t + i * stride0 t + j * stride1 t)
                     (t_storage t) d)).

(** A tensor made from its rows, as an operation returns it: the storage
    holds the rows one after the other. *)
Definition contiguous {A : Type} (x : list (list A)) : tensor2 A :=
  {| t_storage := concat x;
     t_offset := 0;
     size0 := length x;
     size1 := length (hd [] x);
     stride0 := length (hd [] x);
     stride1 := 1 |}.

(** [torch.t(x)]: the same storage with sizes and strides swapped. *)
Definition transpose {A : Type} (t : tensor2 A) : tensor2 A :=
  {| t_storage := t_storage t;
     t_offset := t_offset t;
     size0 := size1 t;
     size1 := size0 t;
     stride0 := stride1 t;
     stride1 := stride0 t |}.

(** [x.size()] *)
Definition size_of {A : Type} (t : tensor2 A) : list nat :=
  [size0 t; size1 t].

(** [x.resize_(count)]: the 1-D tensor of the first [count] entries of the
    storage from the offset of [x], in the order of the storage, whatever
    the strides of [x] were.  A storage that is too short is enlarged, and
    its new entries have no defined value: they are the entries [junk]. *)
Definition resize1 {A : Type} (junk : nat -> A) (count : nat) (t : tensor2 A)
  : list A :=
  firstn count (skipn (t_offset t) (t_storage t) ++ tabulate count junk).

(** [flatten(x)] *)
Definition flatten {A : Type} (junk : nat -> A) (x : tensor2 A) : list A :=
  let count := multiply (size_of x) in
  resize1 junk count x.

(** [t.resize_(rows, cols)] of a 1-D tensor with the entries [t] that an
    operation returned: rows of [cols] consecutive entries. *)
Fixpoint resize2 {A : Type} (rows cols : nat) (t : list A) : list (list A) :=
  match rows with
  | O => []
  | S rows' => firstn cols t :: resize2 rows' cols (skipn cols t)
  end.

(** [index(batch_size, x)]: [torch.cat((idx, x), dim=1)] for the column
    [idx] of the numbers [0 .. batch_size - 1]; [torch.cat] wants as many
    rows in [x]. *)
Definition index (batch_size : nat) (x : list (list nat))
  : result (list (list nat)) :=
  let idx := seq 0 batch_size in
  if (length x =? batch_size)%nat
  then Ok (map (fun ir : nat * list nat => fst ir :: snd ir) (combine idx x))
  else Raise RuntimeError.

(** [MemoryLoss(positive, negative, margin)] on [batch x 1] tensors. *)
Definition MemoryLoss (positive negative : list R) (margin : R) : result R :=
  if (length positive =? length negative)%nat then
    let dist_hinge :=
      map (fun pn : R * R => Rmax (snd pn - fst pn + margin) 0)
          (combine positive negative) in
    Ok (Rsum dist_hinge / INR (length dist_hinge))
  else Raise AssertionError.

(** ** The memory *)

Record Memory : Type := mkMemory {
  keys : matrix;
  values : list Z;
  age : list R;
  memory_size : nat;
  key_dim : nat;
  top_k : nat;
  softmax_temperature : R;
  age_noise : R;
  margin : R
}.

Definition set_keys (m : Memory) (k : matrix) : Memory :=
  mkMemory k (values m) (age m) (memory_size m) (key_dim m) (top_k m)
           (softmax_temperature m) (age_noise m) (margin m).

Definition set_values (m : Memory) (v : list Z) : Memory :=
  mkMemory (keys m) v (age m) (memory_size m) (key_dim m) (top_k m)
           (softmax_temperature m) (age_noise m) (margin m).

Definition set_age (m : Memory) (a : list R) : Memory :=
  mkMemory (keys m) (values m) a (memory_size m) (key_dim m) (top_k m)
           (softmax_temperature m) (age_noise m) (margin m).

(** The settings [__init__] stores next to the tensors. *)
Definition config (m : Memory) : nat * nat * nat * R * R * R :=
  (memory_size m, key_dim m, top_k m, softmax_temperature m, age_noise m,
   margin m).

(** [Memory.__init__].  [randn i j] is the draw of [torch.randn] for entry
    [(i, j)].  Sizes are naturals; a size of zero has no tensor, and
    [math.log] rejects [0.2 * top_k] when [top_k] is zero. *)
Definition init (memory_size key_dim top_k : nat)
    (inverse_temp age_noise margin : R) (randn : nat -> nat -> R)
  : result Memory :=
  if (memory_size =? 0)%nat || (key_dim =? 0)%nat then Raise RuntimeError
  else if (top_k =? 0)%nat then Raise ValueError
  else if Req_dec_T inverse_temp 0 then Raise ZeroDivisionError
  else
    Ok {| keys := normalize
                    (tabulate memory_size
                       (fun i => tabulate key_dim (fun j => randn i j)));
          values := repeat 0%Z memory_size;
          age := repeat 0 memory_size;
          memory_size := memory_size;
          key_dim := key_dim;
          top_k := Nat.min top_k memory_size;
          softmax_temperature :=
            Rmax 1 (ln (0.2 * INR top_k) / inverse_temp);
          age_noise := age_noise;
          margin := margin |}.

(** ** Methods: state and exceptions

    A method body runs on the memory and leaves a result together with the
    memory after it; [Raise] stops the body and keeps the current memory. *)

Definition M (A : Type) : Type := Memory -> result A * Memory.

Definition ret {A : Type} (a : A) : M A := fun m => (Ok a, m).

Definition bind {A B : Type} (c : M A) (k : A -> M B) : M B :=
  fun m =>
    match c m with
    | (Ok a, m') => k a m'
    | (Raise e, m') => (Raise e, m')
    end.

Definition lift {A : Type} (r : result A) : M A := fun m => (r, m).

Definition gets {A : Type} (f : Memory -> A) : M A := fun m => (Ok (f m), m).

Definition modify (f : Memory -> Memory) : M unit := fun m => (Ok tt, f m).

Notation "x <- c ;; k" := (bind c (fun x => k))
  (at level 20, c at level 99, k at level 200, only parsing).
Notation "' p <- c ;; k" := (bind c (fun x => let 'p := x in k))
  (at level 20, p pattern, c at level 99, k at level 200, only parsing).

(** [batch_size, dims = query.size()] *)
Definition size2 (x : matrix) : result (nat * nat) :=
  match x with
  | [] => Raise ValueError
  | r :: _ =>
      if is_tensor2 (length x) (length r) x then Ok (length x, length r)
      else Raise RuntimeError
  end.

(** [torch.matmul(query, torch.t(keys))] with its shape check. *)
Definition matmul (a b : matrix) : result matrix :=
  match size2 a, size2 b with
  | Ok (_, d), Ok (_, d') =>
      if (d =? d')%nat then Ok (matmul_t a b) else Raise RuntimeError
  | Raise e, _ => Raise e
  | _, Raise e => Raise e
  end.

(** [t[:, 0]] *)
Fixpoint column0 (t : list (list nat)) : result (list nat) :=
  match t with
  | [] => Ok []
  | r :: t' =>
      match r, column0 t' with
      | i :: _, Ok c => Ok (i :: c)
      | [], _ => Raise IndexError
      | _, Raise e => Raise e
      end
  end.

(** *** Broadcasting along the first dimension

    A pointwise operation on two tensors whose first dimensions differ
    takes the one of size 1 as so many copies of its single row; two sizes
    that differ and are both not 1 are rejected. *)
Definition expand {A : Type} (n : nat) (t : list A) : list A :=
  match t with
  | [a] => repeat a n
  | _ => t
  end.

Definition broadcast {A B : Type} (a : list A) (b : list B)
  : result (list (A * B)) :=
  let n := Nat.max (length a) (length b) in
  if (length (expand n a) =? n)%nat && (length (expand n b) =? n)%nat
  then Ok (combine (expand n a) (expand n b))
  else Raise RuntimeError.

(** [torch.eq(a, torch.unsqueeze(y.data, dim=1))] for a [batch x k] long
    tensor [a] and the labels [y], a column after [unsqueeze]: entry
    [(i, j)] tells whether [a[i][j] == y[i]].  The comparison broadcasts: a
    single label is compared with every row, a single row with every
    label. *)
Definition eq_labels (a : list (list Z)) (y : list Z)
  : result (list (list bool)) :=
  match broadcast a y with
  | Ok rows =>
      Ok (map (fun ry : list Z * Z => map (fun v => Z.eqb v (snd ry)) (fst ry))
              rows)
  | Raise e => Raise e
  end.

(** [mask.float()] *)
Definition float (b : bool) : R := if b then 1 else 0.

(** [torch.mul] and [+] of two tensors of one shape. *)
Definition mul_row (u v : vec) : vec :=
  map (fun ab : R * R => fst ab * snd ab) (combine u v).

(** [torch.mul] of two 2-D tensors with rows of one length; the first
    dimension broadcasts. *)
Definition mul_rows (a b : matrix) : result matrix :=
  match broadcast a b with
  | Ok rows => Ok (map (fun sm : vec * vec => mul_row (fst sm) (snd sm)) rows)
  | Raise e => Raise e
  end.

Definition add_row (u v : vec) : vec :=
  map (fun ab : R * R => fst ab + snd ab) (combine u v).

Definition add_rows (a b : matrix) : matrix :=
  map (fun uv : vec * vec => add_row (fst uv) (snd uv)) (combine a b).

(** The nearest neighbours of the queries (lines 61-71 of [predict], the
    same lines 92-102 in [query]): the normalized queries, the [top_k]
    similarities and slots of every row, the best slot of every row and its
    stored value. *)
Definition neighbors (x : matrix)
  : M (matrix * matrix * list (list nat) * list nat * list Z) :=
  let query := normalize x in
  keys_var <- gets keys ;;
  _ <- lift (size2 query) ;;
  scores <- lift (matmul query keys_var) ;;
  k <- gets top_k ;;
  ' (cosine_similarity, topk_indices) <- lift (topk_rows scores k) ;;
  y_hat_indices <- lift (column0 topk_indices) ;;
  vals <- gets values ;;
  let y_hat := index_select 0%Z vals y_hat_indices in
  ret (query, cosine_similarity, topk_indices, y_hat_indices, y_hat).

(** The confidence: [F.softmax(self.softmax_temperature * cosine_similarity)] *)
Definition confidence (cosine_similarity : matrix) : M matrix :=
  tm <- gets softmax_temperature ;;
  ret (softmax (map (map (Rmult tm)) cosine_similarity)).

(** [Memory.predict] *)
Definition predict (x : matrix) : M (list Z * matrix) :=
  ' (_, cosine_similarity, _, _, y_hat) <- neighbors x ;;
  softmax_score <- confidence cosine_similarity ;;
  ret (y_hat, softmax_score).

(** Lines 113-121 of [query]: the stored values of the [top_k] slots of every
    row (the in-place [flatten] and [resize_] only reshape the index and
    value tensors, both freshly made and so stored row after row), the mask
    of those equal to the row's label, with the broadcasting of [torch.eq]
    and [torch.mul], and the largest masked similarity of every row, for the
    mask and for its complement. *)
Definition pos_neg_scores (cosine_similarity : matrix)
    (topk_indices : list (list nat)) (y : list Z)
  : M (list R * list R) :=
  vals <- gets values ;;
  let topk_values := map (index_select 0%Z vals) topk_indices in
  correct_mask <- lift (eq_labels topk_values y) ;;
  let mask := map (map float) correct_mask in
  let unmask := map (map (fun c => 1 - c)) mask in
  positive <- lift (mul_rows cosine_similarity mask) ;;
  ' (pos_score, _) <- lift (topk_rows positive 1) ;;
  negative <- lift (mul_rows cosine_similarity unmask) ;;
  ' (neg_score, _) <- lift (topk_rows negative 1) ;;
  ret (concat pos_score, concat neg_score).

(** [torch.eq(y_hat, torch.unsqueeze(y.data, dim=1))] of line 137, squeezed:
    whether [y_hat] is the label, row by row.  Both are columns, and the
    comparison broadcasts as in [eq_labels]. *)
Definition eq_long (y_hat y : list Z) : result (list bool) :=
  match broadcast y_hat y with
  | Ok rows => Ok (map (fun ab : Z * Z => Z.eqb (fst ab) (snd ab)) rows)
  | Raise e => Raise e
  end.

(** [t[idx]] with the check of the positions: one that is not a row of [t]
    raises. *)
Definition getitem {A : Type} (d : A) (t : list A) (idx : list nat)
  : result (list A) :=
  if forallb (fun i => (i <? length t)%nat) idx
  then Ok (index_select d t idx)
  else Raise IndexError.

(** The source of an indexed assignment [t[idx] = src] to [n] positions: it
    has [n] rows, or one row that is broadcast. *)
Definition assigned {A : Type} (n : nat) (src : list A) : result (list A) :=
  if (length (expand n src) =? n)%nat then Ok (expand n src)
  else Raise RuntimeError.

Definition nonempty {A : Type} (l : list A) : bool :=
  match l with
  | [] => false
  | _ :: _ => true
  end.

(** Step 2 of [update] (lines 147-152). *)
Definition reinforce (query : matrix) (y_hat_indices correct_examples : list nat)
  : M unit :=
  correct_indices <- lift (getitem 0%nat y_hat_indices correct_examples) ;;
  stored <- gets keys ;;
  correct_keys <- lift (getitem [] stored correct_indices) ;;
  correct_query <- lift (getitem [] query correct_examples) ;;
  let new_correct_keys := normalize (add_rows correct_keys correct_query) in
  _ <- modify (fun m => set_keys m (index_copy (keys m) correct_indices
                                               new_correct_keys)) ;;
  modify (fun m => set_age m (index_fill (age m) correct_indices 0)).

(** Lines 158-160 of [update]: the slots of the [batch_size] largest noisy
    ages. *)
Definition oldest (batch_size : nat) (rand : nat -> R) : M (list nat) :=
  a <- gets age ;;
  n <- gets memory_size ;;
  noise <- gets age_noise ;;
  let age_with_noise := add_row a (random_uniform n (- noise) noise rand) in
  ' (_, topk_indices) <- lift (topk age_with_noise batch_size) ;;
  ret topk_indices.

(** Step 3 of [update] (lines 158-163). *)
Definition replace_oldest (query : matrix) (y : list Z) (rand : nat -> R)
  : M unit :=
  oldest_indices <- oldest (length query) rand ;;
  _ <- modify (fun m => set_keys m
                         (index_copy (keys m) oldest_indices query)) ;;
  labels <- lift (assigned (length oldest_indices) y) ;;
  _ <- modify (fun m => set_values m
                         (index_copy (values m) oldest_indices labels)) ;;
  modify (fun m => set_age m (index_fill (age m) oldest_indices 0)).

(** [Memory.update] *)
Definition update (query : matrix) (y y_hat : list Z)
    (y_hat_indices : list nat) (rand : nat -> R) : M unit :=
  _ <- modify (fun m => set_age m (map (fun a => a + 1) (age m))) ;;
  result <- lift (eq_long y_hat y) ;;
  let incorrect_examples := nonzero (map negb result) in
  let correct_examples := nonzero result in
  let incorrect := nonempty incorrect_examples in
  let correct := nonempty correct_examples in
  _ <- (if correct then reinforce query y_hat_indices correct_examples
        else ret tt) ;;
  (if incorrect then replace_oldest query y rand else ret tt).

(** [Memory.query]; [rand] is the draw used by the replacement step. *)
Definition query (x : matrix) (y : list Z) (predict : bool)
    (rand : nat -> R) : M (list Z * matrix * option R) :=
  ' (query, cosine_similarity, topk_indices, y_hat_indices, y_hat) <-
    neighbors x ;;
  softmax_score <- confidence cosine_similarity ;;
  loss <-
    (if predict then ret None
     else
       ' (pos_score, neg_score) <-
         pos_neg_scores cosine_similarity topk_indices y ;;
       mg <- gets margin ;;
       l <- lift (MemoryLoss pos_score neg_score mg) ;;
       ret (Some l)) ;;
  _ <- update query y y_hat y_hat_indices rand ;;
  ret (y_hat, softmax_score, loss).

(** ** Well-formed memories and calls *)

(** The shapes [__init__] gives to the tensors of the memory, kept by every
    method. *)
Definition wf_memory (m : Memory) : Prop :=
  is_tensor2 (memory_size m) (key_dim m) (keys m)
  && (length (values m) =? memory_size m)%nat
  && (length (age m) =? memory_size m)%nat
  && (0 <? top_k m)%nat && (top_k m <=? memory_size m)%nat = true.

(** A call of [predict]: [x] is a [batch x key_dim] tensor. *)
Definition wf_predict (m : Memory) (x : matrix) : Prop :=
  is_tensor2 (length x) (key_dim m) x = true.

(** ** What a call of [query] does, read off its steps *)

Definition eval {A : Type} (c : M A) (m : Memory) : result A := fst (c m).

Definition exec {A : Type} (c : M A) (m : Memory) : Memory := snd (c m).

(** The similarities and slots of the [top_k] neighbours of every row. *)
Definition topk_of (x : matrix) (m : Memory) : matrix * list (list nat) :=
  match topk_rows (matmul_t (normalize x) (keys m)) (top_k m) with
  | Ok r => r
  | Raise _ => ([], [])
  end.

(** [y_hat_indices]: the best slot of every row. *)
Definition best_slots (x : matrix) (m : Memory) : list nat :=
  map (fun r => nth 0 r 0%nat) (snd (topk_of x m)).

(** [y_hat]: the value stored in the best slot of every row. *)
Definition predicted (x : matrix) (m : Memory) : list Z :=
  index_select 0%Z (values m) (best_slots x m).

(** [result]: whether [y_hat] is the label, for every row. *)
Definition correct_mask_of (x : matrix) (y : list Z) (m : Memory)
  : list bool :=
  map (fun ab : Z * Z => Z.eqb (fst ab) (snd ab)) (combine (predicted x m) y).

Definition correct_rows (x : matrix) (y : list Z) (m : Memory) : list nat :=
  nonzero (correct_mask_of x y m).

Definition incorrect_rows (x : matrix) (y : list Z) (m : Memory) : list nat :=
  nonzero (map negb (correct_mask_of x y m)).

(** A call of [query] that returns: [x] is a [batch x key_dim] tensor, [y]
    holds the [batch] labels, and the batch is not larger than the memory
    when one of its rows is incorrect ([torch.topk] of the replacement step
    takes [batch_size] slots). *)
Definition wf_query (m : Memory) (x : matrix) (y : list Z) : Prop :=
  is_tensor2 (length y) (key_dim m) x = true /\
  (incorrect_rows x y m <> [] -> (length x <= memory_size m)%nat).

(** [correct_indices]: the best slots of the correct rows. *)
Definition reinforced_slots (x : matrix) (y : list Z) (m : Memory)
  : list nat :=
  index_select 0%nat (best_slots x m) (correct_rows x y m).

(** [correct_keys + correct_query]: the sums the reinforcement normalizes. *)
Definition blend_sums (x : matrix) (y : list Z) (m : Memory) : matrix :=
  add_rows (index_select [] (keys m) (reinforced_slots x y m))
           (index_select [] (normalize x) (correct_rows x y m)).

(** [new_correct_keys]: the blended keys of the correct rows. *)
Definition blended_keys (x : matrix) (y : list Z) (m : Memory) : matrix :=
  normalize (blend_sums x y m).

(** The blend of one correct row. *)
Definition blend_of (x : matrix) (m : Memory) (r : nat) : vec :=
  normalize_row
    (add_row (nth (nth r (best_slots x m) 0%nat) (keys m) [])
             (nth r (normalize x) [])).

(** The keys when the reinforcement step is done. *)
Definition keys_after_reinforce (x : matrix) (y : list Z) (m : Memory)
  : matrix :=
  index_copy (keys m) (reinforced_slots x y m) (blended_keys x y m).

(** The ages when the replacement step starts: after the tick and the resets
    of the reinforced slots. *)
Definition ages_before_replacement (x : matrix) (y : list Z) (m : Memory)
  : list R :=
  index_fill (map (fun a => a + 1) (age m)) (reinforced_slots x y m) 0.

Definition noisy_ages (x : matrix) (y : list Z) (rand : nat -> R)
    (m : Memory) : list R :=
  add_row (ages_before_replacement x y m)
          (random_uniform (memory_size m) (- age_noise m) (age_noise m) rand).

(** [oldest_indices] when the replacement step runs, no slot otherwise. *)
Definition replaced_slots (x : matrix) (y : list Z) (rand : nat -> R)
    (m : Memory) : list nat :=
  if nonempty (incorrect_rows x y m) then
    match topk (noisy_ages x y rand m) (length x) with
    | Ok (_, i) => i
    | Raise _ => []
    end
  else [].

(** The slots a call writes. *)
Definition written_slots (x : matrix) (y : list Z) (rand : nat -> R)
    (m : Memory) : list nat :=
  reinforced_slots x y m ++ replaced_slots x y rand m.

(** The memory a call of [query] leaves. *)
Definition after_query (x : matrix) (y : list Z) (rand : nat -> R)
    (m : Memory) : Memory :=
  {| keys := index_copy (keys_after_reinforce x y m)
                        (replaced_slots x y rand m) (normalize x);
     values := index_copy (values m) (replaced_slots x y rand m) y;
     age := index_fill (ages_before_replacement x y m)
                       (replaced_slots x y rand m) 0;
     memory_size := memory_size m;
     key_dim := key_dim m;
     top_k := top_k m;
     softmax_temperature := softmax_temperature m;
     age_noise := age_noise m;
     margin := margin m |}.

(** The positive and negative scores of the loss. *)
Definition scores_of (x : matrix) (y : list Z) (m : Memory)
  : list R * list R :=
  match eval (pos_neg_scores (fst (topk_of x m)) (snd (topk_of x m)) y) m with
  | Ok r => r
  | Raise _ => ([], [])
  end.

(** The hinge of one row and the mean of the hinges. *)
Definition hinge (mg : R) (pn : R * R) : R := Rmax (snd pn - fst pn + mg) 0.

Definition mean (l : list R) : R := Rsum l / INR (length l).

Definition loss_of (x : matrix) (y : list Z) (m : Memory) : R :=
  mean (map (hinge (margin m))
            (combine (fst (scores_of x y m)) (snd (scores_of x y m)))).

(** The largest entry of a list, if it has one. *)
Fixpoint max_list (l : list R) : option R :=
  match l with
  | [] => None
  | a :: l' =>
      match max_list l' with
      | None => Some a
      | Some b => Some (Rmax a b)
      end
  end.

(** The entries of [v] at the positions where the mask is set. *)
Fixpoint masked (v : vec) (mask : list bool) : list R :=
  match v, mask with
  | a :: v', b :: mask' =>
      if b then a :: masked v' mask' else masked v' mask'
  | _, _ => []
  end.

(** A sequence of calls on one memory. *)
Inductive call : Type :=
| Predict (x : matrix)
| Query (x : matrix) (y : list Z) (predict : bool) (rand : nat -> R).

Definition run_call (c : call) (m : Memory) : Memory :=
  match c with
  | Predict x => exec (predict x) m
  | Query x y p rand => exec (query x y p rand) m
  end.

Definition run (cs : list call) (m : Memory) : Memory :=
  fold_left (fun m' c => run_call c m') cs m.

(** The labels of the [query] calls of a sequence all satisfy [P]. *)
Definition labels_in (P : Z -> Prop) (cs : list call) : Prop :=
  Forall (fun c => match c with
                   | Predict _ => True
                   | Query _ y _ _ => Forall P y
                   end) cs.

(** The mask of the slots of one row against the row's label. *)
Definition match_mask (m : Memory) (ix : list nat) (yi : Z) : list bool :=
  map (fun s => Z.eqb (nth s (values m) 0%Z) yi) ix.

(** Every stored key has norm one. *)
Definition unit_keys (m : Memory) : Prop :=
  Forall (fun k => l2norm k = 1) (keys m).

(** Every stored key has norm one, up to [tol]. *)
Definition unit_keys_within (tol : R) (m : Memory) : Prop :=
  Forall (fun k => Rabs (l2norm k - 1) <= tol) (keys m).

(** The labels of a query are one per row, and no vector that a call
    normalizes is shorter than [eps]: the rows of the query and the sums of
    the reinforcement step. *)
Definition conditioned_call (m : Memory) (c : call) : Prop :=
  match c with
  | Predict _ => True
  | Query x y _ _ =>
      length y = length x /\
      Forall (fun v => eps <= l2norm v) x /\
      Forall (fun v => eps <= l2norm v) (blend_sums x y m)
  end.

Fixpoint conditioned (m : Memory) (cs : list call) : Prop :=
  match cs with
  | [] => True
  | c :: cs' => conditioned_call m c /\ conditioned (run_call c m) cs'
  end.

(** No row of a query of the sequence is the zero vector. *)
Definition nonzero_row (v : vec) : Prop := Exists (fun a => a <> 0) v.

Definition nonzero_queries (cs : list call) : Prop :=
  Forall (fun c => match c with
                   | Predict x => Forall nonzero_row x
                   | Query x _ _ _ => Forall nonzero_row x
                   end) cs.

(** The scores of the loss read as maxima over the matching and over the
    other candidates of a row that has both. *)
Definition scores_are_masked_maxima (m : Memory) (x : matrix) (y : list Z)
  : Prop :=
  forall i v ix yi,
    fst (topk_of x m) !! i = Some v -> snd (topk_of x m) !! i = Some ix ->
    y !! i = Some yi ->
    In true (match_mask m ix yi) -> In false (match_mask m ix yi) ->
    fst (scores_of x y m) !! i = max_list (masked v (match_mask m ix yi)) /\
    snd (scores_of x y m) !! i =
      max_list (masked v (map negb (match_mask m ix yi))).


(** A slot shared by correct rows as the specification has it at the end
    of a call: its key is the blend of the key it had with one of these
    rows. *)
Definition shared_slot_ends_blended (m : Memory) (x : matrix) (y : list Z)
    (rand : nat -> R) : Prop :=
  forall s r1 r2,
    r1 <> r2 ->
    In r1 (correct_rows x y m) -> In r2 (correct_rows x y m) ->
    best_slots x m !! r1 = Some s -> best_slots x m !! r2 = Some s ->
    exists r k q,
      In r (correct_rows x y m) /\ best_slots x m !! r = Some s /\
      keys m !! s = Some k /\ normalize x !! r = Some q /\
      keys (exec (query x y false rand) m) !! s =
        Some (normalize_row (add_row k q)).

(** The order of a list sorted by [sort_desc]. *)
Definition desc (a b : R * nat) : Prop := fst b <= fst a.

(** The first entry of a list bounds the others. *)
Definition head_max (l : list (R * nat)) : Prop :=
  match l with
  | [] => True
  | a :: r => Forall (fun b => fst b <= fst a) r
  end.

(** ** Sample memories and calls *)

(** A memory of three slots as [__init__] leaves it when the draw gives the
    rows (1,0), (0,1) and (-1,0). *)
Definition fresh3 : Memory :=
  {| keys := [[1; 0]; [0; 1]; [-1; 0]];
     values := [0; 0; 0]%Z;
     age := [0; 0; 0];
     memory_size := 3;
     key_dim := 2;
     top_k := 2;
     softmax_temperature := 1;
     age_noise := 8;
     margin := 0.1 |}.

(** The same memory after the label 5 was stored in slot 2. *)
Definition stored5 : Memory :=
  {| keys := [[1; 0]; [0; 1]; [-1; 0]];
     values := [0; 0; 5]%Z;
     age := [1; 1; 0];
     memory_size := 3;
     key_dim := 2;
     top_k := 2;
     softmax_temperature := 1;
     age_noise := 8;
     margin := 0.1 |}.

(** Draws of [torch.rand] that give the noise 0, 1 and 1/2 for an
    [age_noise] of 8. *)
Definition draw3 (i : nat) : R := nth i [1 / 2; 9 / 16; 17 / 32] 0.

(** A batch whose first row is predicted correctly by [fresh3] and whose
    second row is not. *)
Definition mixed_x : matrix := [[1; 0]; [0; 1]].
Definition mixed_y : list Z := [0; 5]%Z.

(** A batch of two correct rows that have the same best slot of [fresh3]. *)
Definition shared_x : matrix := [[1; 0]; [4 / 5; 3 / 5]].
Definition shared_y : list Z := [0; 0]%Z.

(** A query whose only matching candidate in [stored5] has a negative
    similarity. *)
Definition away_x : matrix := [[3 / 5; - 4 / 5]].
Definition away_y : list Z := [5]%Z.

(** The draw of [torch.randn] that gives the keys of [fresh3], and the
    memory [__init__] builds from it. *)
Definition randn3 (i j : nat) : R :=
  nth j (nth i [[1; 0]; [0; 1]; [-1; 0]] []) 0.

Definition built3 : Memory :=
  {| keys := normalize (tabulate 3 (fun i => tabulate 2 (fun j => randn3 i j)));
     values := [0; 0; 0]%Z;
     age := [0; 0; 0];
     memory_size := 3;
     key_dim := 2;
     top_k := 2;
     softmax_temperature := Rmax 1 (ln (0.2 * INR 2) / 1);
     age_noise := 8;
     margin := 0.1 |}.

(** A memory of one slot whose key is (1,0), and the query (-1,0). *)
Definition randn1 (i j : nat) : R := nth j [1; 0] 0.

Definition built1 : Memory :=
  {| keys := normalize (tabulate 1 (fun i => tabulate 2 (fun j => randn1 i j)));
     values := [0]%Z;
     age := [0];
     memory_size := 1;
     key_dim := 2;
     top_k := 1;
     softmax_temperature := Rmax 1 (ln (0.2 * INR 256) / 40);
     age_noise := 8;
     margin := 0.1 |}.

Definition opposite_x : matrix := [[-1; 0]].
Definition opposite_y : list Z := [0]%Z.


(** A batch of two correct rows with the same best slot of [fresh3] and
    one incorrect row. *)
Definition crowd_x : matrix := [[1; 0]; [4 / 5; 3 / 5]; [0; 1]].
Definition crowd_y : list Z := [0; 0; 5]%Z.

(** A tensor of slot numbers, two rows of two. *)
Definition grid : list (list nat) := [[0; 1]; [2; 1]]%nat.

(** A batch whose row has three entries, and a batch whose row is zero. *)
Definition wide_x : matrix := [[1; 0; 0]].
Definition zero_x : matrix := [[0; 0]].

(** The labels of the sample calls. *)
Definition seen_label (v : Z) : Prop := v = 0%Z \/ v = 5%Z.

(** ** Tactics for explicit reals *)

(** Equality of lists and pairs of reals, entry by entry. *)
Ltac req :=
  repeat match goal with
         | |- _ :: _ = _ :: _ => apply f_equal2
         | |- (_, _) = (_, _) => apply f_equal2
         | |- Some _ = Some _ => apply f_equal
         end; try reflexivity; try lra.

(** Decides the comparisons of a sort of explicit reals. *)
Ltac rcompare :=
  repeat match goal with
         | |- context [Rle_dec ?a ?b] =>
             destruct (Rle_dec a b); [try (exfalso; lra)|try (exfalso; lra)]
         end.

Ltac rsort := unfold topk; repeat (progress simpl || rcompare).

(** * Properties *)

(** ** Lists written by index *)

Section IndexedWrites.
Context {A : Type}.
Implicit Types (t src : list A) (idx : list nat).

Lemma length_index_copy t idx src :
  length (index_copy t idx src) = length t.
Proof.
  revert t src.
  induction idx as [|i idx IH]; intros t [|v src]; simpl; trivial.
  rewrite IH. apply length_insert.
Qed.

Lemma length_index_fill t idx (v : A) :
  length (index_fill t idx v) = length t.
Proof.
  unfold index_fill. revert t.
  induction idx as [|i idx IH]; intros t; simpl; trivial.
  rewrite IH. apply length_insert.
Qed.

(** A position that is not written keeps its entry. *)
Lemma index_copy_other t idx src (s : nat) :
  ~ In s idx -> index_copy t idx src !! s = t !! s.
Proof.
  revert t src.
  induction idx as [|i idx IH]; intros t [|v src] Hs; simpl; trivial.
  rewrite IH.
  - apply list_lookup_insert_ne. intros ->. apply Hs. now left.
  - intros H. apply Hs. now right.
Qed.

Lemma index_fill_other t idx (v : A) (s : nat) :
  ~ In s idx -> index_fill t idx v !! s = t !! s.
Proof.
  unfold index_fill. revert t.
  induction idx as [|i idx IH]; intros t Hs; simpl; trivial.
  rewrite IH.
  - apply list_lookup_insert_ne. intros ->. apply Hs. now left.
  - intros H. apply Hs. now right.
Qed.

(** A written position holds the filling value. *)
Lemma index_fill_written t idx (v : A) (s : nat) :
  In s idx -> (s < length t)%nat -> index_fill t idx v !! s = Some v.
Proof.
  unfold index_fill. revert t.
  induction idx as [|i idx IH]; intros t Hs Hlt; simpl in *; [easy|].
  destruct (in_dec Nat.eq_dec s idx) as [Hin|Hout].
  - apply IH; trivial. now rewrite length_insert.
  - destruct Hs as [->|Hs]; [|easy].
    change (index_fill (<[s:=v]> t) idx v !! s = Some v).
    rewrite index_fill_other by trivial.
    now apply list_lookup_insert_eq.
Qed.

(** The last write to a position is the one that stays. *)
Lemma index_copy_last t idx1 idx2 src1 src2 (s : nat) (v : A) :
  length idx1 = length src1 -> ~ In s idx2 -> (s < length t)%nat ->
  index_copy t (idx1 ++ s :: idx2) (src1 ++ v :: src2) !! s = Some v.
Proof.
  revert t src1.
  induction idx1 as [|i idx1 IH]; intros t [|w src1] Hlen Hs Hlt;
    simpl in *; try discriminate.
  - rewrite index_copy_other by trivial.
    now apply list_lookup_insert_eq.
  - apply IH; [congruence|trivial|now rewrite length_insert].
Qed.

(** Every written position holds one of the written rows. *)
Lemma index_copy_written t idx src (s : nat) :
  length idx = length src -> In s idx -> (s < length t)%nat ->
  exists p, idx !! p = Some s /\ index_copy t idx src !! s = src !! p
            /\ forall p', (p < p')%nat -> idx !! p' <> Some s.
Proof.
  revert t src.
  induction idx as [|i idx IH]; intros t [|v src] Hlen Hs Hlt;
    simpl in *; try discriminate; [easy|].
  destruct (in_dec Nat.eq_dec s idx) as [Hin|Hout].
  - destruct (IH (<[i:=v]> t) src) as (p & Hp & Hv & Hlast);
      [congruence|trivial|now rewrite length_insert|].
    exists (S p). repeat split; trivial.
    intros [|p'] Hlt'; [lia|]. simpl. apply Hlast. lia.
  - destruct Hs as [->|Hs]; [|easy].
    exists 0%nat. repeat split.
    + rewrite index_copy_other by trivial.
      now apply list_lookup_insert_eq.
    + intros [|p'] Hlt'; [lia|]. simpl. intros Hp'.
      apply Hout. apply list_elem_of_In.
      now apply list_elem_of_lookup_2 with p'.
Qed.
End IndexedWrites.

(** ** Broadcasting and checked indexing *)

Lemma expand_same {A : Type} (n : nat) (t : list A) :
  length t = n -> expand n t = t.
Proof.
  intros <-. destruct t as [|a [|b t]]; reflexivity.
Qed.

Lemma length_expand {A : Type} (n : nat) (t : list A) :
  length (expand n t) = if (length t =? 1)%nat then n else length t.
Proof.
  destruct t as [|a [|b t]]; simpl; trivial. apply repeat_length.
Qed.

Lemma broadcast_same {A B : Type} (a : list A) (b : list B) :
  length a = length b -> broadcast a b = Ok (combine a b).
Proof.
  intros H. unfold broadcast. rewrite <- H, Nat.max_id.
  rewrite (expand_same (length a) a eq_refl), (expand_same (length a) b)
    by now symmetry.
  now rewrite <- H, Nat.eqb_refl.
Qed.

Lemma eq_labels_same (a : list (list Z)) (y : list Z) :
  length a = length y ->
  eq_labels a y =
  Ok (map (fun ry : list Z * Z => map (fun v => Z.eqb v (snd ry)) (fst ry))
          (combine a y)).
Proof. intros H. unfold eq_labels. now rewrite broadcast_same. Qed.

Lemma eq_long_same (y_hat y : list Z) :
  length y_hat = length y ->
  eq_long y_hat y =
  Ok (map (fun ab : Z * Z => Z.eqb (fst ab) (snd ab)) (combine y_hat y)).
Proof. intros H. unfold eq_long. now rewrite broadcast_same. Qed.

Lemma mul_rows_same (a b : matrix) :
  length a = length b ->
  mul_rows a b =
  Ok (map (fun sm : vec * vec => mul_row (fst sm) (snd sm)) (combine a b)).
Proof. intros H. unfold mul_rows. now rewrite broadcast_same. Qed.

Lemma getitem_ok {A : Type} (d : A) (t : list A) (idx : list nat) :
  Forall (fun i => (i < length t)%nat) idx ->
  getitem d t idx = Ok (index_select d t idx).
Proof.
  intros H. unfold getitem.
  assert (E : forallb (fun i => (i <? length t)%nat) idx = true).
  { apply forallb_forall. intros i Hi. rewrite List.Forall_forall in H.
    apply Nat.ltb_lt. now apply H. }
  now rewrite E.
Qed.

Lemma getitem_inv {A : Type} (d : A) (t : list A) (idx : list nat)
    (r : list A) :
  getitem d t idx = Ok r -> r = index_select d t idx.
Proof.
  unfold getitem. destruct (forallb _ idx); [|discriminate]. congruence.
Qed.

Lemma assigned_same {A : Type} (n : nat) (src : list A) :
  length src = n -> assigned n src = Ok src.
Proof.
  intros H. unfold assigned. rewrite (expand_same n src H), H.
  now rewrite Nat.eqb_refl.
Qed.

Lemma assigned_inv {A : Type} (n : nat) (src r : list A) :
  assigned n src = Ok r -> r = expand n src /\ length r = n.
Proof.
  unfold assigned. destruct (_ =? _)%nat eqn:E; [|discriminate].
  intros H. injection H as <-. apply Nat.eqb_eq in E. auto.
Qed.

Lemma Forall_expand {A : Type} (P : A -> Prop) (n : nat) (t : list A) :
  Forall P t -> Forall P (expand n t).
Proof.
  intros H. destruct t as [|a [|b t]]; simpl; trivial.
  inversion H; subst. apply List.Forall_forall. intros c Hc.
  now apply repeat_spec in Hc as ->.
Qed.

(** ** [nonzero] *)

Lemma nonzero_from_spec (mask : list bool) (i s : nat) :
  In s (nonzero_from i mask) <->
  (i <= s)%nat /\ mask !! (s - i)%nat = Some true.
Proof.
  revert i. induction mask as [|b mask IH]; intros i; simpl.
  - split; [easy|]. intros [_ H]. discriminate.
  - assert (Hstep : In s (nonzero_from (S i) mask) <->
              (i < s)%nat /\ (b :: mask) !! (s - i)%nat = Some true).
    { rewrite IH. split; intros [Hle H]; split; try lia.
      - replace (s - i)%nat with (S (s - S i)) by lia. exact H.
      - replace (s - i)%nat with (S (s - S i)) in H by lia. exact H. }
    destruct b; simpl; rewrite Hstep.
    + split.
      * intros [->|[Hlt H]]; [|split; [lia|trivial]].
        split; [lia|]. now rewrite Nat.sub_diag.
      * intros [Hle H]. destruct (Nat.eq_dec i s) as [->|Hne]; [now left|].
        right. split; [lia|trivial].
    + split.
      * intros [Hlt H]. split; [lia|trivial].
      * intros [Hle H]. destruct (Nat.eq_dec i s) as [->|Hne].
        -- rewrite Nat.sub_diag in H. discriminate.
        -- split; [lia|trivial].
Qed.

Lemma nonzero_spec (mask : list bool) (s : nat) :
  In s (nonzero mask) <-> mask !! s = Some true.
Proof.
  unfold nonzero. rewrite nonzero_from_spec, Nat.sub_0_r.
  split; [now intros [_ H]|]. intros H. split; [lia|trivial].
Qed.

Lemma nonempty_In {A : Type} (l : list A) :
  nonempty l = true <-> exists a, In a l.
Proof.
  destruct l as [|a l]; simpl.
  - split; [discriminate|]. now intros [a H].
  - split; trivial. intros _. exists a. now left.
Qed.

Lemma nonempty_false {A : Type} (l : list A) : nonempty l = false -> l = [].
Proof. now destruct l. Qed.

(** ** [torch.topk] *)

Lemma split_maps {A B : Type} (l : list (A * B)) :
  split l = (map fst l, map snd l).
Proof.
  induction l as [|[a b] l IH]; simpl; trivial. now rewrite IH.
Qed.

Lemma insert_desc_perm (a : R * nat) (l : list (R * nat)) :
  Permutation (insert_desc a l) (a :: l).
Proof.
  induction l as [|b l IH]; simpl; trivial.
  destruct (Rle_dec (fst b) (fst a)); trivial.
  rewrite IH. apply perm_swap.
Qed.

Lemma sort_desc_perm (l : list (R * nat)) : Permutation (sort_desc l) l.
Proof.
  induction l as [|a l IH]; simpl; trivial.
  rewrite insert_desc_perm. now constructor.
Qed.

Lemma insert_desc_head_max (a : R * nat) (l : list (R * nat)) :
  head_max l -> head_max (insert_desc a l).
Proof.
  destruct l as [|b l]; simpl; [constructor|]. intros Hb.
  destruct (Rle_dec (fst b) (fst a)) as [Hle|Hgt]; simpl.
  - constructor; trivial.
    rewrite List.Forall_forall in Hb. apply List.Forall_forall. intros c Hc.
    specialize (Hb c Hc). lra.
  - apply List.Forall_forall. intros c Hc.
    apply (Permutation_in _ (insert_desc_perm a l)) in Hc.
    destruct Hc as [<-|Hc]; [lra|].
    rewrite List.Forall_forall in Hb. now apply Hb.
Qed.

Lemma sort_desc_head_max (l : list (R * nat)) : head_max (sort_desc l).
Proof.
  induction l as [|a l IH]; simpl; trivial.
  now apply insert_desc_head_max.
Qed.

Lemma enumerate_fst (l : list R) : map fst (enumerate l) = l.
Proof.
  unfold enumerate. generalize 0%nat.
  induction l as [|a l IH]; intros n; simpl; trivial. now rewrite IH.
Qed.

Lemma enumerate_snd (l : list R) : map snd (enumerate l) = seq 0 (length l).
Proof.
  unfold enumerate. generalize 0%nat.
  induction l as [|a l IH]; intros n; simpl; trivial. now rewrite IH.
Qed.

Lemma enumerate_In (l : list R) (v : R) (i : nat) :
  In (v, i) (enumerate l) -> l !! i = Some v.
Proof.
  unfold enumerate.
  assert (H : forall n, In (v, i) (combine l (seq n (length l))) ->
                        (n <= i)%nat /\ l !! (i - n)%nat = Some v).
  { induction l as [|a l IH]; intros n; simpl; [easy|].
    intros [Heq|Hin].
    - injection Heq as -> ->. split; [lia|]. now rewrite Nat.sub_diag.
    - apply IH in Hin as [Hle Hv]. split; [lia|].
      replace (i - n)%nat with (S (i - S n)) by lia. exact Hv. }
  intros Hin. apply H in Hin as [_ Hv]. now rewrite Nat.sub_0_r in Hv.
Qed.

Lemma length_enumerate (l : list R) : length (enumerate l) = length l.
Proof. rewrite <- (length_map fst), enumerate_fst. reflexivity. Qed.

(** [topk] returns [k] distinct positions of the row and the entries found
    there. *)
Lemma topk_ok (l : list R) (k : nat) :
  (k <= length l)%nat ->
  exists v i,
    topk l k = Ok (v, i) /\ length v = k /\ length i = k /\
    List.NoDup i /\ Forall (fun s => (s < length l)%nat) i /\
    Forall2 (fun a s => l !! s = Some a) v i.
Proof.
  intros Hk. unfold topk.
  destruct (k <=? length l)%nat eqn:E; [|apply Nat.leb_gt in E; lia].
  rewrite split_maps. eexists _, _. split; [reflexivity|].
  pose proof (sort_desc_perm (enumerate l)) as Hperm.
  assert (Hlen : length (sort_desc (enumerate l)) = length l).
  { rewrite (Permutation_length Hperm). apply length_enumerate. }
  assert (Hin : forall p, In p (firstn k (sort_desc (enumerate l))) ->
                          In p (enumerate l)).
  { intros p Hp. apply (Permutation_in _ Hperm).
    rewrite <- (firstn_skipn k (sort_desc (enumerate l))).
    apply in_or_app. now left. }
  repeat split.
  - rewrite length_map. apply firstn_length_le. lia.
  - rewrite length_map. apply firstn_length_le. lia.
  - rewrite <- firstn_map.
    apply NoDup_app_remove_r with (skipn k (map snd (sort_desc (enumerate l)))).
    rewrite firstn_skipn.
    apply (Permutation_NoDup (Permutation_sym (Permutation_map snd Hperm))).
    rewrite enumerate_snd. apply seq_NoDup.
  - apply List.Forall_forall. intros s Hs. apply in_map_iff in Hs as ([v s'] & <- & Hp).
    apply Hin, enumerate_In in Hp. simpl. now apply lookup_lt_Some in Hp.
  - induction (firstn k (sort_desc (enumerate l))) as [|[v s] r IH]; simpl;
      constructor.
    + apply enumerate_In, Hin. now left.
    + apply IH. intros p Hp. apply Hin. now right.
Qed.

Lemma max_list_spec (l : list R) (M : R) :
  In M l -> (forall b, In b l -> b <= M) -> max_list l = Some M.
Proof.
  induction l as [|a l IH]; simpl; [easy|]. intros HM Hle.
  destruct l as [|c l'].
  - destruct HM as [->|[]]. reflexivity.
  - destruct (Req_dec_T a M) as [->|Hne].
    + destruct (max_list (c :: l')) as [b|] eqn:E; trivial.
      f_equal. apply Rmax_left.
      assert (Hb : In b (c :: l')).
      { clear -E. revert b E. induction (c :: l') as [|x r IHr]; intros b E;
          simpl in *; [discriminate|].
        destruct (max_list r) as [b'|] eqn:E'.
        - injection E as <-. unfold Rmax. destruct (Rle_dec x b');
            [right; now apply IHr|now left].
        - injection E as <-. now left. }
      apply Hle. now right.
    + destruct HM as [Heq|HM]; [congruence|].
      rewrite IH; trivial.
      * f_equal. apply Rmax_right. apply Hle. now left.
      * intros b Hb. apply Hle. now right.
Qed.

(** The single entry picked by [topk l 1] is the largest of the row. *)
Lemma topk_1_max (l : list R) :
  l <> [] ->
  exists M s, topk l 1 = Ok ([M], [s]) /\ max_list l = Some M
              /\ l !! s = Some M.
Proof.
  intros Hne. unfold topk.
  assert (Hlen : (1 <= length l)%nat) by (destruct l; simpl; [easy|lia]).
  destruct (1 <=? length l)%nat eqn:E; [|apply Nat.leb_gt in E; lia].
  pose proof (sort_desc_perm (enumerate l)) as Hperm.
  pose proof (sort_desc_head_max (enumerate l)) as Hmax.
  destruct (sort_desc (enumerate l)) as [|[M s] r] eqn:Es.
  - apply Permutation_length in Hperm. rewrite length_enumerate in Hperm.
    simpl in Hperm. lia.
  - exists M, s. simpl. split; [reflexivity|].
    assert (Hin : In (M, s) (enumerate l)).
    { apply (Permutation_in _ Hperm). now left. }
    split; [|now apply enumerate_In].
    apply max_list_spec.
    + rewrite <- (enumerate_fst l). apply in_map_iff. now exists (M, s).
    + intros b Hb. rewrite <- (enumerate_fst l) in Hb.
      apply in_map_iff in Hb as (p & <- & Hp).
      apply (Permutation_in _ (Permutation_sym Hperm)) in Hp.
      destruct Hp as [<-|Hp]; [simpl; lra|].
      simpl in Hmax. rewrite List.Forall_forall in Hmax. now apply (Hmax p).
Qed.

Lemma insert_desc_sorted (a : R * nat) (l : list (R * nat)) :
  StronglySorted desc l -> StronglySorted desc (insert_desc a l).
Proof.
  induction 1 as [|b l Hl IH Hb]; simpl; [repeat constructor|].
  destruct (Rle_dec (fst b) (fst a)) as [Hle|Hgt].
  - constructor; [now constructor|]. constructor; [exact Hle|].
    rewrite List.Forall_forall in Hb. apply List.Forall_forall.
    intros c Hc. specialize (Hb c Hc). unfold desc in *. lra.
  - constructor; trivial. apply List.Forall_forall. intros c Hc.
    apply (Permutation_in _ (insert_desc_perm a l)) in Hc.
    destruct Hc as [<-|Hc]; [unfold desc; lra|].
    rewrite List.Forall_forall in Hb. now apply Hb.
Qed.

Lemma sort_desc_sorted (l : list (R * nat)) : StronglySorted desc (sort_desc l).
Proof.
  induction l as [|a l IH]; simpl; [constructor|].
  now apply insert_desc_sorted.
Qed.

Lemma sorted_firstn_skipn (k : nat) (l : list (R * nat)) :
  StronglySorted desc l ->
  forall a b, In a (firstn k l) -> In b (skipn k l) -> fst b <= fst a.
Proof.
  intros Hl. revert k. induction Hl as [|c l Hl IH Hc]; intros k a b Ha Hb.
  - now destruct k.
  - destruct k as [|k]; simpl in *; [easy|].
    destruct Ha as [<-|Ha].
    + rewrite List.Forall_forall in Hc. apply Hc.
      rewrite <- (firstn_skipn k l). apply in_or_app. now right.
    + now apply (IH k).
Qed.

(** The entries [topk] leaves out are not larger than those it takes, and
    the first one it takes is not smaller than any entry of the row. *)
Lemma topk_largest (l : list R) (k : nat) (v : list R) (ix : list nat) :
  topk l k = Ok (v, ix) ->
  forall s b, l !! s = Some b -> ~ In s ix ->
  forall a, In a v -> b <= a.
Proof.
  unfold topk. destruct (k <=? length l)%nat; [|discriminate].
  rewrite split_maps. intros H. injection H as <- <-.
  intros s b Hs Hout a Ha.
  apply in_map_iff in Ha as (pa & <- & Hpa).
  assert (Hin : In (b, s) (sort_desc (enumerate l))).
  { apply (Permutation_in _ (Permutation_sym (sort_desc_perm _))).
    unfold enumerate. clear -Hs.
    assert (H : forall n, l !! s = Some b ->
                          In (b, (n + s)%nat) (combine l (seq n (length l)))).
    { clear Hs. revert s. induction l as [|c l IH]; intros [|s] n H;
        simpl in *; try discriminate.
      - injection H as ->. left. f_equal. lia.
      - right. replace (n + S s)%nat with (S n + s)%nat by lia. now apply IH. }
    now apply (H 0%nat). }
  rewrite <- (firstn_skipn k (sort_desc (enumerate l))) in Hin.
  apply in_app_or in Hin as [Hin|Hin].
  - exfalso. apply Hout. apply in_map_iff. now exists (b, s).
  - apply (sorted_firstn_skipn k _ (sort_desc_sorted _) pa (b, s) Hpa Hin).
Qed.

Lemma topk_sorted (l : list R) (k : nat) (v : list R) (ix : list nat) :
  topk l k = Ok (v, ix) -> StronglySorted (fun a b => b <= a) v.
Proof.
  unfold topk. destruct (k <=? length l)%nat; [|discriminate].
  rewrite split_maps. intros H. injection H as <- _.
  assert (Hs : StronglySorted desc (firstn k (sort_desc (enumerate l)))).
  { pose proof (sort_desc_sorted (enumerate l)) as Hl. revert k.
    induction Hl as [|c r Hr IH Hc]; intros [|k]; simpl; try constructor.
    - apply IH.
    - rewrite List.Forall_forall in Hc. apply List.Forall_forall.
      intros a Ha. apply Hc. rewrite <- (firstn_skipn k r).
      apply in_or_app. now left. }
  induction Hs as [|c r Hr IH Hc]; simpl; constructor; trivial.
  rewrite List.Forall_forall in Hc. apply List.Forall_forall.
  intros a Ha. apply in_map_iff in Ha as (p & <- & Hp). now apply Hc.
Qed.

(** ** Shapes *)

Lemma lookup_map {A B : Type} (f : A -> B) (l : list A) (i : nat) :
  map f l !! i = option_map f (l !! i).
Proof.
  revert i. induction l as [|a l IH]; intros [|i]; simpl; auto.
Qed.

Lemma is_tensor2_spec (n d : nat) (x : matrix) :
  is_tensor2 n d x = true <->
  (0 < n)%nat /\ (0 < d)%nat /\ length x = n /\
  Forall (fun r => length r = d) x.
Proof.
  unfold is_tensor2. rewrite !andb_true_iff, !Nat.ltb_lt, Nat.eqb_eq.
  rewrite forallb_forall, List.Forall_forall.
  setoid_rewrite Nat.eqb_eq. tauto.
Qed.

Lemma length_normalize_row (v : vec) : length (normalize_row v) = length v.
Proof. apply length_map. Qed.

Lemma is_tensor2_normalize (n d : nat) (x : matrix) :
  is_tensor2 n d x = true -> is_tensor2 n d (normalize x) = true.
Proof.
  rewrite !is_tensor2_spec. intros (Hn & Hd & Hlen & Hrows).
  unfold normalize. rewrite length_map. repeat split; trivial.
  apply List.Forall_forall. intros r Hr.
  apply in_map_iff in Hr as (r' & <- & Hr').
  rewrite List.Forall_forall in Hrows.
  rewrite length_normalize_row. now apply Hrows.
Qed.

Lemma size2_tensor (n d : nat) (x : matrix) :
  is_tensor2 n d x = true -> size2 x = Ok (n, d).
Proof.
  intros H. pose proof H as H'. apply is_tensor2_spec in H'.
  destruct H' as (Hn & Hd & Hlen & Hrows).
  destruct x as [|r x]; simpl in *; [lia|].
  assert (Hr : length r = d) by now inversion Hrows.
  unfold size2. rewrite Hr, Hlen, H. reflexivity.
Qed.

Lemma matmul_tensor (n p d : nat) (a b : matrix) :
  is_tensor2 n d a = true -> is_tensor2 p d b = true ->
  matmul a b = Ok (matmul_t a b).
Proof.
  intros Ha Hb. unfold matmul.
  rewrite (size2_tensor _ _ _ Ha), (size2_tensor _ _ _ Hb).
  now rewrite Nat.eqb_refl.
Qed.

Lemma matmul_t_rows (a b : matrix) :
  Forall (fun r => length r = length b) (matmul_t a b).
Proof.
  apply List.Forall_forall. intros r Hr. unfold matmul_t in Hr.
  apply in_map_iff in Hr as (r' & <- & _). apply length_map.
Qed.

(** [topk_rows] works row by row. *)
Lemma topk_rows_ok (x : matrix) (k : nat) :
  Forall (fun r => (k <= length r)%nat) x ->
  exists vs ixs,
    topk_rows x k = Ok (vs, ixs) /\
    length vs = length x /\ length ixs = length x /\
    forall i r, x !! i = Some r ->
      exists v ix, topk r k = Ok (v, ix) /\
                   vs !! i = Some v /\ ixs !! i = Some ix.
Proof.
  induction x as [|r x IH]; intros Hx; simpl.
  - exists [], []. repeat split; trivial. intros i r H. discriminate.
  - inversion Hx as [|? ? Hr Hx']; subst.
    destruct (IH Hx') as (vs & ixs & -> & Hlv & Hli & Hrows).
    destruct (topk_ok r k Hr) as (v & ix & Ht & _).
    rewrite Ht. exists (v :: vs), (ix :: ixs). simpl.
    repeat split; try congruence.
    intros [|i] r' Hr'; simpl in *.
    + injection Hr' as <-. now exists v, ix.
    + now apply Hrows.
Qed.

Lemma column0_ok (t : list (list nat)) :
  Forall (fun r => (0 < length r)%nat) t ->
  column0 t = Ok (map (fun r => nth 0 r 0%nat) t).
Proof.
  induction t as [|r t IH]; intros Ht; simpl; trivial.
  inversion Ht as [|? ? Hr Ht']; subst. rewrite (IH Ht').
  destruct r; simpl in *; [lia|reflexivity].
Qed.

(** ** Running the steps of a call *)

Lemma bind_ok {A B : Type} (c : M A) (k : A -> M B) (m m' : Memory) (a : A) :
  c m = (Ok a, m') -> bind c k m = k a m'.
Proof. intros H. unfold bind. now rewrite H. Qed.

Lemma wf_memory_spec (m : Memory) :
  wf_memory m <->
  is_tensor2 (memory_size m) (key_dim m) (keys m) = true /\
  length (values m) = memory_size m /\ length (age m) = memory_size m /\
  (0 < top_k m)%nat /\ (top_k m <= memory_size m)%nat.
Proof.
  unfold wf_memory.
  rewrite !andb_true_iff, !Nat.eqb_eq, Nat.ltb_lt, Nat.leb_le. tauto.
Qed.

Lemma wf_query_spec (m : Memory) (x : matrix) (y : list Z) :
  wf_query m x y <->
  is_tensor2 (length y) (key_dim m) x = true /\
  (incorrect_rows x y m <> [] -> (length x <= memory_size m)%nat).
Proof. reflexivity. Qed.

(** A well-shaped batch that is not larger than the memory. *)
Lemma wf_query_small (m : Memory) (x : matrix) (y : list Z) :
  is_tensor2 (length y) (key_dim m) x = true ->
  (length x <=? memory_size m)%nat = true -> wf_query m x y.
Proof.
  intros Hx Hle. split; trivial. intros _. now apply Nat.leb_le.
Qed.

Lemma nonempty_true {A : Type} (l : list A) : nonempty l = true -> l <> [].
Proof. now destruct l. Qed.

Lemma wf_query_predict (m : Memory) (x : matrix) (y : list Z) :
  wf_query m x y -> wf_predict m x /\ length x = length y.
Proof.
  rewrite wf_query_spec. intros [Hx _]. unfold wf_predict.
  pose proof Hx as Hx'. apply is_tensor2_spec in Hx' as (_ & _ & Hlen & _).
  now rewrite Hlen.
Qed.

(** The neighbour search of a well-shaped call: every row gets [top_k]
    distinct slots of the memory, and the similarities found there. *)
Lemma topk_of_spec (m : Memory) (x : matrix) :
  wf_memory m -> wf_predict m x ->
  topk_rows (matmul_t (normalize x) (keys m)) (top_k m) = Ok (topk_of x m) /\
  length (fst (topk_of x m)) = length x /\
  length (snd (topk_of x m)) = length x /\
  forall i q, normalize x !! i = Some q ->
    exists v ix,
      topk (map (dot q) (keys m)) (top_k m) = Ok (v, ix) /\
      fst (topk_of x m) !! i = Some v /\ snd (topk_of x m) !! i = Some ix.
Proof.
  intros Hm Hx. apply wf_memory_spec in Hm as (Hk & _ & _ & Hpos & Hle).
  apply is_tensor2_spec in Hk as (_ & _ & Hklen & _).
  destruct (topk_rows_ok (matmul_t (normalize x) (keys m)) (top_k m))
    as (vs & ixs & Heq & Hlv & Hli & Hrows).
  { eapply List.Forall_impl; [|apply matmul_t_rows]. simpl. intros r ->. lia. }
  unfold topk_of. rewrite Heq. simpl.
  unfold matmul_t in Hlv, Hli. rewrite length_map in Hlv, Hli.
  unfold normalize in Hlv, Hli. rewrite length_map in Hlv, Hli.
  repeat split; trivial.
  intros i q Hq. apply (Hrows i).
  unfold matmul_t. rewrite lookup_map, Hq. reflexivity.
Qed.

Lemma neighbors_ok (m : Memory) (x : matrix) :
  wf_memory m -> wf_predict m x ->
  neighbors x m =
  (Ok (normalize x, fst (topk_of x m), snd (topk_of x m),
       best_slots x m, predicted x m), m).
Proof.
  intros Hm Hx.
  destruct (topk_of_spec m x Hm Hx) as (Htop & Hlv & Hli & Hrows).
  pose proof Hm as Hm'. apply wf_memory_spec in Hm' as (Hk & _ & _ & Hpos & Hle).
  unfold wf_predict in Hx. apply is_tensor2_normalize in Hx.
  unfold neighbors. unfold bind at 1. simpl.
  unfold bind at 1. unfold lift at 1. rewrite (size2_tensor _ _ _ Hx).
  unfold bind at 1. unfold lift at 1.
  rewrite (matmul_tensor _ _ _ _ _ Hx Hk).
  unfold bind at 1. simpl.
  unfold bind at 1. unfold lift at 1. rewrite Htop.
  destruct (topk_of x m) as [sims idxs] eqn:Et. simpl in *.
  unfold bind at 1. unfold lift at 1.
  rewrite column0_ok.
  - unfold bind, gets, ret. simpl. unfold predicted, best_slots.
    rewrite Et. reflexivity.
  - apply List.Forall_forall. intros r Hr.
    apply list_elem_of_In, list_elem_of_lookup in Hr as [i Hi].
    assert (Hq : exists q, normalize x !! i = Some q).
    { apply lookup_lt_is_Some. apply lookup_lt_Some in Hi.
      unfold normalize in *. rewrite length_map in *. lia. }
    destruct Hq as [q Hq]. destruct (Hrows i q Hq) as (v & ix & Ht & _ & Hix).
    assert (r = ix) by congruence. subst r.
    destruct (topk_ok (map (dot q) (keys m)) (top_k m)) as (v' & ix' & Ht' & _ & Hl & _).
    { rewrite length_map.
      apply is_tensor2_spec in Hk as (_ & _ & Hklen & _). lia. }
    assert (ix = ix') by congruence. subst. lia.
Qed.

Lemma lookup_combine {A B : Type} (a : list A) (b : list B) (i : nat) :
  combine a b !! i =
  match a !! i, b !! i with
  | Some u, Some v => Some (u, v)
  | _, _ => None
  end.
Proof.
  revert b i. induction a as [|u a IH]; intros [|v b] [|i]; simpl; trivial.
  now destruct (a !! i).
Qed.

Lemma topk_of_rows (m : Memory) (x : matrix) (i : nat) (v : vec)
    (ix : list nat) :
  wf_memory m -> wf_predict m x ->
  fst (topk_of x m) !! i = Some v -> snd (topk_of x m) !! i = Some ix ->
  exists q,
    normalize x !! i = Some q /\
    topk (map (dot q) (keys m)) (top_k m) = Ok (v, ix) /\
    length v = top_k m /\ length ix = top_k m /\ List.NoDup ix /\
    Forall (fun s => (s < memory_size m)%nat) ix /\
    Forall2 (fun a s => map (dot q) (keys m) !! s = Some a) v ix.
Proof.
  intros Hm Hx Hv Hix.
  destruct (topk_of_spec m x Hm Hx) as (_ & Hlv & _ & Hrows).
  apply wf_memory_spec in Hm as (Hk & _ & _ & Hpos & Hle).
  apply is_tensor2_spec in Hk as (_ & _ & Hklen & _).
  assert (Hq : is_Some (normalize x !! i)).
  { apply lookup_lt_is_Some. apply lookup_lt_Some in Hv.
    unfold normalize. rewrite length_map. lia. }
  destruct Hq as [q Hq]. exists q. split; trivial.
  destruct (Hrows i q Hq) as (v' & ix' & Ht & Hv' & Hix').
  assert (v' = v) by congruence. assert (ix' = ix) by congruence. subst.
  destruct (topk_ok (map (dot q) (keys m)) (top_k m))
    as (v' & ix' & Ht' & H1 & H2 & H3 & H4 & H5).
  { rewrite length_map. lia. }
  rewrite length_map, Hklen in H4.
  assert (v' = v) by congruence. assert (ix' = ix) by congruence. subst.
  tauto.
Qed.

(** [torch.topk(x, 1, dim=1)]: the largest entry of every row. *)
Lemma topk_rows_1 (x : matrix) :
  Forall (fun r => (0 < length r)%nat) x ->
  exists vs ixs,
    topk_rows x 1 = Ok (vs, ixs) /\ length (concat vs) = length x /\
    forall i r, x !! i = Some r -> concat vs !! i = max_list r.
Proof.
  induction x as [|r x IH]; intros Hx; simpl.
  - exists [], []. repeat split; trivial. intros i r H. discriminate.
  - inversion Hx as [|? ? Hr Hx']; subst.
    destruct (IH Hx') as (vs & ixs & -> & Hlen & Hrows).
    destruct (topk_1_max r) as (M & s & -> & HM & _).
    { intros ->. simpl in Hr. lia. }
    exists ([M] :: vs), ([s] :: ixs). simpl. repeat split; [congruence|].
    intros [|i] r' Hr'; simpl in *.
    + injection Hr' as <-. now rewrite HM.
    + now apply Hrows.
Qed.

Lemma length_mul_row (u v : vec) :
  length (mul_row u v) = Nat.min (length u) (length v).
Proof. unfold mul_row. now rewrite length_map, length_combine. Qed.

Lemma length_add_row (u v : vec) :
  length (add_row u v) = Nat.min (length u) (length v).
Proof. unfold add_row. now rewrite length_map, length_combine. Qed.

(** The scores of the loss, row by row: the largest product of a similarity
    with the mask, and with the complement of the mask. *)
Lemma pos_neg_scores_ok (m : Memory) (sims : matrix) (idxs : list (list nat))
    (y : list Z) :
  length sims = length y -> length idxs = length y ->
  (forall i v ix, sims !! i = Some v -> idxs !! i = Some ix ->
                  (0 < length v)%nat /\ length v = length ix) ->
  exists pos neg,
    pos_neg_scores sims idxs y m = (Ok (pos, neg), m) /\
    length pos = length y /\ length neg = length y /\
    forall i v ix yi,
      sims !! i = Some v -> idxs !! i = Some ix -> y !! i = Some yi ->
      pos !! i = max_list (mul_row v (map float (match_mask m ix yi))) /\
      neg !! i =
        max_list (mul_row v (map float (map negb (match_mask m ix yi)))).
Proof.
  intros Hls Hli Hrows. unfold pos_neg_scores.
  unfold bind at 1. simpl.
  unfold bind at 1. unfold lift at 1.
  rewrite eq_labels_same by (rewrite length_map; exact Hli).
  set (mask := map (map float) _).
  assert (Hmask : forall i v ix yi,
             sims !! i = Some v -> idxs !! i = Some ix -> y !! i = Some yi ->
             mask !! i = Some (map float (match_mask m ix yi))).
  { intros i v ix yi Hv Hix Hyi. unfold mask.
    rewrite !lookup_map, lookup_combine, lookup_map, Hix, Hyi. simpl.
    unfold match_mask, index_select. do 2 f_equal. apply map_map. }
  assert (Hlm : length mask = length y).
  { unfold mask. rewrite !length_map, length_combine, length_map. lia. }
  set (prod := fun t : list (list R) =>
                 map (fun sm : list R * list R => mul_row (fst sm) (snd sm))
                     (combine sims t)).
  assert (Hprod : forall t, length t = length y ->
             (forall i v ix yi, sims !! i = Some v -> idxs !! i = Some ix ->
                y !! i = Some yi -> exists r, t !! i = Some r /\
                                             length r = length ix) ->
             exists vs ixs, topk_rows (prod t) 1 = Ok (vs, ixs) /\
               length (concat vs) = length y /\
               forall i v r, sims !! i = Some v -> t !! i = Some r ->
                             concat vs !! i = max_list (mul_row v r)).
  { intros t Hlt Ht.
    destruct (topk_rows_1 (prod t)) as (vs & ixs & Heq & Hlen & Hmax).
    - apply List.Forall_forall. intros r Hr.
      apply list_elem_of_In, list_elem_of_lookup in Hr as [i Hi].
      unfold prod in Hi. rewrite lookup_map, lookup_combine in Hi.
      destruct (sims !! i) as [v|] eqn:Hv; [|discriminate].
      destruct (t !! i) as [r'|] eqn:Hr'; [|discriminate].
      simpl in Hi. injection Hi as <-.
      assert (His : is_Some (idxs !! i)).
      { apply lookup_lt_is_Some. apply lookup_lt_Some in Hv. lia. }
      assert (Hys : is_Some (y !! i)).
      { apply lookup_lt_is_Some. apply lookup_lt_Some in Hv. lia. }
      destruct His as [ix Hix], Hys as [yi Hyi].
      destruct (Hrows i v ix Hv Hix) as [Hpos Hvl].
      destruct (Ht i v ix yi Hv Hix Hyi) as (r'' & Hr'' & Hl).
      assert (r'' = r') by congruence. subst.
      rewrite length_mul_row. lia.
    - exists vs, ixs. split; trivial. split.
      + rewrite Hlen. unfold prod. rewrite length_map, length_combine. lia.
      + intros i v r Hv Hr. rewrite (Hmax i (mul_row v r)); trivial.
        unfold prod. now rewrite lookup_map, lookup_combine, Hv, Hr. }
  destruct (Hprod mask Hlm) as (pv & pi & Hp & Hpl & Hpm).
  { intros i v ix yi Hv Hix Hyi. eexists. split; [eapply Hmask; eassumption|].
    unfold match_mask. now rewrite !length_map. }
  set (unmask := map (map (fun c => 1 - c)) mask).
  assert (Hunmask : forall i v ix yi,
             sims !! i = Some v -> idxs !! i = Some ix -> y !! i = Some yi ->
             unmask !! i = Some (map float (map negb (match_mask m ix yi)))).
  { intros i v ix yi Hv Hix Hyi. unfold unmask.
    rewrite lookup_map, (Hmask i v ix yi Hv Hix Hyi). simpl. f_equal.
    unfold match_mask. rewrite !map_map. apply map_ext. intros s.
    destruct (nth s (values m) 0 =? yi)%Z; simpl; lra. }
  destruct (Hprod unmask) as (nv & ni & Hn & Hnl & Hnm).
  { unfold unmask. now rewrite length_map. }
  { intros i v ix yi Hv Hix Hyi. eexists. split; [eapply Hunmask; eassumption|].
    unfold match_mask. now rewrite !length_map. }
  unfold bind at 1. unfold lift at 1.
  rewrite (mul_rows_same sims mask) by congruence.
  fold (prod mask). unfold bind at 1. unfold lift at 1. rewrite Hp.
  fold unmask. unfold bind at 1. unfold lift at 1.
  rewrite (mul_rows_same sims unmask)
    by (unfold unmask; rewrite length_map; congruence).
  fold (prod unmask). unfold bind at 1. unfold lift at 1.
  rewrite Hn. unfold ret.
  exists (concat pv), (concat nv). repeat split; trivial.
  - apply (Hpm i v); trivial. now apply (Hmask i v).
  - apply (Hnm i v); trivial. now apply (Hunmask i v).
Qed.

Lemma length_best_slots (m : Memory) (x : matrix) :
  wf_memory m -> wf_predict m x -> length (best_slots x m) = length x.
Proof.
  intros Hm Hx. destruct (topk_of_spec m x Hm Hx) as (_ & _ & Hli & _).
  unfold best_slots. now rewrite length_map.
Qed.

Lemma length_predicted (m : Memory) (x : matrix) :
  wf_memory m -> wf_predict m x -> length (predicted x m) = length x.
Proof.
  intros Hm Hx. unfold predicted, index_select.
  rewrite length_map. now apply length_best_slots.
Qed.

Lemma index_copy_nil {A : Type} (t src : list A) : index_copy t [] src = t.
Proof. reflexivity. Qed.

Lemma length_noisy_ages (m : Memory) (x : matrix) (y : list Z)
    (rand : nat -> R) :
  wf_memory m -> length (noisy_ages x y rand m) = memory_size m.
Proof.
  intros Hm. apply wf_memory_spec in Hm as (_ & _ & Ha & _).
  unfold noisy_ages, ages_before_replacement, random_uniform, tabulate.
  rewrite length_add_row, length_index_fill, !length_map, length_seq. lia.
Qed.

(** ** The slots a call touches *)

Lemma best_slots_lt (m : Memory) (x : matrix) (r s : nat) :
  wf_memory m -> wf_predict m x ->
  best_slots x m !! r = Some s -> (s < memory_size m)%nat.
Proof.
  intros Hm Hx Hs. unfold best_slots in Hs. rewrite lookup_map in Hs.
  destruct (snd (topk_of x m) !! r) as [ix|] eqn:Hix; [|discriminate].
  injection Hs as <-.
  assert (Hv : is_Some (fst (topk_of x m) !! r)).
  { destruct (topk_of_spec m x Hm Hx) as (_ & Hlv & Hli & _).
    apply lookup_lt_is_Some. apply lookup_lt_Some in Hix. lia. }
  destruct Hv as [v Hv].
  destruct (topk_of_rows m x r v ix Hm Hx Hv Hix)
    as (q & _ & _ & _ & Hl & _ & Hlt & _).
  apply wf_memory_spec in Hm as (_ & _ & _ & Hpos & _).
  destruct ix as [|s ix]; simpl in *; [lia|]. now inversion Hlt.
Qed.

(** The best slot of a row is a nearest one: no slot has a larger
    similarity with the normalized query. *)
Lemma best_slot_nearest (m : Memory) (x : matrix) (i s : nat) (q : vec) :
  wf_memory m -> wf_predict m x ->
  best_slots x m !! i = Some s -> normalize x !! i = Some q ->
  exists k, keys m !! s = Some k /\
            forall s' k', keys m !! s' = Some k' -> dot q k' <= dot q k.
Proof.
  intros Hm Hx Hs Hq. unfold best_slots in Hs. rewrite lookup_map in Hs.
  destruct (snd (topk_of x m) !! i) as [ix|] eqn:Hix; [|discriminate].
  injection Hs as <-.
  assert (Hv : is_Some (fst (topk_of x m) !! i)).
  { destruct (topk_of_spec m x Hm Hx) as (_ & Hlv & Hli & _).
    apply lookup_lt_is_Some. apply lookup_lt_Some in Hix. lia. }
  destruct Hv as [v Hv].
  destruct (topk_of_rows m x i v ix Hm Hx Hv Hix)
    as (q' & Hq' & Ht & Hlv & Hli & _ & _ & Hval).
  rewrite Hq in Hq'. injection Hq' as <-.
  apply wf_memory_spec in Hm as (_ & _ & _ & Hpos & _).
  destruct v as [|a v]; [simpl in Hlv; lia|].
  destruct ix as [|s ix]; [simpl in Hli; lia|].
  inversion Hval as [|? ? ? ? Ha _]; subst. simpl.
  rewrite lookup_map in Ha.
  destruct (keys m !! s) as [k|] eqn:Hk; [|discriminate].
  injection Ha as <-. exists k. split; trivial.
  intros s' k' Hk'.
  destruct (in_dec Nat.eq_dec s' (s :: ix)) as [Hin|Hout].
  - pose proof (topk_sorted _ _ _ _ Ht) as Hsorted.
    inversion Hsorted as [|? ? _ Hall]; subst.
    destruct Hin as [<-|Hin].
    + rewrite Hk in Hk'. injection Hk' as <-. lra.
    + apply list_elem_of_In, list_elem_of_lookup in Hin as [j Hj].
      inversion Hval as [|? ? ? ? _ Htail]; subst.
      destruct (Forall2_lookup_r _ _ _ _ _ Htail Hj) as (b & Hb & Hbs).
      rewrite lookup_map, Hk' in Hbs. injection Hbs as <-.
      rewrite List.Forall_forall in Hall. apply Hall.
      apply list_elem_of_In. now apply list_elem_of_lookup_2 with j.
  - apply (topk_largest _ _ _ _ Ht s' (dot q k')); trivial.
    + now rewrite lookup_map, Hk'.
    + now left.
Qed.

Lemma In_index_select {A : Type} (d : A) (t : list A) (idx : list nat)
    (a : A) :
  In a (index_select d t idx) <-> exists i, In i idx /\ a = nth i t d.
Proof.
  unfold index_select. rewrite in_map_iff.
  split; intros (i & H1 & H2); exists i; auto.
Qed.

Lemma correct_rows_spec (m : Memory) (x : matrix) (y : list Z) (r : nat) :
  In r (correct_rows x y m) <->
  exists v, predicted x m !! r = Some v /\ y !! r = Some v.
Proof.
  unfold correct_rows, correct_mask_of.
  rewrite nonzero_spec, lookup_map, lookup_combine.
  destruct (predicted x m !! r) as [a|], (y !! r) as [b|]; simpl;
    try (split; [discriminate|intros (v & H1 & H2); discriminate]).
  split.
  - intros H. injection H as H. apply Z.eqb_eq in H. subst. now exists b.
  - intros (v & H1 & H2). injection H1 as ->. injection H2 as ->.
    now rewrite Z.eqb_refl.
Qed.

Lemma incorrect_rows_spec (m : Memory) (x : matrix) (y : list Z) (r : nat) :
  In r (incorrect_rows x y m) <->
  exists a b, predicted x m !! r = Some a /\ y !! r = Some b /\ a <> b.
Proof.
  unfold incorrect_rows, correct_mask_of.
  rewrite nonzero_spec, !lookup_map, lookup_combine.
  destruct (predicted x m !! r) as [a|], (y !! r) as [b|]; simpl;
    try (split; [discriminate|intros (? & ? & H1 & H2 & _); discriminate]).
  split.
  - intros H. injection H as H. apply negb_true_iff, Z.eqb_neq in H.
    now exists a, b.
  - intros (a' & b' & H1 & H2 & Hne). injection H1 as ->. injection H2 as ->.
    f_equal. now apply negb_true_iff, Z.eqb_neq.
Qed.

Lemma reinforced_slots_lt (m : Memory) (x : matrix) (y : list Z) (s : nat) :
  wf_memory m -> wf_query m x y ->
  In s (reinforced_slots x y m) -> (s < memory_size m)%nat.
Proof.
  intros Hm Hq Hs. destruct (wf_query_predict m x y Hq) as [Hx Hxy].
  apply In_index_select in Hs as (r & Hr & ->).
  apply correct_rows_spec in Hr as (v & Hv & _).
  apply lookup_lt_Some in Hv.
  rewrite (length_predicted m x Hm Hx) in Hv.
  rewrite <- (length_best_slots m x Hm Hx) in Hv.
  apply lookup_lt_is_Some in Hv as [s Hs].
  rewrite (nth_lookup_Some _ _ _ _ Hs). now apply (best_slots_lt m x r).
Qed.

(** The reinforcement step when its positions are rows of the tensors it
    indexes. *)
Lemma reinforce_ok (q : matrix) (yhi rows : list nat) (m : Memory) :
  Forall (fun r => (r < length yhi)%nat) rows ->
  Forall (fun r => (r < length q)%nat) rows ->
  Forall (fun s => (s < length (keys m))%nat) (index_select 0%nat yhi rows) ->
  reinforce q yhi rows m =
  (Ok tt,
   set_age
     (set_keys m
        (index_copy (keys m) (index_select 0%nat yhi rows)
           (normalize
              (add_rows (index_select [] (keys m) (index_select 0%nat yhi rows))
                        (index_select [] q rows)))))
     (index_fill (age m) (index_select 0%nat yhi rows) 0)).
Proof.
  intros H1 H2 H3. unfold reinforce.
  unfold bind at 1. unfold lift at 1. rewrite (getitem_ok _ _ _ H1).
  unfold bind at 1. unfold gets at 1.
  unfold bind at 1. unfold lift at 1. rewrite (getitem_ok _ _ _ H3).
  unfold bind at 1. unfold lift at 1. rewrite (getitem_ok _ _ _ H2).
  reflexivity.
Qed.

(** The reinforcement step on any input: it does its two writes, or it
    raises in the indexing of line 147 to 149, before any write. *)
Lemma reinforce_cases (q : matrix) (yhi rows : list nat) (m : Memory) :
  reinforce q yhi rows m =
  (Ok tt,
   set_age
     (set_keys m
        (index_copy (keys m) (index_select 0%nat yhi rows)
           (normalize
              (add_rows (index_select [] (keys m) (index_select 0%nat yhi rows))
                        (index_select [] q rows)))))
     (index_fill (age m) (index_select 0%nat yhi rows) 0)) \/
  reinforce q yhi rows m = (Raise IndexError, m).
Proof.
  unfold reinforce, bind, lift, gets, modify, getitem.
  destruct (forallb _ rows); [|now right].
  destruct (forallb _ (index_select 0%nat yhi rows)); [|now right].
  destruct (forallb _ rows); [|now right].
  now left.
Qed.

(** The replacement step on any input: [torch.topk] raises before any
    write, or the assignment of the labels raises after the keys are
    written, or the three writes are done. *)
Lemma replace_oldest_cases (q : matrix) (y : list Z) (rand : nat -> R)
    (m : Memory) :
  (exists e, replace_oldest q y rand m = (Raise e, m)) \/
  (exists ix e,
     replace_oldest q y rand m =
     (Raise e, set_keys m (index_copy (keys m) ix q))) \/
  (exists ix,
     length (expand (length ix) y) = length ix /\
     replace_oldest q y rand m =
     (Ok tt,
      set_age
        (set_values (set_keys m (index_copy (keys m) ix q))
           (index_copy (values m) ix (expand (length ix) y)))
        (index_fill (age m) ix 0))).
Proof.
  unfold replace_oldest, oldest, bind, gets, lift, modify, ret. simpl.
  destruct (topk _ _) as [[v ix]|e]; [|left; now exists e].
  right. unfold assigned.
  destruct (length (expand (length ix) y) =? length ix)%nat eqn:E.
  - right. exists ix. apply Nat.eqb_eq in E. split; [exact E|reflexivity].
  - left. now exists ix, RuntimeError.
Qed.

(** The rows that are compared are rows of the batch. *)
Lemma correct_rows_lt (m : Memory) (x : matrix) (y : list Z) :
  wf_memory m -> wf_predict m x ->
  Forall (fun r => (r < length x)%nat) (correct_rows x y m).
Proof.
  intros Hm Hx. apply List.Forall_forall. intros r Hr.
  apply correct_rows_spec in Hr as (v & Hv & _).
  apply lookup_lt_Some in Hv. now rewrite (length_predicted m x Hm Hx) in Hv.
Qed.

Lemma reinforced_slots_range (m : Memory) (x : matrix) (y : list Z) :
  wf_memory m -> wf_predict m x ->
  Forall (fun s => (s < length (keys m))%nat) (reinforced_slots x y m).
Proof.
  intros Hm Hx. apply List.Forall_forall. intros s Hs.
  apply In_index_select in Hs as (r & Hr & ->).
  apply correct_rows_spec in Hr as (v & Hv & _).
  apply lookup_lt_Some in Hv.
  rewrite (length_predicted m x Hm Hx) in Hv.
  rewrite <- (length_best_slots m x Hm Hx) in Hv.
  apply lookup_lt_is_Some in Hv as [s Hs].
  rewrite (nth_lookup_Some _ _ _ _ Hs).
  pose proof (best_slots_lt m x r s Hm Hx Hs) as Hlt.
  apply wf_memory_spec in Hm as (Hkeys & _).
  apply is_tensor2_spec in Hkeys as (_ & _ & Hkl & _). lia.
Qed.

(** Step 2 of [update] on the outcome of the neighbour search. *)
Lemma update_step2 (m : Memory) (x : matrix) (y : list Z) :
  wf_memory m -> wf_predict m x ->
  (if nonempty (correct_rows x y m)
   then reinforce (normalize x) (best_slots x m) (correct_rows x y m)
   else ret tt) (set_age m (map (fun a => a + 1) (age m))) =
  (Ok tt,
   set_age (set_keys m (keys_after_reinforce x y m))
           (ages_before_replacement x y m)).
Proof.
  intros Hm Hx. unfold keys_after_reinforce.
  destruct (nonempty (correct_rows x y m)) eqn:E.
  - rewrite reinforce_ok; [reflexivity| | |].
    + rewrite (length_best_slots m x Hm Hx). now apply correct_rows_lt.
    + unfold normalize. rewrite length_map. now apply correct_rows_lt.
    + exact (reinforced_slots_range m x y Hm Hx).
  - apply nonempty_false in E.
    unfold ages_before_replacement, blended_keys, reinforced_slots.
    rewrite E. destruct m; reflexivity.
Qed.

(** [update] on the outcome of the neighbour search. *)
Lemma update_ok (m : Memory) (x : matrix) (y : list Z) (rand : nat -> R) :
  wf_memory m -> wf_query m x y ->
  update (normalize x) y (predicted x m) (best_slots x m) rand m =
  (Ok tt, after_query x y rand m).
Proof.
  intros Hm Hq. destruct (wf_query_predict m x y Hq) as [Hx Hxy].
  apply wf_query_spec in Hq as [_ Hbatch].
  unfold update. unfold bind at 1. unfold modify at 1.
  unfold bind at 1. unfold lift at 1.
  rewrite eq_long_same by (rewrite (length_predicted m x Hm Hx); exact Hxy).
  fold (correct_mask_of x y m). fold (correct_rows x y m).
  fold (incorrect_rows x y m).
  unfold bind at 1. rewrite (update_step2 m x y Hm Hx).
  destruct (nonempty (incorrect_rows x y m)) eqn:E.
  - unfold replace_oldest. unfold bind at 1. unfold oldest.
    unfold bind at 1. simpl. unfold bind at 1. simpl.
    unfold bind at 1. simpl. unfold bind at 1. unfold lift at 1.
    fold (ages_before_replacement x y m).
    change (add_row _ _) with (noisy_ages x y rand m).
    destruct (topk_ok (noisy_ages x y rand m) (length (normalize x)))
      as (v & ix & Ht & _ & Hlix & _).
    { rewrite length_noisy_ages by trivial.
      unfold normalize. rewrite length_map.
      now apply Hbatch, nonempty_true. }
    rewrite Ht. unfold after_query, replaced_slots. rewrite E.
    unfold normalize in Ht, Hlix. rewrite length_map in Ht, Hlix. rewrite Ht.
    cbn [ret]. unfold bind at 1. unfold modify at 1.
    unfold bind at 1. unfold lift at 1.
    rewrite assigned_same by congruence.
    reflexivity.
  - unfold ret, after_query, replaced_slots. rewrite E.
    unfold index_fill. simpl. reflexivity.
Qed.

(** The scores of the loss of a well-shaped call. *)
Lemma scores_of_spec (m : Memory) (x : matrix) (y : list Z) :
  wf_memory m -> wf_query m x y ->
  pos_neg_scores (fst (topk_of x m)) (snd (topk_of x m)) y m =
    (Ok (scores_of x y m), m) /\
  length (fst (scores_of x y m)) = length y /\
  length (snd (scores_of x y m)) = length y /\
  forall i v ix yi,
    fst (topk_of x m) !! i = Some v -> snd (topk_of x m) !! i = Some ix ->
    y !! i = Some yi ->
    fst (scores_of x y m) !! i =
      max_list (mul_row v (map float (match_mask m ix yi))) /\
    snd (scores_of x y m) !! i =
      max_list (mul_row v (map float (map negb (match_mask m ix yi)))).
Proof.
  intros Hm Hq. destruct (wf_query_predict m x y Hq) as [Hx Hxy].
  destruct (topk_of_spec m x Hm Hx) as (_ & Hlv & Hli & _).
  destruct (pos_neg_scores_ok m (fst (topk_of x m)) (snd (topk_of x m)) y)
    as (pos & neg & Heq & Hlp & Hln & Hrows); try congruence.
  { intros i v ix Hv Hix.
    destruct (topk_of_rows m x i v ix Hm Hx Hv Hix)
      as (q & _ & _ & H1 & H2 & _).
    apply wf_memory_spec in Hm. lia. }
  unfold scores_of, eval. rewrite Heq. simpl. auto.
Qed.

(** A well-shaped call of [query] returns, and this is what it returns and
    the memory it leaves. *)
Lemma query_unfold (m : Memory) (x : matrix) (y : list Z) (p : bool)
    (rand : nat -> R) :
  wf_memory m -> wf_query m x y ->
  query x y p rand m =
  (Ok (predicted x m,
       softmax (map (map (Rmult (softmax_temperature m))) (fst (topk_of x m))),
       if p then None else Some (loss_of x y m)),
   after_query x y rand m).
Proof.
  intros Hm Hq. destruct (wf_query_predict m x y Hq) as [Hx Hxy].
  unfold query. rewrite (bind_ok _ _ _ _ _ (neighbors_ok m x Hm Hx)).
  unfold bind at 1. unfold confidence at 1. unfold bind at 1. simpl.
  destruct (scores_of_spec m x y Hm Hq) as (Heq & Hlp & Hln & _).
  destruct p.
  - unfold bind at 1. unfold ret at 1.
    rewrite (bind_ok _ _ _ _ _ (update_ok m x y rand Hm Hq)). reflexivity.
  - unfold bind at 1. unfold bind at 1. rewrite Heq.
    destruct (scores_of x y m) as [pos neg] eqn:Es. simpl in Hlp, Hln.
    unfold bind at 1. simpl. unfold bind at 1. unfold lift at 1.
    unfold MemoryLoss. rewrite Hlp, Hln, Nat.eqb_refl. unfold ret at 1.
    rewrite (bind_ok _ _ _ _ _ (update_ok m x y rand Hm Hq)).
    unfold ret, loss_of, mean. rewrite Es. reflexivity.
Qed.

(** A well-shaped call of [predict] returns, and leaves the memory as it
    was. *)
Lemma predict_unfold (m : Memory) (x : matrix) :
  wf_memory m -> wf_predict m x ->
  predict x m =
  (Ok (predicted x m,
       softmax (map (map (Rmult (softmax_temperature m))) (fst (topk_of x m)))),
   m).
Proof.
  intros Hm Hx. unfold predict.
  rewrite (bind_ok _ _ _ _ _ (neighbors_ok m x Hm Hx)). reflexivity.
Qed.

(** [predict] never writes, whatever the input and also when it raises. *)
Lemma neighbors_frame (x : matrix) (m : Memory) : exec (neighbors x) m = m.
Proof.
  unfold exec, neighbors, bind, gets, lift, ret. simpl.
  destruct (size2 (normalize x)); trivial.
  destruct (matmul (normalize x) (keys m)); trivial.
  destruct (topk_rows _ _) as [[v i]|]; trivial.
  destruct (column0 i); trivial.
Qed.

Lemma predict_frame (x : matrix) (m : Memory) : exec (predict x) m = m.
Proof.
  unfold exec, predict, bind.
  pose proof (neighbors_frame x m) as H. unfold exec in H.
  destruct (neighbors x m) as [[[[[[q s] t] b] yh]|e] m']; simpl in *;
    now subst.
Qed.

(** The replacement step takes as many slots as the batch has rows, all
    different, as soon as one row is incorrect. *)
Lemma replaced_slots_spec (m : Memory) (x : matrix) (y : list Z)
    (rand : nat -> R) :
  wf_memory m -> wf_query m x y ->
  List.NoDup (replaced_slots x y rand m) /\
  Forall (fun s => (s < memory_size m)%nat) (replaced_slots x y rand m) /\
  length (replaced_slots x y rand m) =
    if nonempty (incorrect_rows x y m) then length x else 0%nat.
Proof.
  intros Hm Hq. apply wf_query_spec in Hq as [_ Hbatch].
  unfold replaced_slots. destruct (nonempty (incorrect_rows x y m)) eqn:E.
  - destruct (topk_ok (noisy_ages x y rand m) (length x))
      as (v & ix & -> & _ & Hl & Hnd & Hlt & _).
    { rewrite length_noisy_ages by trivial.
      now apply Hbatch, nonempty_true. }
    rewrite length_noisy_ages in Hlt by trivial. auto.
  - repeat split; constructor.
Qed.

Lemma length_after_query (m : Memory) (x : matrix) (y : list Z)
    (rand : nat -> R) :
  length (keys (after_query x y rand m)) = length (keys m) /\
  length (values (after_query x y rand m)) = length (values m) /\
  length (age (after_query x y rand m)) = length (age m).
Proof.
  unfold after_query, keys_after_reinforce, ages_before_replacement. simpl.
  now rewrite !length_index_copy, !length_index_fill, length_map.
Qed.

(** The ages after a call. *)
Lemma age_after_query (m : Memory) (x : matrix) (y : list Z)
    (rand : nat -> R) (s : nat) (a : R) :
  age m !! s = Some a ->
  (In s (written_slots x y rand m) ->
   age (after_query x y rand m) !! s = Some 0) /\
  (~ In s (written_slots x y rand m) ->
   age (after_query x y rand m) !! s = Some (a + 1)).
Proof.
  intros Ha. unfold written_slots, after_query, ages_before_replacement.
  simpl. pose proof (lookup_lt_Some _ _ _ Ha) as Hlt. split.
  - intros Hw.
    destruct (in_dec Nat.eq_dec s (replaced_slots x y rand m)) as [Hr|Hr].
    + apply index_fill_written; trivial.
      now rewrite length_index_fill, length_map.
    + rewrite index_fill_other by trivial.
      apply in_app_or in Hw as [Hw|Hw]; [|easy].
      apply index_fill_written; trivial. now rewrite length_map.
  - intros Hw. rewrite !index_fill_other.
    + now rewrite lookup_map, Ha.
    + intros H. apply Hw, in_or_app. now left.
    + intros H. apply Hw, in_or_app. now right.
Qed.

(** A slot that is not written keeps its key and its value. *)
Lemma frame_after_query (m : Memory) (x : matrix) (y : list Z)
    (rand : nat -> R) (s : nat) :
  ~ In s (written_slots x y rand m) ->
  keys (after_query x y rand m) !! s = keys m !! s /\
  values (after_query x y rand m) !! s = values m !! s.
Proof.
  intros Hw. unfold written_slots in Hw.
  unfold after_query, keys_after_reinforce. simpl.
  rewrite !index_copy_other; auto; intros H; apply Hw, in_or_app; auto.
Qed.

(** ** The loss is not negative *)

Lemma Rsum_nonneg (l : list R) : Forall (fun a => 0 <= a) l -> 0 <= Rsum l.
Proof.
  induction 1 as [|a l Ha _ IH]; simpl; lra.
Qed.

Lemma mean_hinge_nonneg (mg : R) (l : list (R * R)) :
  0 <= mean (map (hinge mg) l).
Proof.
  unfold mean. rewrite length_map.
  assert (Hs : 0 <= Rsum (map (hinge mg) l)).
  { apply Rsum_nonneg, List.Forall_forall. intros a Ha.
    apply in_map_iff in Ha as (pn & <- & _). apply Rmax_r. }
  destruct l as [|pn l].
  - simpl. unfold Rdiv. rewrite Rmult_0_l. lra.
  - apply Rmult_le_pos; trivial.
    apply Rlt_le, Rinv_0_lt_compat, lt_0_INR. simpl. lia.
Qed.

(** ** Reinforcement: which blend a slot keeps *)

Lemma nonzero_from_increasing (i : nat) (mask : list bool) :
  StronglySorted lt (nonzero_from i mask).
Proof.
  revert i. induction mask as [|b mask IH]; intros i; simpl; [constructor|].
  destruct b; [|apply IH]. constructor; [apply IH|].
  apply List.Forall_forall. intros s Hs.
  apply nonzero_from_spec in Hs as [Hs _]. lia.
Qed.

Lemma increasing_split (l1 l2 : list nat) (r : nat) :
  StronglySorted lt (l1 ++ r :: l2) -> Forall (lt r) l2.
Proof.
  induction l1 as [|a l1 IH]; simpl; intros H; inversion H; subst; auto.
Qed.

(** The last row of a list that is sent to [s] by [f]. *)
Lemma last_occurrence (f : nat -> nat) (s : nat) (rows : list nat) :
  (exists r, In r rows /\ f r = s) ->
  exists l1 r l2, rows = l1 ++ r :: l2 /\ f r = s /\
                  forall r', In r' l2 -> f r' <> s.
Proof.
  induction rows as [|a rows IH]; intros (r & Hr & Hf); [easy|].
  destruct (in_dec Nat.eq_dec s (map f rows)) as [Hin|Hout].
  - apply in_map_iff in Hin as (r' & Hf' & Hr').
    destruct IH as (l1 & r0 & l2 & -> & H0 & Hl2); [now exists r'|].
    now exists (a :: l1), r0, l2.
  - destruct Hr as [->|Hr].
    + exists [], r, rows. repeat split; trivial.
      intros r' Hr' Heq. apply Hout. apply in_map_iff. now exists r'.
    + exfalso. apply Hout. apply in_map_iff. now exists r.
Qed.

Lemma add_rows_map {A : Type} (a b : A -> list R) (rows : list A) :
  add_rows (map a rows) (map b rows) =
  map (fun r => add_row (a r) (b r)) rows.
Proof.
  unfold add_rows. induction rows as [|r rows IH]; simpl; trivial.
  now rewrite IH.
Qed.

Lemma reinforced_slots_map (x : matrix) (y : list Z) (m : Memory) :
  reinforced_slots x y m =
  map (fun r => nth r (best_slots x m) 0%nat) (correct_rows x y m).
Proof. reflexivity. Qed.

Lemma blended_keys_map (x : matrix) (y : list Z) (m : Memory) :
  blended_keys x y m = map (blend_of x m) (correct_rows x y m).
Proof.
  unfold blended_keys, blend_sums, reinforced_slots, index_select, normalize.
  rewrite map_map. rewrite add_rows_map. now rewrite map_map.
Qed.

(** After the reinforcement a slot holds the blend of the last correct row
    that has it as best slot; the blend is made from the key the slot had
    when the call started. *)
Lemma reinforce_last_wins (m : Memory) (x : matrix) (y : list Z)
    (r s : nat) :
  wf_memory m -> wf_query m x y ->
  In r (correct_rows x y m) -> best_slots x m !! r = Some s ->
  (forall r', In r' (correct_rows x y m) ->
              best_slots x m !! r' = Some s -> (r' <= r)%nat) ->
  exists k q,
    keys m !! s = Some k /\ normalize x !! r = Some q /\
    keys_after_reinforce x y m !! s = Some (normalize_row (add_row k q)).
Proof.
  intros Hm Hq Hr Hs Hlast. destruct (wf_query_predict m x y Hq) as [Hx Hxy].
  pose proof (best_slots_lt m x r s Hm Hx Hs) as Hlt.
  pose proof Hm as Hm'. apply wf_memory_spec in Hm' as (Hk & _).
  apply is_tensor2_spec in Hk as (_ & _ & Hklen & _).
  assert (Hks : is_Some (keys m !! s)) by (apply lookup_lt_is_Some; lia).
  assert (Hqs : is_Some (normalize x !! r)).
  { apply lookup_lt_is_Some. apply lookup_lt_Some in Hs.
    rewrite (length_best_slots m x Hm Hx) in Hs.
    unfold normalize. now rewrite length_map. }
  destruct Hks as [k Hk], Hqs as [q Hqr]. exists k, q.
  repeat split; trivial.
  apply in_split in Hr as (l1 & l2 & Hrows).
  pose proof (nonzero_from_increasing 0 (correct_mask_of x y m)) as Hinc.
  fold (nonzero (correct_mask_of x y m)) in Hinc.
  fold (correct_rows x y m) in Hinc. rewrite Hrows in Hinc.
  apply increasing_split in Hinc. rewrite List.Forall_forall in Hinc.
  unfold keys_after_reinforce.
  rewrite reinforced_slots_map, blended_keys_map, Hrows, !map_app. simpl.
  rewrite (nth_lookup_Some _ _ _ _ Hs).
  replace (blend_of x m r) with (normalize_row (add_row k q)).
  - apply index_copy_last; [now rewrite !length_map| |lia].
    intros Hin. apply in_map_iff in Hin as (r' & Hr' & Hin).
    assert (Hb : best_slots x m !! r' = Some s).
    { assert (His : is_Some (best_slots x m !! r')).
      { apply lookup_lt_is_Some. rewrite (length_best_slots m x Hm Hx).
        assert (Hc : In r' (correct_rows x y m)).
        { rewrite Hrows. apply in_or_app. right. now right. }
        apply correct_rows_spec in Hc as (v & Hv & _).
        apply lookup_lt_Some in Hv.
        now rewrite (length_predicted m x Hm Hx) in Hv. }
      destruct His as [s' Hs']. rewrite (nth_lookup_Some _ _ _ _ Hs') in Hr'.
      congruence. }
    assert (Hle : (r' <= r)%nat).
    { apply Hlast; trivial. rewrite Hrows. apply in_or_app. right. now right. }
    specialize (Hinc r' Hin). lia.
  - unfold blend_of. rewrite (nth_lookup_Some _ _ _ _ Hs).
    now rewrite (nth_lookup_Some _ _ _ _ Hk), (nth_lookup_Some _ _ _ _ Hqr).
Qed.

(** Every correct row has its slot and its blend in the assignment
    [self.keys[correct_indices] = new_correct_keys]. *)
Lemma reinforce_writes (m : Memory) (x : matrix) (y : list Z) (r : nat) :
  In r (correct_rows x y m) ->
  exists j, reinforced_slots x y m !! j = Some (nth r (best_slots x m) 0%nat)
            /\ blended_keys x y m !! j = Some (blend_of x m r).
Proof.
  intros Hr. apply list_elem_of_In, list_elem_of_lookup in Hr as [j Hj].
  exists j. rewrite reinforced_slots_map, blended_keys_map, !lookup_map, Hj.
  split; reflexivity.
Qed.

(** ** Norms *)

Lemma eps_pos : 0 < eps.
Proof. unfold eps. lra. Qed.

Lemma eps_le_1 : eps <= 1.
Proof. unfold eps. lra. Qed.

Lemma dot_self_nonneg (v : vec) : 0 <= dot v v.
Proof.
  induction v as [|a v IH]; simpl; [lra|]. pose proof (Rle_0_sqr a) as H.
  unfold Rsqr in H. lra.
Qed.

Lemma dot_scaled (c : R) (u v : vec) :
  c <> 0 ->
  dot (map (fun a => a / c) u) (map (fun a => a / c) v) = dot u v / (c * c).
Proof.
  intros Hc. revert v. induction u as [|a u IH]; intros [|b v]; simpl;
    try (field; trivial).
  rewrite IH. field. trivial.
Qed.

Lemma l2norm_of_square (v : vec) (n : R) :
  0 <= n -> dot v v = n * n -> l2norm v = n.
Proof. intros Hn H. unfold l2norm. rewrite H. now apply sqrt_square. Qed.

(** [F.normalize] gives a unit vector unless the norm is below [eps]. *)
Lemma normalize_row_norm (v : vec) :
  eps <= l2norm v -> l2norm (normalize_row v) = 1.
Proof.
  intros Hv. pose proof eps_pos as He. unfold normalize_row.
  rewrite Rmax_left by trivial.
  apply l2norm_of_square; [lra|]. rewrite dot_scaled by lra.
  unfold l2norm. rewrite sqrt_sqrt by apply dot_self_nonneg.
  field. intros H0. unfold l2norm in Hv. rewrite H0, sqrt_0 in Hv. lra.
Qed.

(** [F.normalize] leaves a unit vector as it is. *)
Lemma normalize_row_unit (v : vec) : l2norm v = 1 -> normalize_row v = v.
Proof.
  intros H. unfold normalize_row. rewrite H, Rmax_left by apply eps_le_1.
  rewrite <- (map_id v) at 2. apply map_ext. intros a. lra.
Qed.

Lemma normalize_unit_rows (x : matrix) :
  Forall (fun v => eps <= l2norm v) x ->
  Forall (fun k => l2norm k = 1) (normalize x).
Proof.
  intros H. unfold normalize. apply List.Forall_forall. intros k Hk.
  apply in_map_iff in Hk as (v & <- & Hv). rewrite List.Forall_forall in H.
  now apply normalize_row_norm, H.
Qed.

Lemma Forall_index_copy {A : Type} (P : A -> Prop) (t src : list A)
    (idx : list nat) :
  Forall P t -> Forall P src -> Forall P (index_copy t idx src).
Proof.
  revert t src. induction idx as [|i idx IH]; intros t [|v src] Ht Hs;
    simpl; trivial.
  inversion Hs; subst. apply IH; trivial. now apply Forall_insert.
Qed.

(** ** Masked maxima *)

Lemma Rmax_assoc_0 (a p : R) : Rmax a (Rmax 0 p) = Rmax 0 (Rmax a p).
Proof. unfold Rmax. repeat destruct (Rle_dec _ _); lra. Qed.

(** The largest product of a row with a 0/1 mask: the largest entry where
    the mask is set, but not less than zero as soon as the mask has a hole. *)
Lemma max_list_masked (v : vec) (mask : list bool) :
  length v = length mask ->
  max_list (mul_row v (map float mask)) =
  match max_list (masked v mask), existsb negb mask with
  | Some p, true => Some (Rmax 0 p)
  | Some p, false => Some p
  | None, true => Some 0
  | None, false => None
  end.
Proof.
  revert mask. induction v as [|a v IH]; intros [|b mask] Hlen;
    simpl in *; try discriminate; trivial.
  injection Hlen as Hlen. specialize (IH mask Hlen).
  unfold mul_row in IH. rewrite IH. clear IH.
  destruct b; simpl.
  - rewrite Rmult_1_r.
    destruct (max_list (masked v mask)) as [p|], (existsb negb mask);
      trivial; f_equal; [apply Rmax_assoc_0|apply Rmax_comm].
  - rewrite Rmult_0_r.
    destruct (max_list (masked v mask)) as [p|], (existsb negb mask);
      trivial; f_equal; unfold Rmax; repeat destruct (Rle_dec _ _); lra.
Qed.

Lemma max_list_masked_some (v : vec) (mask : list bool) :
  length v = length mask -> In true mask ->
  exists p, max_list (masked v mask) = Some p.
Proof.
  revert mask. induction v as [|a v IH]; intros [|b mask] Hlen Hin;
    simpl in *; try discriminate; [easy|].
  injection Hlen as Hlen. destruct b.
  - simpl. destruct (max_list (masked v mask)); eauto.
  - destruct Hin as [Hin|Hin]; [discriminate|]. now apply IH.
Qed.

Lemma existsb_negb_In (mask : list bool) :
  In false mask -> existsb negb mask = true.
Proof.
  intros H. apply existsb_exists. now exists false.
Qed.

Lemma max_list_both (v : vec) (mask : list bool) :
  length v = length mask -> In true mask -> In false mask ->
  exists p, max_list (masked v mask) = Some p /\
            max_list (mul_row v (map float mask)) = Some (Rmax 0 p).
Proof.
  intros Hlen Ht Hf.
  destruct (max_list_masked_some v mask Hlen Ht) as [p Hp].
  exists p. split; trivial.
  now rewrite max_list_masked, Hp, existsb_negb_In.
Qed.

(** ** Unit keys through any call *)

Lemma exec_bind {A B : Type} (I : Memory -> Prop) (c : M A) (k : A -> M B)
    (m : Memory) :
  I (exec c m) ->
  (forall a m', c m = (Ok a, m') -> I (exec (k a) m')) ->
  I (exec (bind c k) m).
Proof.
  unfold exec, bind. intros Hc Hk.
  destruct (c m) as [[a|e] m'] eqn:E; simpl in *; trivial.
  now apply Hk.
Qed.

Lemma column0_inv (t : list (list nat)) (c : list nat) :
  column0 t = Ok c -> c = map (fun r => nth 0 r 0%nat) t.
Proof.
  revert c. induction t as [|r t IH]; simpl; intros c H.
  - now injection H as <-.
  - destruct r as [|i r]; [discriminate|].
    destruct (column0 t) as [c'|]; [|discriminate].
    injection H as <-. simpl. now rewrite (IH c').
Qed.

(** What the neighbour search returns, whenever it returns. *)
Lemma neighbors_inv (x : matrix) (m m' : Memory)
    (r : matrix * matrix * list (list nat) * list nat * list Z) :
  neighbors x m = (Ok r, m') ->
  m' = m /\
  r = (normalize x, fst (topk_of x m), snd (topk_of x m),
       best_slots x m, predicted x m).
Proof.
  unfold neighbors, bind, gets, lift, ret. simpl.
  destruct (size2 (normalize x)); [|discriminate].
  destruct (matmul (normalize x) (keys m)) as [sc|] eqn:Em; [|discriminate].
  assert (Hsc : sc = matmul_t (normalize x) (keys m)).
  { unfold matmul in Em. destruct (size2 (normalize x)) as [[? ?]|];
      [|discriminate].
    destruct (size2 (keys m)) as [[? ?]|]; [|discriminate].
    destruct (_ =? _)%nat; [|discriminate]. now injection Em as <-. }
  subst sc.
  destruct (topk_rows _ _) as [[v i]|] eqn:Et; [|discriminate].
  destruct (column0 i) as [c|] eqn:Ec; [|discriminate].
  intros H. injection H as <- <-. split; trivial.
  unfold predicted, best_slots, topk_of. rewrite Et. simpl.
  now rewrite (column0_inv _ _ Ec).
Qed.

Lemma topk_rows_length (x : matrix) (k : nat) (vs : matrix)
    (ixs : list (list nat)) :
  topk_rows x k = Ok (vs, ixs) -> length ixs = length x.
Proof.
  revert vs ixs. induction x as [|r x IH]; simpl; intros vs ixs H.
  - now injection H as <- <-.
  - destruct (topk r k) as [[v i]|]; [|discriminate].
    destruct (topk_rows x k) as [[vs' ixs']|]; [|discriminate].
    injection H as <- <-. simpl. now rewrite (IH vs' ixs').
Qed.

(** The neighbour search returns one prediction per row. *)
Lemma neighbors_length (x : matrix) (m m' : Memory)
    (r : matrix * matrix * list (list nat) * list nat * list Z) :
  neighbors x m = (Ok r, m') -> length (predicted x m) = length x.
Proof.
  unfold neighbors, bind, gets, lift, ret. simpl.
  destruct (size2 (normalize x)); [|discriminate].
  destruct (matmul (normalize x) (keys m)) as [sc|] eqn:Em; [|discriminate].
  assert (Hsc : sc = matmul_t (normalize x) (keys m)).
  { unfold matmul in Em. destruct (size2 (normalize x)) as [[? ?]|];
      [|discriminate].
    destruct (size2 (keys m)) as [[? ?]|]; [|discriminate].
    destruct (_ =? _)%nat; [|discriminate]. now injection Em as <-. }
  subst sc.
  destruct (topk_rows _ _) as [[v i]|] eqn:Et; [|discriminate].
  intros _. unfold predicted, best_slots, topk_of, index_select.
  rewrite Et. simpl. rewrite !length_map.
  rewrite (topk_rows_length _ _ _ _ Et). unfold matmul_t, normalize.
  now rewrite !length_map.
Qed.

Lemma pos_neg_scores_frame (sims : matrix) (idxs : list (list nat))
    (y : list Z) (m : Memory) :
  exec (pos_neg_scores sims idxs y) m = m.
Proof.
  unfold exec, pos_neg_scores, bind, gets, lift, ret. simpl.
  destruct (eq_labels _ y); trivial. simpl.
  destruct (mul_rows _ _); trivial. simpl.
  destruct (topk_rows _ 1) as [[? ?]|]; trivial. simpl.
  destruct (mul_rows _ _); trivial. simpl.
  destruct (topk_rows _ 1) as [[? ?]|]; trivial.
Qed.

Lemma update_unit_keys (q : matrix) (y yh : list Z) (yhi : list nat)
    (rand : nat -> R) (m : Memory) :
  unit_keys m -> Forall (fun k => l2norm k = 1) q ->
  (forall res, eq_long yh y = Ok res ->
     Forall (fun k => l2norm k = 1)
       (normalize
          (add_rows
             (index_select [] (keys m) (index_select 0%nat yhi (nonzero res)))
             (index_select [] q (nonzero res))))) ->
  unit_keys (exec (update q y yh yhi rand) m).
Proof.
  intros Hm Hq Hb. unfold update, exec, bind, modify, lift. simpl.
  destruct (eq_long yh y) as [res|e]; simpl; trivial.
  specialize (Hb res eq_refl).
  assert (H2 : unit_keys
    (snd ((if nonempty (nonzero res)
           then reinforce q yhi (nonzero res) else ret tt)
            (set_age m (map (fun a => a + 1) (age m)))))).
  { destruct (nonempty (nonzero res)); simpl; trivial.
    destruct (reinforce_cases q yhi (nonzero res)
                (set_age m (map (fun a => a + 1) (age m)))) as [-> | ->];
      simpl; trivial.
    unfold unit_keys. simpl. now apply Forall_index_copy. }
  destruct ((if nonempty (nonzero res)
             then reinforce q yhi (nonzero res) else ret tt)
              (set_age m (map (fun a => a + 1) (age m))))
    as [[[]|e] m2]; simpl in *; trivial.
  destruct (nonempty (nonzero (map negb res))); simpl; trivial.
  destruct (replace_oldest_cases q y rand m2)
    as [[e ->]|[(ix & e & ->)|(ix & _ & ->)]]; simpl; trivial;
    unfold unit_keys; simpl; now apply Forall_index_copy.
Qed.

(** A call of [query] whose normalizations are conditioned keeps unit keys,
    whether it returns or raises. *)
Lemma query_unit_keys (x : matrix) (y : list Z) (p : bool)
    (rand : nat -> R) (m : Memory) :
  unit_keys m -> conditioned_call m (Query x y p rand) ->
  unit_keys (exec (query x y p rand) m).
Proof.
  intros Hm (Hxy & Hx & Hb). unfold query.
  apply exec_bind; [now rewrite neighbors_frame|].
  intros r m' Hn. pose proof (neighbors_length x m m' r Hn) as Hlp.
  apply neighbors_inv in Hn as [-> ->].
  apply exec_bind; [exact Hm|]. intros conf m' Hc.
  assert (m' = m) by (unfold confidence, bind, gets, ret in Hc; congruence).
  subst m'.
  apply exec_bind.
  - destruct p; [exact Hm|].
    apply exec_bind; [now rewrite pos_neg_scores_frame|].
    intros [pos neg] m' Hs.
    assert (m' = m).
    { pose proof (pos_neg_scores_frame (fst (topk_of x m))
                    (snd (topk_of x m)) y m) as Hf.
      unfold exec in Hf. now rewrite Hs in Hf. }
    subst m'. unfold exec, bind, gets, lift, ret. simpl.
    now destruct (MemoryLoss pos neg (margin m)).
  - intros loss m' Hl.
    assert (m' = m).
    { destruct p.
      - unfold ret in Hl. congruence.
      - unfold bind in Hl.
        pose proof (pos_neg_scores_frame (fst (topk_of x m))
                      (snd (topk_of x m)) y m) as Hf.
        unfold exec in Hf.
        destruct (pos_neg_scores _ _ y m) as [[[pos neg]|e] m2];
          simpl in Hf; subst; [|discriminate].
        unfold gets, lift, ret in Hl.
        destruct (MemoryLoss pos neg (margin m)); congruence. }
    subst m'.
    assert (Hu : unit_keys
              (exec (update (normalize x) y (predicted x m) (best_slots x m)
                            rand) m)).
    { apply update_unit_keys; trivial.
      - now apply normalize_unit_rows.
      - intros res Hres.
        assert (res = correct_mask_of x y m).
        { rewrite eq_long_same in Hres by congruence.
          now injection Hres as <-. }
        subst res. now apply normalize_unit_rows. }
    apply exec_bind; [exact Hu|].
    intros a m' Hu'. unfold exec in Hu. now rewrite Hu' in Hu.
Qed.

Lemma run_call_unit_keys (c : call) (m : Memory) :
  unit_keys m -> conditioned_call m c -> unit_keys (run_call c m).
Proof.
  destruct c as [x|x y p rand]; simpl.
  - intros Hm _. now rewrite predict_frame.
  - apply query_unit_keys.
Qed.

Lemma run_unit_keys (cs : list call) (m : Memory) :
  unit_keys m -> conditioned m cs -> unit_keys (run cs m).
Proof.
  revert m. induction cs as [|c cs IH]; intros m Hm Hc; simpl; trivial.
  destruct Hc as [Hc Hcs]. apply IH; trivial.
  now apply run_call_unit_keys.
Qed.

Lemma conditioned_firstn (n : nat) (cs : list call) (m : Memory) :
  conditioned m cs -> conditioned m (firstn n cs).
Proof.
  revert n m. induction cs as [|c cs IH]; intros [|n] m; simpl; trivial.
  intros [Hc Hcs]. split; trivial. now apply IH.
Qed.

(** What [__init__] stores: the clamped [top_k], and the temperature of the
    [top_k] it was given. *)
Lemma init_spec (n d k : nat) (it an mg : R) (randn : nat -> nat -> R)
    (m : Memory) :
  init n d k it an mg randn = Ok m ->
  top_k m = Nat.min k n /\
  softmax_temperature m = Rmax 1 (ln (0.2 * INR k) / it) /\
  memory_size m = n /\ key_dim m = d /\ age_noise m = an /\ margin m = mg /\
  values m = repeat 0%Z n /\ age m = repeat 0 n.
Proof.
  unfold init. intros H.
  destruct (_ || _); [discriminate|].
  destruct (k =? 0)%nat; [discriminate|].
  destruct (Req_dec_T it 0); [discriminate|].
  injection H as <-. simpl. repeat split.
Qed.

Lemma init_unit_keys (n d k : nat) (it an mg : R) (randn : nat -> nat -> R)
    (m : Memory) :
  init n d k it an mg randn = Ok m ->
  (forall i, (i < n)%nat -> eps <= l2norm (tabulate d (randn i))) ->
  unit_keys m.
Proof.
  unfold init. intros H Hd.
  destruct (_ || _); [discriminate|].
  destruct (k =? 0)%nat; [discriminate|].
  destruct (Req_dec_T it 0); [discriminate|].
  injection H as <-. unfold unit_keys. simpl.
  apply normalize_unit_rows. unfold tabulate at 1.
  apply List.Forall_forall. intros v Hv.
  apply in_map_iff in Hv as (i & <- & Hi). apply in_seq in Hi.
  apply Hd. lia.
Qed.

(** ** The slot of a correct row *)

Lemma correct_row_slot (m : Memory) (x : matrix) (y : list Z) (r : nat) :
  wf_memory m -> wf_query m x y -> In r (correct_rows x y m) ->
  exists s k q,
    best_slots x m !! r = Some s /\ keys m !! s = Some k /\
    normalize x !! r = Some q /\
    blend_of x m r = normalize_row (add_row k q) /\
    In s (reinforced_slots x y m) /\ (s < memory_size m)%nat.
Proof.
  intros Hm Hq Hr. destruct (wf_query_predict m x y Hq) as [Hx Hxy].
  pose proof Hr as Hr'. apply correct_rows_spec in Hr' as (v & Hv & _).
  apply lookup_lt_Some in Hv. rewrite (length_predicted m x Hm Hx) in Hv.
  assert (Hs : is_Some (best_slots x m !! r)).
  { apply lookup_lt_is_Some. now rewrite (length_best_slots m x Hm Hx). }
  destruct Hs as [s Hs].
  pose proof (best_slots_lt m x r s Hm Hx Hs) as Hlt.
  pose proof Hm as Hm'. apply wf_memory_spec in Hm' as (Hk & _).
  apply is_tensor2_spec in Hk as (_ & _ & Hklen & _).
  assert (Hks : is_Some (keys m !! s)) by (apply lookup_lt_is_Some; lia).
  assert (Hqs : is_Some (normalize x !! r)).
  { apply lookup_lt_is_Some. unfold normalize. now rewrite length_map. }
  destruct Hks as [k Hk], Hqs as [q Hqr]. exists s, k, q.
  repeat split; trivial.
  - unfold blend_of. rewrite (nth_lookup_Some _ _ _ _ Hs).
    now rewrite (nth_lookup_Some _ _ _ _ Hk), (nth_lookup_Some _ _ _ _ Hqr).
  - apply In_index_select. exists r. split; trivial.
    now rewrite (nth_lookup_Some _ _ _ _ Hs).
Qed.


(** ** Replacement: which rows are written *)

(** With distinct positions every row of the source lands at its position. *)
Lemma index_copy_nodup {A : Type} (t src : list A) (idx : list nat)
    (i s : nat) (v : A) :
  List.NoDup idx -> length idx = length src ->
  idx !! i = Some s -> src !! i = Some v -> (s < length t)%nat ->
  index_copy t idx src !! s = Some v.
Proof.
  intros Hnd Hlen Hs Hv Hlt.
  rewrite <- (take_drop_middle _ _ _ Hs) in Hnd |- *.
  rewrite <- (take_drop_middle _ _ _ Hv).
  apply index_copy_last; trivial.
  - rewrite !length_take. lia.
  - apply NoDup_remove_2 in Hnd. intros Hin. apply Hnd.
    apply in_or_app. now right.
Qed.

(** When one row of the batch is incorrect, the replacement step writes
    every row of the batch, correct or not: row [i] goes to the slot of the
    [i]-th largest noisy age, with its label and the age 0. *)
Lemma replacement_writes_every_row (m : Memory) (x : matrix) (y : list Z)
    (rand : nat -> R) (i : nat) (q : vec) (l : Z) :
  wf_memory m -> wf_query m x y -> incorrect_rows x y m <> [] ->
  normalize x !! i = Some q -> y !! i = Some l ->
  length (replaced_slots x y rand m) = length x /\
  exists s,
    replaced_slots x y rand m !! i = Some s /\
    keys (after_query x y rand m) !! s = Some q /\
    values (after_query x y rand m) !! s = Some l /\
    age (after_query x y rand m) !! s = Some 0.
Proof.
  intros Hm Hq Hinc Hqi Hyi.
  destruct (wf_query_predict m x y Hq) as [Hx Hxy].
  destruct (replaced_slots_spec m x y rand Hm Hq) as (Hnd & Hlt & Hlen).
  destruct (incorrect_rows x y m) as [|r rows] eqn:Ei; [easy|].
  simpl in Hlen. split; trivial.
  assert (Hs : is_Some (replaced_slots x y rand m !! i)).
  { apply lookup_lt_is_Some. rewrite Hlen, Hxy.
    now apply lookup_lt_Some in Hyi. }
  destruct Hs as [s Hs]. exists s. split; trivial.
  assert (Hsl : (s < memory_size m)%nat).
  { rewrite List.Forall_forall in Hlt. apply Hlt.
    apply list_elem_of_In. now apply list_elem_of_lookup_2 with i. }
  pose proof Hm as Hm'.
  apply wf_memory_spec in Hm' as (Hk & Hv & Ha & _).
  apply is_tensor2_spec in Hk as (_ & _ & Hkl & _).
  unfold after_query. simpl. repeat split.
  - apply (index_copy_nodup _ _ _ i); trivial.
    + unfold normalize. now rewrite length_map.
    + unfold keys_after_reinforce. rewrite length_index_copy. lia.
  - apply (index_copy_nodup _ _ _ i); trivial; lia.
  - apply index_fill_written.
    + apply list_elem_of_In. now apply list_elem_of_lookup_2 with i.
    + unfold ages_before_replacement.
      rewrite length_index_fill, length_map. lia.
Qed.

(** ** Reachable memories are well formed *)

Lemma init_wf (n d k : nat) (it an mg : R) (randn : nat -> nat -> R)
    (m : Memory) :
  init n d k it an mg randn = Ok m -> wf_memory m.
Proof.
  unfold init. intros H.
  destruct (n =? 0)%nat eqn:En; [discriminate|].
  destruct (d =? 0)%nat eqn:Ed; [discriminate|].
  destruct (k =? 0)%nat eqn:Ek; [discriminate|].
  destruct (Req_dec_T it 0); [discriminate|].
  apply Nat.eqb_neq in En, Ed, Ek.
  simpl in H. injection H as <-. apply wf_memory_spec. simpl.
  repeat split; try lia.
  - apply is_tensor2_normalize, is_tensor2_spec. unfold tabulate.
    rewrite length_map, length_seq. repeat split; try lia.
    apply List.Forall_forall. intros r Hr.
    apply in_map_iff in Hr as (i & <- & _).
    now rewrite length_map, length_seq.
  - apply repeat_length.
  - apply repeat_length.
Qed.

Lemma wf_after_query (m : Memory) (x : matrix) (y : list Z)
    (rand : nat -> R) :
  wf_memory m -> wf_query m x y -> wf_memory (after_query x y rand m).
Proof.
  intros Hm Hq. destruct (wf_query_predict m x y Hq) as [Hx Hxy].
  pose proof Hm as Hm'.
  apply wf_memory_spec in Hm' as (Hk & Hv & Ha & Hpos & Hle).
  destruct (length_after_query m x y rand) as (Hlk & Hlv & Hla).
  apply wf_memory_spec. simpl memory_size. simpl key_dim. simpl top_k.
  repeat split; try lia.
  apply is_tensor2_spec in Hk as (Hn & Hd & Hkl & Hrows).
  apply is_tensor2_spec. repeat split; trivial; [lia|].
  unfold after_query, keys_after_reinforce. simpl keys.
  apply Forall_index_copy; [apply Forall_index_copy; trivial|].
  - rewrite blended_keys_map. apply List.Forall_forall. intros b Hb.
    apply in_map_iff in Hb as (r & <- & Hr).
    destruct (correct_row_slot m x y r Hm Hq Hr)
      as (s & k & q & _ & Hks & Hqr & -> & _).
    rewrite length_normalize_row, length_add_row.
    rewrite List.Forall_forall in Hrows.
    rewrite (Hrows k) by (apply list_elem_of_In; now apply list_elem_of_lookup_2 with s).
    unfold wf_predict in Hx. apply is_tensor2_normalize in Hx.
    apply is_tensor2_spec in Hx as (_ & _ & _ & Hqrows).
    rewrite List.Forall_forall in Hqrows.
    rewrite (Hqrows q) by (apply list_elem_of_In; now apply list_elem_of_lookup_2 with r).
    lia.
  - unfold wf_predict in Hx. apply is_tensor2_normalize in Hx.
    now apply is_tensor2_spec in Hx as (_ & _ & _ & Hqrows).
Qed.

(** The steps of [update] up to the replacement step, for a batch larger
    than the memory. *)
Lemma update_oversized (m : Memory) (x : matrix) (y : list Z)
    (rand : nat -> R) :
  wf_memory m -> is_tensor2 (length y) (key_dim m) x = true ->
  incorrect_rows x y m <> [] -> (memory_size m < length x)%nat ->
  update (normalize x) y (predicted x m) (best_slots x m) rand m =
  (Raise RuntimeError,
   set_age (set_keys m (keys_after_reinforce x y m))
           (ages_before_replacement x y m)).
Proof.
  intros Hm Hshape Hinc Hbig.
  assert (Hx : wf_predict m x).
  { unfold wf_predict. pose proof Hshape as H.
    apply is_tensor2_spec in H as (_ & _ & Hl & _). now rewrite Hl. }
  assert (Hxy : length x = length y).
  { apply is_tensor2_spec in Hshape as (_ & _ & Hl & _). exact Hl. }
  unfold update. unfold bind at 1. unfold modify at 1.
  unfold bind at 1. unfold lift at 1.
  rewrite eq_long_same by (rewrite (length_predicted m x Hm Hx); exact Hxy).
  fold (correct_mask_of x y m). fold (correct_rows x y m).
  fold (incorrect_rows x y m).
  unfold bind at 1. rewrite (update_step2 m x y Hm Hx).
  destruct (incorrect_rows x y m) as [|r rows]; [easy|]. simpl nonempty.
  cbv iota. unfold replace_oldest, oldest, bind, gets, lift. simpl.
  unfold topk.
  assert (Hlen : length (ages_before_replacement x y m) = memory_size m).
  { apply wf_memory_spec in Hm as (_ & _ & Ha & _).
    unfold ages_before_replacement.
    now rewrite length_index_fill, length_map. }
  rewrite length_add_row, Hlen. unfold random_uniform, tabulate.
  rewrite !length_map, length_seq, Nat.min_id.
  replace (length (normalize x)) with (length x)
    by (unfold normalize; now rewrite length_map).
  destruct (length x <=? memory_size m)%nat eqn:E;
    [apply Nat.leb_le in E; lia|reflexivity].
Qed.

(** A well-shaped batch larger than the memory makes [query] raise as soon
    as one of its rows is incorrect. *)
Lemma query_raises_on_large_batch (m : Memory) (x : matrix) (y : list Z)
    (p : bool) (rand : nat -> R) :
  wf_memory m -> is_tensor2 (length y) (key_dim m) x = true ->
  incorrect_rows x y m <> [] -> (memory_size m < length x)%nat ->
  eval (query x y p rand) m = Raise RuntimeError.
Proof.
  intros Hm Hshape Hinc Hbig.
  assert (Hx : wf_predict m x).
  { unfold wf_predict. pose proof Hshape as H.
    apply is_tensor2_spec in H as (_ & _ & Hl & _). now rewrite Hl. }
  assert (Hxy : length x = length y).
  { apply is_tensor2_spec in Hshape as (_ & _ & Hl & _). exact Hl. }
  assert (Hupd : fst (update (normalize x) y (predicted x m) (best_slots x m)
                             rand m) = Raise RuntimeError)
    by now rewrite (update_oversized m x y rand Hm Hshape Hinc Hbig).
  unfold eval, query. rewrite (bind_ok _ _ _ _ _ (neighbors_ok m x Hm Hx)).
  unfold bind at 1. unfold confidence at 1. unfold bind at 1. simpl.
  assert (Hloss : exists l,
    (if p then ret None
     else bind (pos_neg_scores (fst (topk_of x m)) (snd (topk_of x m)) y)
            (fun x0 => let '(pos_score, neg_score) := x0 in
               bind (gets margin) (fun mg =>
                 bind (lift (MemoryLoss pos_score neg_score mg))
                   (fun l => ret (Some l))))) m = (Ok l, m)).
  { destruct p; [now exists None|].
    destruct (pos_neg_scores_ok m (fst (topk_of x m)) (snd (topk_of x m)) y)
      as (pos & neg & Heq & Hlp & Hln & _).
    - destruct (topk_of_spec m x Hm Hx) as (_ & Hlv & _). congruence.
    - destruct (topk_of_spec m x Hm Hx) as (_ & _ & Hli & _). congruence.
    - intros i v ix Hv Hix.
      destruct (topk_of_rows m x i v ix Hm Hx Hv Hix)
        as (q & _ & _ & H1 & H2 & _).
      apply wf_memory_spec in Hm. lia.
    - exists (Some (mean (map (hinge (margin m)) (combine pos neg)))).
      unfold bind at 1. rewrite Heq. unfold bind at 1. simpl.
      unfold bind at 1. unfold lift at 1, MemoryLoss.
      rewrite Hlp, Hln, Nat.eqb_refl. reflexivity. }
  destruct Hloss as [l Hl]. unfold bind at 1. rewrite Hl.
  unfold bind at 1.
  destruct (update (normalize x) y (predicted x m) (best_slots x m) rand m)
    as [[u|e] m'] eqn:Eu; simpl in Hupd; [discriminate|].
  now injection Hupd as ->.
Qed.

(** * The claims *)

(** C8: [predict] leaves the memory as it found it, for every input and
    also when it raises; on a well-shaped input it returns the value stored
    in the best slot of every row, a slot whose key has the largest
    similarity with the normalized row, and the softmax of the [top_k]
    similarities of the row scaled by the temperature. *)
Theorem predict_leaves_memory_unchanged (m : Memory) (x : matrix) :
  exec (predict x) m = m /\
  (wf_memory m -> wf_predict m x ->
   topk_rows (matmul_t (normalize x) (keys m)) (top_k m) = Ok (topk_of x m) /\
   eval (predict x) m =
   Ok (index_select 0%Z (values m)
         (map (fun r => nth 0 r 0%nat) (snd (topk_of x m))),
       softmax (map (map (Rmult (softmax_temperature m)))
                    (fst (topk_of x m)))) /\
   forall i q, normalize x !! i = Some q ->
     exists s k,
       map (fun r => nth 0 r 0%nat) (snd (topk_of x m)) !! i = Some s /\
       keys m !! s = Some k /\
       forall s' k', keys m !! s' = Some k' -> dot q k' <= dot q k).
Proof.
  split; [apply predict_frame|]. intros Hm Hx. split; [|split].
  - now apply topk_of_spec.
  - unfold eval. now rewrite (predict_unfold m x Hm Hx).
  - intros i q Hq.
    assert (Hs : is_Some (best_slots x m !! i)).
    { apply lookup_lt_is_Some. rewrite (length_best_slots m x Hm Hx).
      apply lookup_lt_Some in Hq. unfold normalize in Hq.
      now rewrite length_map in Hq. }
    destruct Hs as [s Hs].
    destruct (best_slot_nearest m x i s q Hm Hx Hs Hq) as (k & Hk & Hmax).
    now exists s, k.
Qed.

(** C7: a call of [query] adds one to the age of every slot and then sets
    the age of every slot it writes to zero: after the call a written slot
    has age 0, and any other slot has its former age plus one, with the key
    and the value it had. *)
Theorem query_ages_tick_or_reset (m : Memory) (x : matrix) (y : list Z)
    (p : bool) (rand : nat -> R) :
  wf_memory m -> wf_query m x y ->
  (exists out, eval (query x y p rand) m = Ok out) /\
  exec (query x y p rand) m = after_query x y rand m /\
  length (age (exec (query x y p rand) m)) = length (age m) /\
  forall s a, age m !! s = Some a ->
    (In s (written_slots x y rand m) ->
     age (exec (query x y p rand) m) !! s = Some 0) /\
    (~ In s (written_slots x y rand m) ->
     age (exec (query x y p rand) m) !! s = Some (a + 1) /\
     keys (exec (query x y p rand) m) !! s = keys m !! s /\
     values (exec (query x y p rand) m) !! s = values m !! s).
Proof.
  intros Hm Hq. unfold eval, exec.
  rewrite (query_unfold m x y p rand Hm Hq). simpl.
  split; [eexists; reflexivity|]. split; trivial.
  split; [apply length_after_query|].
  intros s a Ha. destruct (age_after_query m x y rand s a Ha) as [H1 H2].
  split; trivial. intros Hs. split; [now apply H2|].
  now apply frame_after_query.
Qed.


(** C2: a call of [query] with one row, with the loss, whose label is stored
    in no slot returns a loss that is not negative, and leaves a slot that
    holds the label with age 0. *)
Theorem query_unseen_label_stores_it (m : Memory) (q : vec) (l : Z)
    (rand : nat -> R) :
  wf_memory m -> wf_query m [q] [l] -> ~ In l (values m) ->
  exists y_hat conf loss s,
    eval (query [q] [l] false rand) m = Ok (y_hat, conf, Some loss) /\
    0 <= loss /\
    values (exec (query [q] [l] false rand) m) !! s = Some l /\
    age (exec (query [q] [l] false rand) m) !! s = Some 0.
Proof.
  intros Hm Hq Hl. destruct (wf_query_predict m [q] [l] Hq) as [Hx _].
  unfold eval, exec. rewrite (query_unfold m [q] [l] false rand Hm Hq).
  simpl fst. simpl snd.
  assert (Hinc : incorrect_rows [q] [l] m = [0%nat]).
  { pose proof (length_predicted m [q] Hm Hx) as Hlp.
    unfold incorrect_rows, correct_mask_of.
    destruct (predicted [q] m) as [|v [|? ?]] eqn:Ep; simpl in Hlp;
      try discriminate.
    simpl. destruct (Z.eqb_spec v l) as [->|Hne]; [|reflexivity].
    exfalso. apply Hl.
    assert (Hs : is_Some (best_slots [q] m !! 0%nat)).
    { apply lookup_lt_is_Some. rewrite (length_best_slots m [q] Hm Hx).
      simpl. lia. }
    destruct Hs as [s Hs].
    pose proof (best_slots_lt m [q] 0 s Hm Hx Hs) as Hlt.
    unfold predicted, index_select in Ep.
    destruct (best_slots [q] m) as [|s' ?]; [discriminate|].
    simpl in Hs. injection Hs as ->. simpl in Ep. injection Ep as Ep _.
    rewrite <- Ep. apply nth_In.
    apply wf_memory_spec in Hm as (_ & Hv & _). lia. }
  destruct (replaced_slots_spec m [q] [l] rand Hm Hq) as (_ & Hlt & Hlen).
  rewrite Hinc in Hlen. simpl in Hlen.
  destruct (replaced_slots [q] [l] rand m) as [|s [|? ?]] eqn:Er;
    simpl in Hlen; try discriminate.
  inversion Hlt as [|? ? Hs _]; subst.
  pose proof Hm as Hm'. apply wf_memory_spec in Hm' as (_ & Hv & Ha & _).
  exists (predicted [q] m),
    (softmax (map (map (Rmult (softmax_temperature m)))
                  (fst (topk_of [q] m)))),
    (loss_of [q] [l] m), s.
  split; [reflexivity|]. split; [apply mean_hinge_nonneg|].
  unfold after_query. rewrite Er. simpl. split.
  - apply list_lookup_insert_eq. lia.
  - unfold index_fill. simpl. apply list_lookup_insert_eq.
    unfold ages_before_replacement.
    rewrite length_index_fill, length_map. lia.
Qed.

(** C3, as the code has it: for a row that has among its [top_k] candidates
    one whose stored value is the label and one whose value is not, the
    positive score is the largest similarity of the matching candidates, but
    not less than zero, and the negative score is the largest similarity of
    the other candidates, but not less than zero. *)
Theorem loss_scores_are_masked_maxima_floored_at_zero (m : Memory)
    (x : matrix) (y : list Z) (i : nat) (v : vec) (ix : list nat) (yi : Z) :
  wf_memory m -> wf_query m x y ->
  fst (topk_of x m) !! i = Some v -> snd (topk_of x m) !! i = Some ix ->
  y !! i = Some yi ->
  In true (match_mask m ix yi) -> In false (match_mask m ix yi) ->
  exists pmax nmax,
    eval (pos_neg_scores (fst (topk_of x m)) (snd (topk_of x m)) y) m =
      Ok (scores_of x y m) /\
    max_list (masked v (match_mask m ix yi)) = Some pmax /\
    max_list (masked v (map negb (match_mask m ix yi))) = Some nmax /\
    fst (scores_of x y m) !! i = Some (Rmax 0 pmax) /\
    snd (scores_of x y m) !! i = Some (Rmax 0 nmax).
Proof.
  intros Hm Hq Hv Hix Hyi Ht Hf.
  destruct (wf_query_predict m x y Hq) as [Hx _].
  destruct (scores_of_spec m x y Hm Hq) as (Hs & _ & _ & Hrows).
  destruct (Hrows i v ix yi Hv Hix Hyi) as [Hp Hn].
  destruct (topk_of_rows m x i v ix Hm Hx Hv Hix)
    as (_ & _ & _ & Hlv & Hli & _).
  assert (Hlen : length v = length (match_mask m ix yi)).
  { unfold match_mask. rewrite length_map. lia. }
  destruct (max_list_both v (match_mask m ix yi) Hlen Ht Hf)
    as (pmax & Hpm & Hpp).
  destruct (max_list_both v (map negb (match_mask m ix yi)))
    as (nmax & Hnm & Hnn).
  { now rewrite length_map. }
  { apply in_map_iff. now exists false. }
  { apply in_map_iff. now exists true. }
  exists pmax, nmax. unfold eval. rewrite Hs. simpl.
  repeat split; trivial; congruence.
Qed.


(** C10, as the code has it: when two or more correct rows of a
    well-shaped call have the same best slot, the reinforcement leaves in
    the slot the blend [normalize(key + query[r])] for one row [r] of them,
    the last one: the blend is made from the key the slot had when the call
    started, and the blends of the other rows are gone.  It is the key of
    the slot when the call ends if the replacement step does not take the
    slot. *)
Theorem shared_slot_keeps_last_blend (m : Memory) (x : matrix) (y : list Z)
    (p : bool) (rand : nat -> R) (s r1 r2 : nat) :
  wf_memory m -> wf_query m x y -> r1 <> r2 ->
  In r1 (correct_rows x y m) -> In r2 (correct_rows x y m) ->
  best_slots x m !! r1 = Some s -> best_slots x m !! r2 = Some s ->
  exists r k q,
    In r (correct_rows x y m) /\ best_slots x m !! r = Some s /\
    (forall r', In r' (correct_rows x y m) ->
                best_slots x m !! r' = Some s -> (r' <= r)%nat) /\
    keys m !! s = Some k /\ normalize x !! r = Some q /\
    keys_after_reinforce x y m !! s = Some (normalize_row (add_row k q)) /\
    keys (exec (query x y p rand) m) =
      index_copy (keys_after_reinforce x y m)
                 (replaced_slots x y rand m) (normalize x) /\
    (~ In s (replaced_slots x y rand m) ->
     keys (exec (query x y p rand) m) !! s =
       Some (normalize_row (add_row k q))).
Proof.
  intros Hm Hq _ Hr1 _ Hs1 _.
  destruct (wf_query_predict m x y Hq) as [Hx Hxy].
  set (f := fun r => nth r (best_slots x m) 0%nat).
  destruct (last_occurrence f s (correct_rows x y m))
    as (l1 & r & l2 & Hrows & Hf & Hl2).
  { exists r1. split; trivial. unfold f.
    now rewrite (nth_lookup_Some _ _ _ _ Hs1). }
  assert (Hr : In r (correct_rows x y m)).
  { rewrite Hrows. apply in_or_app. right. now left. }
  destruct (correct_row_slot m x y r Hm Hq Hr)
    as (s' & k & q & Hs & Hk & Hqr & _).
  assert (s' = s).
  { unfold f in Hf. now rewrite (nth_lookup_Some _ _ _ _ Hs) in Hf. }
  subst s'.
  assert (Hlast : forall r', In r' (correct_rows x y m) ->
                    best_slots x m !! r' = Some s -> (r' <= r)%nat).
  { intros r' Hr' Hs'. rewrite Hrows in Hr'.
    pose proof (nonzero_from_increasing 0 (correct_mask_of x y m)) as Hinc.
    fold (nonzero (correct_mask_of x y m)) in Hinc.
    fold (correct_rows x y m) in Hinc. rewrite Hrows in Hinc.
    apply in_app_or in Hr' as [Hr'|[->|Hr']]; [|lia|].
    - clear -Hinc Hr'. induction l1 as [|a l1 IH]; [easy|].
      simpl in Hinc. inversion Hinc as [|? ? Hs Hall]; subst.
      destruct Hr' as [->|Hr']; [|now apply IH].
      rewrite List.Forall_forall in Hall.
      apply Nat.lt_le_incl, Hall, in_or_app. right. now left.
    - exfalso. apply (Hl2 r' Hr'). unfold f.
      now rewrite (nth_lookup_Some _ _ _ _ Hs'). }
  destruct (reinforce_last_wins m x y r s Hm Hq Hr Hs Hlast)
    as (k' & q' & Hk' & Hq' & Hkeys).
  rewrite Hk in Hk'. injection Hk' as <-.
  rewrite Hqr in Hq'. injection Hq' as <-.
  exists r, k, q. unfold exec.
  rewrite (query_unfold m x y p rand Hm Hq). simpl.
  repeat split; trivial.
  intros Hrep. now rewrite index_copy_other.
Qed.

(** C6, as the code has it (with exact arithmetic): after the construction
    and after every call of a sequence of [predict] and [query] calls every
    stored key has norm 1, provided that the labels of every query are one
    per row and that no vector handed to [F.normalize] is shorter than its
    [eps]: the rows drawn at the construction, the rows of every query, and
    the sums [stored key + normalized query] of the reinforcement steps. *)
Theorem keys_unit_norm_when_conditioned (n d k : nat) (it an mg : R)
    (randn : nat -> nat -> R) (m : Memory) (cs : list call) (j : nat) :
  init n d k it an mg randn = Ok m ->
  (forall i, (i < n)%nat -> eps <= l2norm (tabulate d (randn i))) ->
  conditioned m cs ->
  Forall (fun key => l2norm key = 1) (keys (run (firstn j cs) m)).
Proof.
  intros Hi Hd Hc. apply run_unit_keys.
  - now apply (init_unit_keys n d k it an mg randn).
  - now apply conditioned_firstn.
Qed.

(** * The claims on the sample memories *)

Lemma unit_10 : normalize_row [1; 0] = [1; 0].
Proof. apply normalize_row_unit, l2norm_of_square; simpl; lra. Qed.

Lemma unit_01 : normalize_row [0; 1] = [0; 1].
Proof. apply normalize_row_unit, l2norm_of_square; simpl; lra. Qed.

Lemma unit_43 : normalize_row [4 / 5; 3 / 5] = [4 / 5; 3 / 5].
Proof. apply normalize_row_unit, l2norm_of_square; simpl; lra. Qed.

Lemma unit_away : normalize_row [3 / 5; - 4 / 5] = [3 / 5; - 4 / 5].
Proof. apply normalize_row_unit, l2norm_of_square; simpl; lra. Qed.

Lemma unit_m10 : normalize_row [-1; 0] = [-1; 0].
Proof. apply normalize_row_unit, l2norm_of_square; simpl; lra. Qed.

Lemma wf_fresh3 : wf_memory fresh3.
Proof. reflexivity. Qed.

Lemma wf_stored5 : wf_memory stored5.
Proof. reflexivity. Qed.

Lemma topk_of_mixed :
  topk_of mixed_x fresh3 = ([[1; 0]; [1; 0]], [[0; 1]; [1; 0]]%nat).
Proof.
  unfold topk_of, normalize, mixed_x. simpl map. rewrite unit_10, unit_01.
  unfold matmul_t. simpl. rsort. req.
Qed.

Lemma topk_of_shared :
  topk_of shared_x fresh3 = ([[1; 0]; [4 / 5; 3 / 5]], [[0; 1]; [0; 1]]%nat).
Proof.
  unfold topk_of, normalize, shared_x. simpl map. rewrite unit_10, unit_43.
  unfold matmul_t. simpl. rsort. req.
Qed.

Lemma topk_of_away :
  topk_of away_x stored5 = ([[3 / 5; - 3 / 5]], [[0; 2]]%nat).
Proof.
  unfold topk_of, normalize, away_x. simpl map. rewrite unit_away.
  unfold matmul_t. simpl. rsort. req.
Qed.

Lemma wf_mixed : wf_query fresh3 mixed_x mixed_y.
Proof. apply wf_query_small; reflexivity. Qed.

Lemma best_slots_mixed : best_slots mixed_x fresh3 = [0; 1]%nat.
Proof. unfold best_slots. now rewrite topk_of_mixed. Qed.

Lemma predicted_mixed : predicted mixed_x fresh3 = [0; 0]%Z.
Proof. unfold predicted. now rewrite best_slots_mixed. Qed.

Lemma correct_rows_mixed : correct_rows mixed_x mixed_y fresh3 = [0%nat].
Proof.
  unfold correct_rows, correct_mask_of. now rewrite predicted_mixed.
Qed.

Lemma incorrect_rows_mixed : incorrect_rows mixed_x mixed_y fresh3 = [1%nat].
Proof.
  unfold incorrect_rows, correct_mask_of. now rewrite predicted_mixed.
Qed.

Lemma reinforced_slots_mixed :
  reinforced_slots mixed_x mixed_y fresh3 = [0%nat].
Proof.
  unfold reinforced_slots. now rewrite best_slots_mixed, correct_rows_mixed.
Qed.

Lemma blended_keys_mixed : blended_keys mixed_x mixed_y fresh3 = [[1; 0]].
Proof.
  unfold blended_keys, blend_sums.
  rewrite reinforced_slots_mixed, correct_rows_mixed.
  unfold normalize at 2, mixed_x. simpl map. rewrite unit_10, unit_01.
  simpl. unfold normalize_row.
  rewrite (l2norm_of_square _ 2) by (simpl; lra).
  rewrite Rmax_left by (unfold eps; lra). simpl. req.
Qed.

Lemma noisy_ages_mixed :
  noisy_ages mixed_x mixed_y draw3 fresh3 = [0; 2; 3 / 2].
Proof.
  unfold noisy_ages, ages_before_replacement.
  rewrite reinforced_slots_mixed.
  unfold add_row, random_uniform, tabulate, draw3. simpl. req.
Qed.

Lemma replaced_slots_mixed :
  replaced_slots mixed_x mixed_y draw3 fresh3 = [1; 2]%nat.
Proof.
  unfold replaced_slots. rewrite incorrect_rows_mixed, noisy_ages_mixed.
  rsort. reflexivity.
Qed.

(** C1, the code at the failing input: a batch of two rows on [fresh3], the
    first predicted correctly and the second not, so that one row is
    incorrect.  The replacement step takes two slots, the two largest noisy
    ages, and writes the whole batch: slot 1 gets the query and the label of
    the correct row, slot 2 those of the incorrect row. *)
Theorem replacement_overwrites_whole_batch :
  wf_memory fresh3 /\ wf_query fresh3 mixed_x mixed_y /\
  predicted mixed_x fresh3 = [0; 0]%Z /\
  incorrect_rows mixed_x mixed_y fresh3 = [1%nat] /\
  noisy_ages mixed_x mixed_y draw3 fresh3 = [0; 2; 3 / 2] /\
  replaced_slots mixed_x mixed_y draw3 fresh3 = [1; 2]%nat /\
  exec (query mixed_x mixed_y false draw3) fresh3 =
    {| keys := [[1; 0]; [1; 0]; [0; 1]];
       values := [0; 0; 5]%Z;
       age := [0; 0; 0];
       memory_size := 3;
       key_dim := 2;
       top_k := 2;
       softmax_temperature := 1;
       age_noise := 8;
       margin := 0.1 |}.
Proof.
  split; [exact wf_fresh3|]. split; [exact wf_mixed|].
  split; [exact predicted_mixed|]. split; [exact incorrect_rows_mixed|].
  split; [exact noisy_ages_mixed|]. split; [exact replaced_slots_mixed|].
  unfold exec. rewrite (query_unfold _ _ _ _ _ wf_fresh3 wf_mixed).
  unfold after_query, keys_after_reinforce, ages_before_replacement. simpl snd.
  rewrite reinforced_slots_mixed, blended_keys_mixed, replaced_slots_mixed.
  unfold normalize, mixed_x. simpl map. rewrite unit_10, unit_01.
  simpl. f_equal; req.
Qed.

(** C9, the code at the failing input: a memory of 4 slots built with the
    default [top_k] of 256 and an [inverse_temp] of 1.  The stored [top_k]
    is 4, and the temperature is [ln(0.2 * 256)], taken from the argument:
    from the stored [top_k] it would be 1. *)
Theorem init_temperature_uses_requested_top_k (randn : nat -> nat -> R) :
  exists m,
    init 4 2 256 1 8 0.1 randn = Ok m /\
    top_k m = Nat.min 256 4 /\ top_k m = 4%nat /\
    softmax_temperature m = ln (0.2 * 256) /\
    Rmax 1 (ln (0.2 * INR (top_k m)) / 1) = 1 /\
    softmax_temperature m <> Rmax 1 (ln (0.2 * INR (top_k m)) / 1).
Proof.
  assert (Hbig : 1 < ln (0.2 * 256)).
  { rewrite <- (ln_exp 1) at 1. apply ln_increasing; [apply exp_pos|].
    pose proof exp_le_3. lra. }
  assert (Hsmall : ln (0.2 * INR 4) < 0).
  { rewrite <- ln_1. apply ln_increasing; simpl; lra. }
  assert (H256 : INR 256 = 256).
  { rewrite INR_IZR_INZ. reflexivity. }
  unfold init. simpl orb. cbv iota.
  change (256 =? 0)%nat with false. cbv iota.
  destruct (Req_dec_T 1 0) as [H|_]; [lra|].
  eexists. split; [reflexivity|]. cbn [top_k softmax_temperature].
  change (Nat.min 256 4) with 4%nat. rewrite H256.
  assert (Hr : Rmax 1 (ln (0.2 * INR 4) / 1) = 1).
  { apply Rmax_left. lra. }
  assert (Hl : Rmax 1 (ln (0.2 * 256) / 1) = ln (0.2 * 256)).
  { rewrite Rmax_right by lra. lra. }
  repeat split; trivial. rewrite Hl, Hr. lra.
Qed.

Lemma wf_away : wf_query stored5 away_x away_y.
Proof. apply wf_query_small; reflexivity. Qed.

(** C3, the counterexample: in [stored5] the row (3/5, -4/5) with the label
    5 has the candidates slot 0 (value 0, similarity 3/5) and slot 2 (value
    5, similarity -3/5).  The largest similarity of the matching candidates
    is -3/5, the positive score of the code is 0. *)
Lemma positive_score_is_not_masked_max :
  wf_memory stored5 /\ wf_query stored5 away_x away_y /\
  fst (scores_of away_x away_y stored5) !! 0%nat = Some 0 /\
  ~ scores_are_masked_maxima stored5 away_x away_y.
Proof.
  split; [exact wf_stored5|]. split; [exact wf_away|].
  destruct (scores_of_spec stored5 away_x away_y wf_stored5 wf_away)
    as (_ & _ & _ & Hrows).
  destruct (Hrows 0%nat [3 / 5; - 3 / 5] [0; 2]%nat 5%Z) as [Hp _];
    try (rewrite topk_of_away; reflexivity); [reflexivity|].
  assert (Hzero : fst (scores_of away_x away_y stored5) !! 0%nat = Some 0).
  { rewrite Hp. unfold match_mask. simpl. f_equal.
    unfold Rmax. destruct (Rle_dec _ _); lra. }
  split; [exact Hzero|]. intros Hclaim.
  destruct (Hclaim 0%nat [3 / 5; - 3 / 5] [0; 2]%nat 5%Z) as [Hc _];
    try (rewrite topk_of_away; reflexivity); try reflexivity.
  - unfold match_mask. simpl. auto.
  - unfold match_mask. simpl. auto.
  - rewrite Hzero in Hc. unfold match_mask in Hc. simpl in Hc.
    injection Hc as Hc. lra.
Qed.

Lemma init_built1 : init 1 2 256 40 8 0.1 randn1 = Ok built1.
Proof.
  unfold init. simpl orb. cbv iota. change (256 =? 0)%nat with false.
  cbv iota. destruct (Req_dec_T 40 0) as [H|_]; [lra|]. reflexivity.
Qed.

Lemma wf_built1 : wf_memory built1.
Proof. reflexivity. Qed.

Lemma wf_opposite : wf_query built1 opposite_x opposite_y.
Proof. apply wf_query_small; reflexivity. Qed.

Lemma keys_built1 : keys built1 = [[1; 0]].
Proof.
  unfold built1, keys, normalize, tabulate, randn1. simpl.
  now rewrite unit_10.
Qed.

Lemma best_slots_opposite : best_slots opposite_x built1 = [0%nat].
Proof.
  unfold best_slots, topk_of. rewrite keys_built1.
  unfold normalize, opposite_x, matmul_t. reflexivity.
Qed.

Lemma correct_rows_opposite :
  correct_rows opposite_x opposite_y built1 = [0%nat] /\
  incorrect_rows opposite_x opposite_y built1 = [].
Proof.
  unfold correct_rows, incorrect_rows, correct_mask_of, predicted.
  rewrite best_slots_opposite. split; reflexivity.
Qed.

Lemma keys_after_opposite :
  keys (exec (query opposite_x opposite_y false draw3) built1) =
  [normalize_row [0; 0]].
Proof.
  unfold exec. rewrite (query_unfold _ _ _ _ _ wf_built1 wf_opposite).
  destruct correct_rows_opposite as [Hc Hi]. cbn [snd].
  unfold after_query. cbn [keys].
  unfold replaced_slots, keys_after_reinforce, blended_keys,
    blend_sums, reinforced_slots. rewrite Hi, Hc.
  rewrite best_slots_opposite, keys_built1. cbn [nonempty index_copy].
  unfold normalize at 2, opposite_x. simpl map. rewrite unit_m10. simpl.
  unfold normalize. simpl. do 2 f_equal. unfold add_row. simpl. req.
Qed.

(** C6, the counterexample: a memory of one slot whose key is (1,0) and a
    query with the row (-1,0) and the label 0, which the slot holds.  The
    row is not the zero vector; the reinforcement normalizes the sum (0,0),
    and the stored key is the zero vector afterwards. *)
Lemma cancelling_query_breaks_unit_norm :
  init 1 2 256 40 8 0.1 randn1 = Ok built1 /\
  nonzero_queries [Query opposite_x opposite_y false draw3] /\
  keys (run [Query opposite_x opposite_y false draw3] built1) = [[0; 0]] /\
  ~ unit_keys_within 1e-5
      (run [Query opposite_x opposite_y false draw3] built1).
Proof.
  split; [exact init_built1|]. split.
  { repeat constructor. lra. }
  assert (Hk : keys (run [Query opposite_x opposite_y false draw3] built1)
               = [[0; 0]]).
  { unfold run. simpl fold_left. unfold run_call.
    rewrite keys_after_opposite. unfold normalize_row. simpl.
    f_equal. req; unfold Rdiv; apply Rmult_0_l. }
  split; [exact Hk|]. unfold unit_keys_within. rewrite Hk. intros H.
  inversion H as [|? ? Hn _]; subst.
  rewrite (l2norm_of_square _ 0) in Hn by (simpl; lra).
  unfold Rabs in Hn. destruct (Rcase_abs _); lra.
Qed.

(** ** The theorems at the sample calls *)

Lemma predict_leaves_memory_unchanged_witness :
  wf_memory fresh3 /\ wf_predict fresh3 mixed_x /\
  exec (predict mixed_x) fresh3 = fresh3 /\
  eval (predict mixed_x) fresh3 =
  Ok (index_select 0%Z (values fresh3)
        (map (fun r => nth 0 r 0%nat) (snd (topk_of mixed_x fresh3))),
      softmax (map (map (Rmult (softmax_temperature fresh3)))
                   (fst (topk_of mixed_x fresh3)))).
Proof.
  split; [reflexivity|]. split; [reflexivity|].
  split; [apply (proj1 (predict_leaves_memory_unchanged fresh3 mixed_x))|].
  apply (proj2 (predict_leaves_memory_unchanged fresh3 mixed_x));
    reflexivity.
Defined.

Lemma query_ages_tick_or_reset_witness :
  wf_memory fresh3 /\ wf_query fresh3 mixed_x mixed_y /\
  age (exec (query mixed_x mixed_y false draw3) fresh3) !! 2%nat = Some 0.
Proof.
  split; [reflexivity|]. split; [exact wf_mixed|].
  apply (proj2 (proj2 (proj2
           (query_ages_tick_or_reset fresh3 mixed_x mixed_y false draw3
              wf_fresh3 wf_mixed))) 2%nat 0 eq_refl).
  unfold written_slots. rewrite replaced_slots_mixed.
  apply in_or_app. right. right. now left.
Defined.


Lemma label_5_unseen : ~ In 5%Z (values fresh3).
Proof. simpl. intros [H|[H|[H|[]]]]; discriminate. Qed.

Lemma wf_single : wf_query fresh3 [[0; 1]] [5%Z].
Proof. apply wf_query_small; reflexivity. Qed.

Lemma query_unseen_label_stores_it_witness :
  wf_memory fresh3 /\ wf_query fresh3 [[0; 1]] [5%Z] /\
  ~ In 5%Z (values fresh3) /\
  exists y_hat conf loss s,
    eval (query [[0; 1]] [5%Z] false draw3) fresh3
      = Ok (y_hat, conf, Some loss) /\
    0 <= loss /\
    values (exec (query [[0; 1]] [5%Z] false draw3) fresh3) !! s = Some 5%Z /\
    age (exec (query [[0; 1]] [5%Z] false draw3) fresh3) !! s = Some 0.
Proof.
  split; [reflexivity|]. split; [exact wf_single|].
  split; [exact label_5_unseen|].
  apply (query_unseen_label_stores_it fresh3 [0; 1] 5%Z draw3
           wf_fresh3 wf_single label_5_unseen).
Defined.

Lemma mask_away : match_mask stored5 [0; 2]%nat 5%Z = [false; true].
Proof. reflexivity. Qed.

Lemma loss_scores_are_masked_maxima_floored_at_zero_witness :
  wf_memory stored5 /\ wf_query stored5 away_x away_y /\
  fst (topk_of away_x stored5) !! 0%nat = Some [3 / 5; - 3 / 5] /\
  snd (topk_of away_x stored5) !! 0%nat = Some [0; 2]%nat /\
  away_y !! 0%nat = Some 5%Z /\
  In true (match_mask stored5 [0; 2]%nat 5%Z) /\
  In false (match_mask stored5 [0; 2]%nat 5%Z) /\
  exists pmax nmax,
    eval (pos_neg_scores (fst (topk_of away_x stored5))
            (snd (topk_of away_x stored5)) away_y) stored5 =
      Ok (scores_of away_x away_y stored5) /\
    max_list (masked [3 / 5; - 3 / 5] (match_mask stored5 [0; 2]%nat 5%Z))
      = Some pmax /\
    max_list (masked [3 / 5; - 3 / 5]
                (map negb (match_mask stored5 [0; 2]%nat 5%Z))) = Some nmax /\
    fst (scores_of away_x away_y stored5) !! 0%nat = Some (Rmax 0 pmax) /\
    snd (scores_of away_x away_y stored5) !! 0%nat = Some (Rmax 0 nmax).
Proof.
  assert (H1 : fst (topk_of away_x stored5) !! 0%nat
               = Some [3 / 5; - 3 / 5]) by now rewrite topk_of_away.
  assert (H2 : snd (topk_of away_x stored5) !! 0%nat = Some [0; 2]%nat)
    by now rewrite topk_of_away.
  assert (H3 : In true (match_mask stored5 [0; 2]%nat 5%Z))
    by (rewrite mask_away; right; now left).
  assert (H4 : In false (match_mask stored5 [0; 2]%nat 5%Z))
    by (rewrite mask_away; now left).
  split; [reflexivity|]. split; [exact wf_away|]. split; [exact H1|].
  split; [exact H2|]. split; [reflexivity|]. split; [exact H3|].
  split; [exact H4|].
  apply (loss_scores_are_masked_maxima_floored_at_zero stored5 away_x away_y
           0%nat [3 / 5; - 3 / 5] [0; 2]%nat 5%Z
           wf_stored5 wf_away H1 H2 eq_refl H3 H4).
Defined.














(** A blend whose first entry comes from a positive sum is not the vector
    (0, 1). *)
Lemma blend_not_01 (a b c d : R) :
  0 < a + c -> normalize_row (add_row [a; b] [c; d]) <> [0; 1].
Proof.
  intros Hpos H. unfold normalize_row, add_row in H. simpl in H.
  injection H as H _.
  set (n := Rmax _ eps) in H.
  assert (Hn : 0 < n).
  { pose proof (Rmax_r (l2norm [a + c; b + d]) eps) as Hr.
    pose proof eps_pos. unfold n. lra. }
  pose proof (Rdiv_lt_0_compat (a + c) n Hpos Hn). lra.
Qed.



Lemma wf_shared : wf_query fresh3 shared_x shared_y.
Proof. apply wf_query_small; reflexivity. Qed.

Lemma best_slots_shared : best_slots shared_x fresh3 = [0; 0]%nat.
Proof. unfold best_slots. now rewrite topk_of_shared. Qed.

Lemma correct_rows_shared :
  correct_rows shared_x shared_y fresh3 = [0; 1]%nat.
Proof.
  unfold correct_rows, correct_mask_of, predicted.
  now rewrite best_slots_shared.
Qed.

Lemma normalize_crowd :
  normalize crowd_x = [[1; 0]; [4 / 5; 3 / 5]; [0; 1]].
Proof.
  unfold normalize, crowd_x. simpl. now rewrite unit_10, unit_43, unit_01.
Qed.

Lemma topk_of_crowd :
  topk_of crowd_x fresh3 =
  ([[1; 0]; [4 / 5; 3 / 5]; [1; 0]], [[0; 1]; [0; 1]; [1; 0]]%nat).
Proof.
  unfold topk_of. rewrite normalize_crowd.
  unfold matmul_t. simpl. rsort. req.
Qed.

Lemma wf_crowd : wf_query fresh3 crowd_x crowd_y.
Proof. apply wf_query_small; reflexivity. Qed.

Lemma best_slots_crowd : best_slots crowd_x fresh3 = [0; 0; 1]%nat.
Proof. unfold best_slots. now rewrite topk_of_crowd. Qed.

Lemma correct_rows_crowd : correct_rows crowd_x crowd_y fresh3 = [0; 1]%nat.
Proof.
  unfold correct_rows, correct_mask_of, predicted.
  now rewrite best_slots_crowd.
Qed.

Lemma incorrect_rows_crowd : incorrect_rows crowd_x crowd_y fresh3 = [2%nat].
Proof.
  unfold incorrect_rows, correct_mask_of, predicted.
  now rewrite best_slots_crowd.
Qed.

Lemma reinforced_slots_crowd :
  reinforced_slots crowd_x crowd_y fresh3 = [0; 0]%nat.
Proof.
  unfold reinforced_slots. now rewrite best_slots_crowd, correct_rows_crowd.
Qed.

Lemma blended_keys_crowd :
  blended_keys crowd_x crowd_y fresh3 =
  [normalize_row (add_row [1; 0] [1; 0]);
   normalize_row (add_row [1; 0] [4 / 5; 3 / 5])].
Proof.
  unfold blended_keys, blend_sums.
  now rewrite reinforced_slots_crowd, correct_rows_crowd, normalize_crowd.
Qed.

Lemma noisy_ages_crowd :
  noisy_ages crowd_x crowd_y draw3 fresh3 = [0; 2; 3 / 2].
Proof.
  unfold noisy_ages, ages_before_replacement.
  rewrite reinforced_slots_crowd.
  unfold add_row, random_uniform, tabulate, draw3. simpl. req.
Qed.

Lemma replaced_slots_crowd :
  replaced_slots crowd_x crowd_y draw3 fresh3 = [1; 2; 0]%nat.
Proof.
  unfold replaced_slots. rewrite incorrect_rows_crowd, noisy_ages_crowd.
  rsort. reflexivity.
Qed.

(** C10, the counterexample: on [fresh3] the rows (1, 0) and (4/5, 3/5)
    with the label 0 are predicted correctly, both from slot 0, and the row
    (0, 1) with the label 5 is not.  The reinforcement leaves in slot 0 the
    blend of the second row; the replacement then takes three slots, all
    there are, in the order 1, 2, 0 of their noisy ages 2, 3/2 and 0, and
    slot 0 ends with the key (0, 1) of the third row, the blend of no
    row. *)
Lemma shared_slot_taken_by_replacement :
  wf_memory fresh3 /\ wf_query fresh3 crowd_x crowd_y /\
  correct_rows crowd_x crowd_y fresh3 = [0; 1]%nat /\
  best_slots crowd_x fresh3 = [0; 0; 1]%nat /\
  keys_after_reinforce crowd_x crowd_y fresh3 !! 0%nat =
    Some (normalize_row (add_row [1; 0] [4 / 5; 3 / 5])) /\
  replaced_slots crowd_x crowd_y draw3 fresh3 = [1; 2; 0]%nat /\
  keys (exec (query crowd_x crowd_y false draw3) fresh3) =
    [[0; 1]; [1; 0]; [4 / 5; 3 / 5]] /\
  ~ shared_slot_ends_blended fresh3 crowd_x crowd_y draw3.
Proof.
  assert (Hkeys : keys (exec (query crowd_x crowd_y false draw3) fresh3)
                  = [[0; 1]; [1; 0]; [4 / 5; 3 / 5]]).
  { unfold exec. rewrite (query_unfold _ _ _ _ _ wf_fresh3 wf_crowd).
    unfold after_query, keys_after_reinforce. cbn [snd keys].
    rewrite reinforced_slots_crowd, replaced_slots_crowd, normalize_crowd.
    rewrite blended_keys_crowd. reflexivity. }
  split; [exact wf_fresh3|]. split; [exact wf_crowd|].
  split; [exact correct_rows_crowd|]. split; [exact best_slots_crowd|].
  split.
  { unfold keys_after_reinforce.
    rewrite reinforced_slots_crowd, blended_keys_crowd. reflexivity. }
  split; [exact replaced_slots_crowd|]. split; [exact Hkeys|].
  intros Hclaim.
  destruct (Hclaim 0%nat 0%nat 1%nat) as (r & k & q & Hr & _ & Hk & Hq & Hend).
  - lia.
  - rewrite correct_rows_crowd. now left.
  - rewrite correct_rows_crowd. right. now left.
  - now rewrite best_slots_crowd.
  - now rewrite best_slots_crowd.
  - assert (Hk' : Some [1; 0] = Some k) by exact Hk.
    assert (k = [1; 0]) by congruence. subst k.
    rewrite Hkeys in Hend.
    assert (Hend' : Some [0; 1] = Some (normalize_row (add_row [1; 0] q)))
      by exact Hend.
    assert (Hb : normalize_row (add_row [1; 0] q) = [0; 1]) by congruence.
    rewrite normalize_crowd, correct_rows_crowd in *.
    destruct Hr as [<-|[<-|[]]].
    + assert (Hq' : Some [1; 0] = Some q) by exact Hq.
      assert (q = [1; 0]) by congruence. subst q.
      revert Hb. apply blend_not_01. lra.
    + assert (Hq' : Some [4 / 5; 3 / 5] = Some q) by exact Hq.
      assert (q = [4 / 5; 3 / 5]) by congruence. subst q.
      revert Hb. apply blend_not_01. lra.
Qed.

Lemma normalize_shared : normalize shared_x = [[1; 0]; [4 / 5; 3 / 5]].
Proof. unfold normalize, shared_x. simpl. now rewrite unit_10, unit_43. Qed.

Lemma shared_slot_keeps_last_blend_witness :
  wf_memory fresh3 /\ wf_query fresh3 shared_x shared_y /\
  0%nat <> 1%nat /\
  In 0%nat (correct_rows shared_x shared_y fresh3) /\
  In 1%nat (correct_rows shared_x shared_y fresh3) /\
  best_slots shared_x fresh3 !! 0%nat = Some 0%nat /\
  best_slots shared_x fresh3 !! 1%nat = Some 0%nat /\
  keys_after_reinforce shared_x shared_y fresh3 !! 0%nat =
    Some (normalize_row (add_row [1; 0] [4 / 5; 3 / 5])) /\
  keys (exec (query shared_x shared_y false draw3) fresh3) !! 0%nat =
    Some (normalize_row (add_row [1; 0] [4 / 5; 3 / 5])).
Proof.
  assert (H0 : In 0%nat (correct_rows shared_x shared_y fresh3))
    by (rewrite correct_rows_shared; now left).
  assert (H1 : In 1%nat (correct_rows shared_x shared_y fresh3))
    by (rewrite correct_rows_shared; right; now left).
  assert (Hb0 : best_slots shared_x fresh3 !! 0%nat = Some 0%nat)
    by now rewrite best_slots_shared.
  assert (Hb1 : best_slots shared_x fresh3 !! 1%nat = Some 0%nat)
    by now rewrite best_slots_shared.
  assert (Hne : 0%nat <> 1%nat) by lia.
  split; [reflexivity|]. split; [exact wf_shared|]. split; [exact Hne|].
  split; [exact H0|]. split; [exact H1|]. split; [exact Hb0|].
  split; [exact Hb1|].
  destruct (shared_slot_keeps_last_blend fresh3 shared_x shared_y false draw3
              0%nat 0%nat 1%nat wf_fresh3 wf_shared Hne H0 H1 Hb0 Hb1)
    as (r & k & q & Hr & _ & Hlast & Hk & Hq & Hafter & _ & Hend).
  pose proof (Hlast 1%nat H1 Hb1) as Hle.
  rewrite correct_rows_shared in Hr.
  assert (Hr1 : r = 1%nat) by (destruct Hr as [<-|[<-|[]]]; lia).
  subst r.
  assert (Hk' : Some [1; 0] = Some k) by exact Hk.
  assert (Hkk : k = [1; 0]) by congruence. subst k.
  rewrite normalize_shared in Hq.
  assert (Hq' : Some [4 / 5; 3 / 5] = Some q) by exact Hq.
  assert (Hqq : q = [4 / 5; 3 / 5]) by congruence. subst q.
  split; [exact Hafter|]. apply Hend.
  unfold replaced_slots, incorrect_rows, correct_mask_of, predicted.
  rewrite best_slots_shared. simpl. tauto.
Defined.

Lemma init_built3 : init 3 2 2 1 8 0.1 randn3 = Ok built3.
Proof.
  unfold init. simpl orb. cbv iota. change (2 =? 0)%nat with false.
  cbv iota. destruct (Req_dec_T 1 0) as [H|_]; [lra|]. reflexivity.
Qed.

Lemma randn3_conditioned (i : nat) :
  (i < 3)%nat -> eps <= l2norm (tabulate 2 (randn3 i)).
Proof.
  intros Hi. pose proof eps_le_1 as He.
  destruct i as [|[|[|i]]]; [| | |lia]; unfold tabulate, randn3; simpl;
    rewrite (l2norm_of_square _ 1) by (simpl; lra); exact He.
Qed.

Lemma wf_built3 : wf_memory built3.
Proof. reflexivity. Qed.

Lemma built3_calls_conditioned :
  conditioned built3 [Predict mixed_x; Query [[0; 1]] [5%Z] false draw3].
Proof.
  simpl. split; trivial. split; [|trivial].
  change (exec (predict mixed_x) built3)
    with (run_call (Predict mixed_x) built3).
  unfold run_call. rewrite predict_frame. split; [reflexivity|]. split.
  - constructor; [|constructor].
    rewrite (l2norm_of_square _ 1) by (simpl; lra). apply eps_le_1.
  - assert (Hc : correct_rows [[0; 1]] [5%Z] built3 = []).
    { assert (Hx : wf_predict built3 [[0; 1]]) by reflexivity.
      pose proof (length_best_slots built3 [[0; 1]] wf_built3 Hx) as Hl.
      unfold correct_rows, correct_mask_of, predicted.
      destruct (best_slots [[0; 1]] built3) as [|s [|? ?]];
        try discriminate.
      now destruct s as [|[|[|[|s]]]]. }
    unfold blend_sums, reinforced_slots. rewrite Hc. constructor.
Qed.

Lemma keys_unit_norm_when_conditioned_witness :
  init 3 2 2 1 8 0.1 randn3 = Ok built3 /\
  (forall i, (i < 3)%nat -> eps <= l2norm (tabulate 2 (randn3 i))) /\
  conditioned built3 [Predict mixed_x; Query [[0; 1]] [5%Z] false draw3] /\
  Forall (fun key => l2norm key = 1)
    (keys (run (firstn 2 [Predict mixed_x; Query [[0; 1]] [5%Z] false draw3])
               built3)).
Proof.
  split; [exact init_built3|]. split; [exact randn3_conditioned|].
  split; [exact built3_calls_conditioned|].
  apply (keys_unit_norm_when_conditioned 3 2 2 1 8 0.1 randn3 built3
           [Predict mixed_x; Query [[0; 1]] [5%Z] false draw3] 2
           init_built3 randn3_conditioned built3_calls_conditioned).
Defined.

(** * Further properties of the code *)

(** ** The helpers of the module *)

Lemma concat_rectangular {A : Type} (x : list (list A)) (cols : nat) :
  Forall (fun r => length r = cols) x ->
  length (concat x) = (length x * cols)%nat.
Proof.
  induction 1 as [|r x Hr _ IH]; simpl; trivial.
  rewrite length_app, IH, Hr. reflexivity.
Qed.

Lemma resize2_concat {A : Type} (x : list (list A)) (cols : nat) :
  Forall (fun r => length r = cols) x ->
  resize2 (length x) cols (concat x) = x.
Proof.
  induction 1 as [|r x Hr _ IH]; simpl; trivial.
  replace (firstn cols (r ++ concat x)) with r
    by (rewrite <- Hr; symmetry; apply take_app_length).
  replace (skipn cols (r ++ concat x)) with (concat x)
    by (rewrite <- Hr; symmetry; apply drop_app_length).
  now rewrite IH.
Qed.

Lemma multiply_size {A : Type} (t : tensor2 A) :
  multiply (size_of t) = (size0 t * size1 t)%nat.
Proof. unfold multiply, size_of. simpl. lia. Qed.

(** [flatten] reads the storage in its order. *)
Lemma flatten_storage {A : Type} (junk : nat -> A) (t : tensor2 A) :
  (t_offset t + size0 t * size1 t <= length (t_storage t))%nat ->
  flatten junk t = firstn (size0 t * size1 t) (skipn (t_offset t) (t_storage t)).
Proof.
  intros H. unfold flatten, resize1. rewrite multiply_size.
  rewrite firstn_app.
  replace (size0 t * size1 t - length (skipn (t_offset t) (t_storage t)))%nat
    with 0%nat by (rewrite length_skipn; lia).
  simpl. apply app_nil_r.
Qed.

Lemma size_contiguous {A : Type} (x : list (list A)) (cols : nat) :
  Forall (fun r => length r = cols) x ->
  (size0 (contiguous x) * size1 (contiguous x))%nat = length (concat x).
Proof.
  intros H. rewrite (concat_rectangular x cols H). simpl.
  destruct H as [|r x Hr _]; simpl; [reflexivity|]. now rewrite Hr.
Qed.

Lemma flatten_concat {A : Type} (junk : nat -> A) (x : list (list A))
    (cols : nat) :
  Forall (fun r => length r = cols) x -> flatten junk (contiguous x) = concat x.
Proof.
  intros Hcols. pose proof (size_contiguous x cols Hcols) as Hs.
  rewrite flatten_storage by (simpl in *; lia).
  rewrite Hs. simpl. apply firstn_all.
Qed.

Lemma flatten_transpose {A : Type} (junk : nat -> A) (x : list (list A))
    (cols : nat) :
  Forall (fun r => length r = cols) x ->
  flatten junk (transpose (contiguous x)) = concat x.
Proof.
  intros Hcols. pose proof (size_contiguous x cols Hcols) as Hs.
  rewrite flatten_storage by (simpl in *; lia).
  simpl in *. rewrite Nat.mul_comm, Hs. apply firstn_all.
Qed.

Lemma nth_concat_rectangular {A : Type} (d : A) (x : list (list A))
    (cols i j : nat) :
  Forall (fun r => length r = cols) x -> (j < cols)%nat ->
  nth (i * cols + j) (concat x) d = nth j (nth i x []) d.
Proof.
  intros H Hj. revert i. induction H as [|r x Hr _ IH]; intros i.
  - simpl. destruct i, j; simpl; trivial; now destruct (_ + _)%nat.
  - destruct i as [|i]; simpl.
    + rewrite app_nth1 by lia. reflexivity.
    + rewrite app_nth2 by lia.
      replace (cols + i * cols + j - length r)%nat with (i * cols + j)%nat
        by lia.
      apply IH.
Qed.

Lemma tabulate_nth {A : Type} (d : A) (n : nat) (f : nat -> A)
    (l : list A) :
  length l = n -> (forall j, (j < n)%nat -> f j = nth j l d) ->
  tabulate n f = l.
Proof.
  intros Hl Hf. unfold tabulate. apply nth_ext with (d := f 0%nat) (d' := d).
  - rewrite length_map, length_seq. lia.
  - intros j Hj. rewrite length_map, length_seq in Hj.
    rewrite (map_nth f (seq 0 n) 0%nat j), seq_nth by trivial.
    now apply Hf.
Qed.

(** The tensor made from rows of one length shows these rows. *)
Lemma entries_contiguous {A : Type} (d : A) (x : list (list A)) (cols : nat) :
  Forall (fun r => length r = cols) x -> entries d (contiguous x) = x.
Proof.
  intros H. unfold entries. simpl.
  apply (tabulate_nth []); [reflexivity|]. intros i Hi.
  assert (Hhd : length (hd [] x) = cols).
  { destruct H; [simpl in Hi; lia|trivial]. }
  assert (Hr : length (nth i x []) = cols).
  { rewrite List.Forall_forall in H. now apply H, nth_In. }
  rewrite Hhd. apply (tabulate_nth d); [exact Hr|]. intros j Hj.
  rewrite Nat.mul_1_r. now apply nth_concat_rectangular.
Qed.

(** [flatten] of a tensor made from its rows returns every entry, row
    after row, and [resize_] to the shape the tensor had gives the rows
    back.  [flatten] reads the storage in its order: the transposed tensor
    is returned in the same order, not row by row. *)
Theorem flatten_resize_round_trip {A : Type} (d : A) (junk : nat -> A)
    (x : list (list A)) (rows cols : nat) :
  length x = rows -> Forall (fun r => length r = cols) x ->
  entries d (contiguous x) = x /\
  flatten junk (contiguous x) = concat x /\
  length (flatten junk (contiguous x)) = (rows * cols)%nat /\
  resize2 rows cols (flatten junk (contiguous x)) = x /\
  flatten junk (transpose (contiguous x)) = concat x.
Proof.
  intros Hrows Hcols. split; [now apply entries_contiguous with cols|].
  rewrite (flatten_concat junk x cols Hcols), (concat_rectangular x cols Hcols),
    <- Hrows.
  repeat split; trivial; [now apply resize2_concat|].
  now apply flatten_transpose with cols.
Qed.

Lemma index_select_concat {A : Type} (d : A) (vals : list A)
    (t : list (list nat)) :
  index_select d vals (concat t) = concat (map (index_select d vals) t).
Proof.
  unfold index_select. induction t as [|r t IH]; simpl; trivial.
  now rewrite map_app, IH.
Qed.

(** Lines 113-115 of [query]: gathering the values at the flattened slots
    and resizing to [batch_size x top_k] gives, row by row, the values of
    the slots of the row.  The slots are the tensor [torch.topk] returned,
    made from its rows. *)
Theorem gather_flat_resize {A : Type} (d : A) (vals : list A)
    (junk : nat -> nat) (topk_indices : list (list nat))
    (batch_size k : nat) :
  length topk_indices = batch_size ->
  Forall (fun r => length r = k) topk_indices ->
  resize2 batch_size k
    (index_select d vals (flatten junk (contiguous topk_indices))) =
  map (index_select d vals) topk_indices.
Proof.
  intros Hb Hk. rewrite (flatten_concat junk topk_indices k Hk).
  rewrite index_select_concat, <- Hb, <- (length_map (index_select d vals)).
  apply resize2_concat. apply List.Forall_forall. intros r Hr.
  apply in_map_iff in Hr as (r' & <- & Hr'). unfold index_select.
  rewrite length_map. rewrite List.Forall_forall in Hk. now apply Hk.
Qed.

(** [index] puts its number in front of every row, and raises when [x] has
    another number of rows than [batch_size]. *)
Theorem index_rows (batch_size : nat) (x : list (list nat)) :
  (length x <> batch_size -> index batch_size x = Raise RuntimeError) /\
  (length x = batch_size ->
   exists t, index batch_size x = Ok t /\ length t = batch_size /\
     map (fun r => hd 0%nat r) t = seq 0 batch_size /\
     map (fun r => tl r) t = x /\
     forall i r, x !! i = Some r -> t !! i = Some (i :: r)).
Proof.
  unfold index. split.
  - intros Hne. apply Nat.eqb_neq in Hne. now rewrite Hne.
  - intros <-. rewrite Nat.eqb_refl. eexists. split; [reflexivity|].
    assert (H : forall n,
      length (map (fun ir : nat * list nat => fst ir :: snd ir)
                  (combine (seq n (length x)) x)) = length x /\
      map (fun r => hd 0%nat r)
          (map (fun ir : nat * list nat => fst ir :: snd ir)
               (combine (seq n (length x)) x)) = seq n (length x) /\
      map (fun r => tl r)
          (map (fun ir : nat * list nat => fst ir :: snd ir)
               (combine (seq n (length x)) x)) = x /\
      forall i r, x !! i = Some r ->
        map (fun ir : nat * list nat => fst ir :: snd ir)
            (combine (seq n (length x)) x) !! i = Some ((n + i)%nat :: r)).
    { induction x as [|r x IH]; intros n; simpl.
      - repeat split; trivial. intros i r H. discriminate.
      - destruct (IH (S n)) as (H1 & H2 & H3 & H4).
        rewrite H1, H2, H3. repeat split; trivial.
        intros [|i] r' Hr'; simpl in *.
        + injection Hr' as <-. now rewrite Nat.add_0_r.
        + rewrite (H4 i r' Hr'). do 2 f_equal. lia. }
    destruct (H 0%nat) as (H1 & H2 & H3 & H4). repeat split; trivial.
Qed.

(** ** [random_uniform] *)

(** The draws of [random_uniform] lie between [low] and [high], [high]
    left out, when [torch.rand] draws from the interval [0, 1). *)
Theorem random_uniform_range (n : nat) (low high : R) (rand : nat -> R) :
  low < high -> (forall i, (i < n)%nat -> 0 <= rand i < 1) ->
  length (random_uniform n low high rand) = n /\
  Forall (fun a => low <= a < high) (random_uniform n low high rand).
Proof.
  intros Hlh Hrand. unfold random_uniform, tabulate.
  rewrite length_map, length_seq. split; trivial.
  apply List.Forall_forall. intros a Ha.
  apply in_map_iff in Ha as (i & <- & Hi). apply in_seq in Hi.
  destruct (Hrand i) as [H0 H1]; [lia|]. split; nra.
Qed.

(** ** [MemoryLoss] *)

Lemma Rsum_zero_iff (l : list R) :
  Forall (fun a => 0 <= a) l -> (Rsum l = 0 <-> Forall (fun a => a = 0) l).
Proof.
  induction 1 as [|a l Ha Hl IH]; simpl.
  - split; trivial.
  - pose proof (Rsum_nonneg l Hl) as Hs. split.
    + intros H. constructor; [lra|]. apply IH. lra.
    + intros H. inversion H as [|? ? H0 Hr]; subst.
      apply IH in Hr. lra.
Qed.

(** The loss of a batch is zero exactly when in every row the positive score
    is above the negative score by the margin at least. *)
Theorem MemoryLoss_zero_iff (positive negative : list R) (mg : R) :
  length positive = length negative -> positive <> [] ->
  exists l,
    MemoryLoss positive negative mg = Ok l /\
    (l = 0 <->
     Forall (fun pn : R * R => snd pn + mg <= fst pn)
            (combine positive negative)).
Proof.
  intros Hlen Hne. unfold MemoryLoss. rewrite Hlen, Nat.eqb_refl.
  eexists. split; [reflexivity|].
  set (h := fun pn : R * R => Rmax (snd pn - fst pn + mg) 0).
  assert (Hn : 0 < INR (length (map h (combine positive negative)))).
  { apply lt_0_INR. rewrite length_map, length_combine, <- Hlen.
    destruct positive; simpl; [easy|lia]. }
  assert (Hpos : Forall (fun a => 0 <= a) (map h (combine positive negative))).
  { apply List.Forall_forall. intros a Ha.
    apply in_map_iff in Ha as (pn & <- & _). apply Rmax_r. }
  split.
  - intros H0.
    assert (Hs : Rsum (map h (combine positive negative)) = 0).
    { apply Rmult_eq_reg_r with (/ INR (length (map h (combine positive negative)))).
      - unfold Rdiv in H0. rewrite H0. lra.
      - apply Rinv_neq_0_compat. lra. }
    apply (Rsum_zero_iff _ Hpos) in Hs.
    rewrite List.Forall_forall in Hs. apply List.Forall_forall.
    intros pn Hpn. specialize (Hs (h pn) (in_map h _ _ Hpn)).
    unfold h in Hs. pose proof (Rmax_l (snd pn - fst pn + mg) 0). lra.
  - intros Hall.
    assert (Hs : Rsum (map h (combine positive negative)) = 0).
    { apply (Rsum_zero_iff _ Hpos). apply List.Forall_forall. intros a Ha.
      apply in_map_iff in Ha as (pn & <- & Hpn).
      rewrite List.Forall_forall in Hall. specialize (Hall pn Hpn).
      unfold h. apply Rmax_right. lra. }
    rewrite Hs. unfold Rdiv. apply Rmult_0_l.
Qed.

Lemma Rsum_le (f g : R * R -> R) (l : list (R * R)) :
  (forall a, f a <= g a) -> Rsum (map f l) <= Rsum (map g l).
Proof.
  intros H. induction l as [|a l IH]; simpl; [lra|]. specialize (H a). lra.
Qed.

(** A larger margin never gives a smaller loss. *)
Theorem MemoryLoss_monotone_in_margin (positive negative : list R)
    (mg1 mg2 : R) :
  length positive = length negative -> positive <> [] -> mg1 <= mg2 ->
  exists l1 l2,
    MemoryLoss positive negative mg1 = Ok l1 /\
    MemoryLoss positive negative mg2 = Ok l2 /\ l1 <= l2.
Proof.
  intros Hlen _ Hmg. unfold MemoryLoss. rewrite Hlen, Nat.eqb_refl.
  eexists _, _. split; [reflexivity|]. split; [reflexivity|].
  rewrite !length_map. unfold Rdiv. apply Rmult_le_compat_r.
  - destruct (combine positive negative) as [|pn l]; simpl length.
    + simpl. rewrite Rinv_0. lra.
    + apply Rlt_le, Rinv_0_lt_compat, lt_0_INR. lia.
  - apply Rsum_le. intros pn. unfold Rmax.
    repeat destruct (Rle_dec _ _); lra.
Qed.

(** ** [__init__] *)

(** With sizes that are not zero, [__init__] raises [ValueError] for a
    [top_k] of zero and [ZeroDivisionError] for an [inverse_temp] of zero;
    otherwise it builds a well-formed memory whose values and ages are zero,
    whose [top_k] is not above the number of slots and whose temperature is
    1 at least. *)
Theorem init_outcomes (n d k : nat) (it an mg : R)
    (randn : nat -> nat -> R) :
  n <> 0%nat -> d <> 0%nat ->
  (k = 0%nat -> init n d k it an mg randn = Raise ValueError) /\
  (k <> 0%nat -> it = 0 ->
   init n d k it an mg randn = Raise ZeroDivisionError) /\
  (k <> 0%nat -> it <> 0 ->
   exists m, init n d k it an mg randn = Ok m /\ wf_memory m /\
     (top_k m <= n)%nat /\ (top_k m <= k)%nat /\
     1 <= softmax_temperature m /\
     Forall (fun v => v = 0%Z) (values m) /\ Forall (fun a => a = 0) (age m)).
Proof.
  intros Hn Hd. unfold init.
  apply Nat.eqb_neq in Hn, Hd. rewrite Hn, Hd. simpl orb. cbv iota.
  repeat split.
  - intros ->. reflexivity.
  - intros Hk ->. apply Nat.eqb_neq in Hk. rewrite Hk.
    destruct (Req_dec_T 0 0) as [_|H]; [reflexivity|easy].
  - intros Hk Hit. pose proof Hk as Hk'. apply Nat.eqb_neq in Hk'.
    rewrite Hk'. destruct (Req_dec_T it 0) as [H|_]; [easy|].
    eexists. split; [reflexivity|].
    split.
    { apply (init_wf n d k it an mg randn). unfold init.
      rewrite Hn, Hd, Hk'. simpl.
      destruct (Req_dec_T it 0) as [H|_]; [easy|reflexivity]. }
    simpl. repeat split.
    + apply Nat.le_min_r.
    + apply Nat.le_min_l.
    + apply Rmax_l.
    + apply List.Forall_forall. intros v Hv. now apply repeat_spec in Hv.
    + apply List.Forall_forall. intros v Hv. now apply repeat_spec in Hv.
Qed.

(** ** The confidence *)

Lemma Rdiv_le_1 (a s : R) : 0 < s -> a <= s -> a / s <= 1.
Proof.
  intros Hs Ha. apply Rmult_le_reg_r with s; trivial.
  unfold Rdiv. rewrite Rmult_assoc, Rinv_l; lra.
Qed.

Lemma Rsum_exp_pos (v : vec) : v <> [] -> 0 < Rsum (map exp v).
Proof.
  destruct v as [|a v]; [easy|]. intros _. simpl.
  assert (H : 0 <= Rsum (map exp v)).
  { apply Rsum_nonneg, List.Forall_forall. intros b Hb.
    apply in_map_iff in Hb as (c & <- & _). apply Rlt_le, exp_pos. }
  pose proof (exp_pos a). lra.
Qed.

Lemma Rsum_scaled (c : R) (l : list R) :
  Rsum (map (fun a => a / c) l) = Rsum l / c.
Proof.
  induction l as [|a l IH]; simpl; [unfold Rdiv; now rewrite Rmult_0_l|].
  rewrite IH. unfold Rdiv. ring.
Qed.

Lemma softmax_row_exp (v : vec) :
  softmax_row v = map (fun e => e / Rsum (map exp v)) (map exp v).
Proof. unfold softmax_row. now rewrite map_map. Qed.

(** A row of the softmax is a distribution: positive entries, not above 1,
    that sum to 1. *)
Lemma softmax_row_distribution (v : vec) :
  v <> [] ->
  length (softmax_row v) = length v /\
  Rsum (softmax_row v) = 1 /\
  Forall (fun c => 0 < c <= 1) (softmax_row v).
Proof.
  intros Hv. pose proof (Rsum_exp_pos v Hv) as Hs.
  split; [apply length_map|]. split.
  - rewrite softmax_row_exp, Rsum_scaled. field. lra.
  - unfold softmax_row. apply List.Forall_forall. intros c Hc.
    apply in_map_iff in Hc as (a & <- & Ha).
    assert (Hle : exp a <= Rsum (map exp v)).
    { clear -Ha. induction v as [|b v IH]; [easy|]. simpl.
      assert (H : 0 <= Rsum (map exp v)).
      { apply Rsum_nonneg, List.Forall_forall. intros c Hc.
        apply in_map_iff in Hc as (d & <- & _). apply Rlt_le, exp_pos. }
      destruct Ha as [->|Ha]; [lra|]. specialize (IH Ha).
      pose proof (exp_pos b). lra. }
    pose proof (exp_pos a). split.
    + apply Rdiv_lt_0_compat; lra.
    + apply Rdiv_le_1; lra.
Qed.

(** [predict] returns one label per row and, per row, a distribution over
    the [top_k] candidates. *)
Theorem predict_returns_distributions (m : Memory) (x : matrix) :
  wf_memory m -> wf_predict m x ->
  exists y_hat conf,
    eval (predict x) m = Ok (y_hat, conf) /\
    length y_hat = length x /\ length conf = length x /\
    Forall (fun row => length row = top_k m /\ Rsum row = 1 /\
                       Forall (fun c => 0 < c <= 1) row) conf.
Proof.
  intros Hm Hx. unfold eval. rewrite (predict_unfold m x Hm Hx). simpl.
  eexists _, _. split; [reflexivity|].
  destruct (topk_of_spec m x Hm Hx) as (_ & Hlv & Hli & _).
  split; [now apply length_predicted|].
  split; [unfold softmax; now rewrite !length_map|].
  apply List.Forall_forall. intros row Hrow. unfold softmax in Hrow.
  apply in_map_iff in Hrow as (sr & <- & Hsr).
  apply in_map_iff in Hsr as (v & <- & Hv).
  apply list_elem_of_In, list_elem_of_lookup in Hv as [i Hv].
  assert (Hix : is_Some (snd (topk_of x m) !! i)).
  { apply lookup_lt_is_Some. apply lookup_lt_Some in Hv. lia. }
  destruct Hix as [ix Hix].
  destruct (topk_of_rows m x i v ix Hm Hx Hv Hix) as (q & _ & _ & Hl & _).
  assert (Hne : map (Rmult (softmax_temperature m)) v <> []).
  { apply wf_memory_spec in Hm as (_ & _ & _ & Hpos & _).
    destruct v; simpl in *; [lia|easy]. }
  destruct (softmax_row_distribution _ Hne) as (H1 & H2 & H3).
  rewrite length_map in H1. repeat split; trivial. lia.
Qed.

Lemma sorted_map_mono (f : R -> R) (l : list R) :
  (forall a b, b <= a -> f b <= f a) ->
  StronglySorted (fun a b => b <= a) l ->
  StronglySorted (fun a b => b <= a) (map f l).
Proof.
  intros Hf. induction 1 as [|a l Hl IH Ha]; simpl; constructor; trivial.
  rewrite List.Forall_forall in Ha. apply List.Forall_forall.
  intros b Hb. apply in_map_iff in Hb as (c & <- & Hc). now apply Hf, Ha.
Qed.

(** With a temperature that is not negative the confidence of every row
    goes down along the row: the best slot has the largest confidence. *)
Theorem confidence_goes_down (m : Memory) (x : matrix) :
  wf_memory m -> wf_predict m x -> 0 <= softmax_temperature m ->
  exists y_hat conf,
    eval (predict x) m = Ok (y_hat, conf) /\
    Forall (StronglySorted (fun a b => b <= a)) conf.
Proof.
  intros Hm Hx Ht. unfold eval. rewrite (predict_unfold m x Hm Hx). simpl.
  eexists _, _. split; [reflexivity|].
  apply List.Forall_forall. intros row Hrow. unfold softmax in Hrow.
  apply in_map_iff in Hrow as (sr & <- & Hsr).
  apply in_map_iff in Hsr as (v & <- & Hv).
  apply list_elem_of_In, list_elem_of_lookup in Hv as [i Hv].
  assert (Hix : is_Some (snd (topk_of x m) !! i)).
  { destruct (topk_of_spec m x Hm Hx) as (_ & Hlv & Hli & _).
    apply lookup_lt_is_Some. apply lookup_lt_Some in Hv. lia. }
  destruct Hix as [ix Hix].
  destruct (topk_of_rows m x i v ix Hm Hx Hv Hix) as (q & _ & Htop & Hl & _).
  pose proof (topk_sorted _ _ _ _ Htop) as Hsorted.
  assert (Hne : map (Rmult (softmax_temperature m)) v <> []).
  { apply wf_memory_spec in Hm as (_ & _ & _ & Hpos & _).
    destruct v; simpl in *; [lia|easy]. }
  pose proof (Rsum_exp_pos _ Hne) as Hs.
  rewrite softmax_row_exp.
  apply sorted_map_mono.
  { intros a b Hab. unfold Rdiv. apply Rmult_le_compat_r; trivial.
    apply Rlt_le, Rinv_0_lt_compat, Hs. }
  apply sorted_map_mono.
  { intros a b Hab. destruct Hab as [Hab|Hab];
      [left; now apply exp_increasing|right; now rewrite Hab]. }
  apply sorted_map_mono; trivial.
  intros a b Hab. now apply Rmult_le_compat_l.
Qed.

(** ** The neighbour search *)

(** For every row the search returns [top_k] different slots of the memory
    with the similarities of their keys, largest first, and no slot it
    leaves out has a larger similarity than one it returns. *)
Theorem neighbors_are_nearest (m : Memory) (x : matrix) (i : nat) (q : vec) :
  wf_memory m -> wf_predict m x -> normalize x !! i = Some q ->
  exists sims slots,
    eval (neighbors x) m =
      Ok (normalize x, fst (topk_of x m), snd (topk_of x m),
          best_slots x m, predicted x m) /\
    fst (topk_of x m) !! i = Some sims /\
    snd (topk_of x m) !! i = Some slots /\
    length sims = top_k m /\ length slots = top_k m /\
    List.NoDup slots /\
    Forall (fun s => (s < memory_size m)%nat) slots /\
    Forall2 (fun a s => exists k, keys m !! s = Some k /\ a = dot q k)
            sims slots /\
    StronglySorted (fun a b => b <= a) sims /\
    forall s k, keys m !! s = Some k -> ~ In s slots ->
                Forall (fun a => dot q k <= a) sims.
Proof.
  intros Hm Hx Hq.
  destruct (topk_of_spec m x Hm Hx) as (_ & Hlv & Hli & Hrows).
  destruct (Hrows i q Hq) as (v & ix & Ht & Hv & Hix).
  destruct (topk_of_rows m x i v ix Hm Hx Hv Hix)
    as (q' & Hq' & _ & H1 & H2 & H3 & H4 & H5).
  rewrite Hq in Hq'. injection Hq' as <-.
  exists v, ix. unfold eval. rewrite (neighbors_ok m x Hm Hx). simpl.
  repeat split; trivial.
  - clear -H5. induction H5 as [|a s v ix Ha _ IH]; constructor; trivial.
    rewrite lookup_map in Ha.
    destruct (keys m !! s) as [k|]; [|discriminate].
    injection Ha as <-. now exists k.
  - now apply (topk_sorted _ _ _ _ Ht).
  - intros s k Hk Hout. apply List.Forall_forall. intros a Ha.
    apply (topk_largest _ _ _ _ Ht s (dot q k)); trivial.
    now rewrite lookup_map, Hk.
Qed.

(** ** Similarities are cosines *)

Lemma dot_sub_square (u v : vec) :
  length u = length v ->
  0 <= dot u u - 2 * dot u v + dot v v /\
  0 <= dot u u + 2 * dot u v + dot v v.
Proof.
  revert v. induction u as [|a u IH]; intros [|b v] Hlen; simpl in *;
    try discriminate; [lra|].
  injection Hlen as Hlen. destruct (IH v Hlen) as [H1 H2].
  pose proof (Rle_0_sqr (a - b)) as Hm. pose proof (Rle_0_sqr (a + b)) as Hp.
  unfold Rsqr in *. split; nra.
Qed.

Lemma dot_bound (u v : vec) :
  length u = length v -> dot u u <= 1 -> dot v v <= 1 ->
  -1 <= dot u v <= 1.
Proof.
  intros Hlen Hu Hv. destruct (dot_sub_square u v Hlen) as [H1 H2]. lra.
Qed.

Lemma normalize_row_short (v : vec) :
  dot (normalize_row v) (normalize_row v) <= 1.
Proof.
  unfold normalize_row. pose proof eps_pos as He.
  assert (Hd : 0 < Rmax (l2norm v) eps).
  { pose proof (Rmax_r (l2norm v) eps). lra. }
  rewrite dot_scaled by lra.
  apply Rdiv_le_1; [nra|].
  pose proof (dot_self_nonneg v) as Hn.
  pose proof (Rmax_l (l2norm v) eps) as Hl.
  assert (Hsq : l2norm v * l2norm v = dot v v).
  { unfold l2norm. now apply sqrt_sqrt. }
  assert (H0 : 0 <= l2norm v) by apply sqrt_pos.
  nra.
Qed.

(** When the stored keys have norm 1 every similarity the search returns
    lies between -1 and 1, whatever the query. *)
Theorem similarities_are_cosines (m : Memory) (x : matrix) :
  wf_memory m -> wf_predict m x -> unit_keys m ->
  exists q sims slots best y_hat,
    eval (neighbors x) m = Ok (q, sims, slots, best, y_hat) /\
    Forall (Forall (fun a => -1 <= a <= 1)) sims.
Proof.
  intros Hm Hx Hu. unfold eval. rewrite (neighbors_ok m x Hm Hx).
  eexists _, _, _, _, _. split; [reflexivity|].
  apply List.Forall_forall. intros v Hv.
  apply list_elem_of_In, list_elem_of_lookup in Hv as [i Hv].
  assert (Hix : is_Some (snd (topk_of x m) !! i)).
  { destruct (topk_of_spec m x Hm Hx) as (_ & Hlv & Hli & _).
    apply lookup_lt_is_Some. apply lookup_lt_Some in Hv. lia. }
  destruct Hix as [ix Hix].
  destruct (topk_of_rows m x i v ix Hm Hx Hv Hix)
    as (q & Hq & _ & _ & _ & _ & _ & Hval).
  pose proof Hm as Hm'. apply wf_memory_spec in Hm' as (Hk & _).
  apply is_tensor2_spec in Hk as (_ & _ & _ & Hkrows).
  unfold wf_predict in Hx. apply is_tensor2_spec in Hx as (_ & _ & _ & Hxrows).
  assert (Hql : length q = key_dim m).
  { unfold normalize in Hq. rewrite lookup_map in Hq.
    destruct (x !! i) as [r|] eqn:Hr; [|discriminate]. injection Hq as <-.
    rewrite length_normalize_row. rewrite List.Forall_forall in Hxrows.
    apply Hxrows, list_elem_of_In. now apply list_elem_of_lookup_2 with i. }
  assert (Hqs : dot q q <= 1).
  { unfold normalize in Hq. rewrite lookup_map in Hq.
    destruct (x !! i) as [r|]; [|discriminate]. injection Hq as <-.
    apply normalize_row_short. }
  clear Hv Hix. induction Hval as [|a s v ix Ha _ IH]; constructor; trivial.
  rewrite lookup_map in Ha.
  destruct (keys m !! s) as [k|] eqn:Hks; [|discriminate].
  injection Ha as <-.
  assert (Hin : In k (keys m)).
  { apply list_elem_of_In. now apply list_elem_of_lookup_2 with s. }
  apply dot_bound; trivial.
  - rewrite List.Forall_forall in Hkrows. rewrite (Hkrows k Hin). exact Hql.
  - unfold unit_keys in Hu. rewrite List.Forall_forall in Hu.
    specialize (Hu k Hin). unfold l2norm in Hu.
    rewrite <- (sqrt_sqrt (dot k k)) by apply dot_self_nonneg.
    rewrite Hu. lra.
Qed.

(** ** The scale of a query *)

Lemma dot_map_mult (c : R) (u v : vec) :
  dot (map (Rmult c) u) (map (Rmult c) v) = c * c * dot u v.
Proof.
  revert v. induction u as [|a u IH]; intros [|b v]; simpl; try lra.
  rewrite IH. lra.
Qed.

Lemma l2norm_scale (c : R) (v : vec) :
  0 <= c -> l2norm (map (Rmult c) v) = c * l2norm v.
Proof.
  intros Hc. unfold l2norm. rewrite dot_map_mult.
  rewrite sqrt_mult; [|nra|apply dot_self_nonneg].
  now rewrite sqrt_square.
Qed.

Lemma normalize_row_scale (c : R) (v : vec) :
  0 < c -> eps <= l2norm v -> eps <= c * l2norm v ->
  normalize_row (map (Rmult c) v) = normalize_row v.
Proof.
  intros Hc Hv Hcv. pose proof eps_pos as He. unfold normalize_row.
  rewrite l2norm_scale by lra. rewrite !Rmax_left by trivial.
  rewrite map_map. apply map_ext. intros a. field. lra.
Qed.

(** [predict] and [query] see only the direction of a query row: scaling
    the batch by a positive factor changes neither what they return nor the
    memory they leave, as long as no row is shorter than [eps] before or
    after. *)
Theorem positive_scaling_changes_nothing (m : Memory) (x : matrix) (c : R) :
  0 < c -> Forall (fun v => eps <= l2norm v /\ eps <= c * l2norm v) x ->
  predict (map (map (Rmult c)) x) m = predict x m /\
  forall y p rand,
    query (map (map (Rmult c)) x) y p rand m = query x y p rand m.
Proof.
  intros Hc Hx.
  assert (Hn : normalize (map (map (Rmult c)) x) = normalize x).
  { unfold normalize. rewrite map_map. apply map_ext_in. intros v Hv.
    rewrite List.Forall_forall in Hx. destruct (Hx v Hv).
    now apply normalize_row_scale. }
  assert (Hnb : neighbors (map (map (Rmult c)) x) = neighbors x).
  { unfold neighbors. now rewrite Hn. }
  split.
  - unfold predict. now rewrite Hnb.
  - intros y p rand. unfold query. now rewrite Hnb.
Qed.

(** ** A zero row *)

Lemma Forall_eq_repeat {A : Type} (c : A) (l : list A) :
  Forall (fun a => a = c) l -> l = repeat c (length l).
Proof.
  induction 1 as [|a l -> _ IH]; simpl; [reflexivity|]. now rewrite <- IH.
Qed.

Lemma dot_zero_l (u v : vec) : Forall (fun a => a = 0) u -> dot u v = 0.
Proof.
  intros H. revert v. induction H as [|a u -> _ IH]; intros [|b v]; simpl;
    try lra.
  rewrite IH. lra.
Qed.

Lemma Rsum_repeat (c : R) (n : nat) : Rsum (repeat c n) = INR n * c.
Proof.
  induction n as [|n IH]; [simpl; lra|].
  rewrite S_INR. simpl repeat. unfold Rsum in *. simpl. rewrite IH. lra.
Qed.

Lemma softmax_row_repeat (c : R) (n : nat) :
  softmax_row (repeat c n) = repeat (1 / INR n) n.
Proof.
  destruct n as [|n]; [reflexivity|].
  unfold softmax_row. rewrite !map_repeat, Rsum_repeat.
  f_equal. pose proof (exp_pos c) as He.
  assert (Hn : INR (S n) <> 0) by (apply not_0_INR; lia).
  field. split; trivial. lra.
Qed.

(** A query row of zeros is at similarity zero from every key, so that the
    confidence [predict] returns for it is uniform over the [top_k]
    candidates. *)
Theorem zero_row_gets_uniform_confidence (m : Memory) (x : matrix) (i : nat)
    (v : vec) :
  wf_memory m -> wf_predict m x ->
  x !! i = Some v -> Forall (fun a => a = 0) v ->
  exists y_hat conf,
    eval (predict x) m = Ok (y_hat, conf) /\
    fst (topk_of x m) !! i = Some (repeat 0 (top_k m)) /\
    conf !! i = Some (repeat (1 / INR (top_k m)) (top_k m)).
Proof.
  intros Hm Hx Hv H0.
  exists (predicted x m),
    (softmax (map (map (Rmult (softmax_temperature m))) (fst (topk_of x m)))).
  unfold eval. rewrite (predict_unfold m x Hm Hx). split; [reflexivity|].
  assert (Hq : normalize x !! i = Some (normalize_row v)).
  { unfold normalize. now rewrite lookup_map, Hv. }
  assert (Hz : Forall (fun a => a = 0) (normalize_row v)).
  { unfold normalize_row. apply List.Forall_forall. intros a Ha.
    apply in_map_iff in Ha as (b & <- & Hb).
    rewrite List.Forall_forall in H0. rewrite (H0 b Hb).
    unfold Rdiv. lra. }
  destruct (topk_of_spec m x Hm Hx) as (_ & _ & _ & Hrows).
  destruct (Hrows i _ Hq) as (sims & ix & Ht & Hs & Hi).
  destruct (topk_of_rows m x i sims ix Hm Hx Hs Hi)
    as (q & Hq' & _ & Hl & _ & _ & _ & Hvals).
  rewrite Hq in Hq'. injection Hq' as <-.
  assert (Hsims : sims = repeat 0 (top_k m)).
  { rewrite <- Hl. apply Forall_eq_repeat.
    clear -Hvals Hz. induction Hvals as [|a s sims ix Has _ IH];
      constructor; trivial.
    rewrite lookup_map in Has.
    destruct (keys m !! s) as [k|]; [|discriminate].
    injection Has as <-. now apply dot_zero_l. }
  subst sims. split; [exact Hs|].
  unfold softmax. rewrite !lookup_map, Hs. simpl. f_equal.
  rewrite map_repeat. apply softmax_row_repeat.
Qed.

(** ** Reinforcing with the stored key *)

Lemma add_row_same (k : vec) : add_row k k = map (Rmult 2) k.
Proof.
  unfold add_row. induction k as [|a k IH]; simpl; [reflexivity|].
  rewrite IH. f_equal. lra.
Qed.

(** A correct row whose normalized query is the unit key its best slot
    holds leaves this key as it is: the blend of the key with itself is the
    key. *)
Theorem reinforcing_with_stored_key_keeps_it (m : Memory) (x : matrix)
    (r s : nat) (k : vec) :
  best_slots x m !! r = Some s -> keys m !! s = Some k ->
  normalize x !! r = Some k -> l2norm k = 1 ->
  blend_of x m r = k.
Proof.
  intros Hs Hk Hq H1. pose proof eps_le_1 as He.
  unfold blend_of.
  apply nth_lookup_Some with (d := 0%nat) in Hs. rewrite Hs.
  apply nth_lookup_Some with (d := []) in Hk, Hq. rewrite Hk, Hq.
  rewrite add_row_same, normalize_row_scale by (rewrite ?H1; lra).
  now apply normalize_row_unit.
Qed.

(** ** [query] and [predict] *)

(** On a well-shaped batch [query] returns the prediction and the
    confidence of [predict]; the [predict] flag decides only whether a loss
    is returned, the memory is updated in the same way with and without
    it. *)
Theorem query_answers_as_predict (m : Memory) (x : matrix) (y : list Z)
    (p : bool) (rand : nat -> R) :
  wf_memory m -> wf_query m x y ->
  exists y_hat softmax_score loss,
    eval (predict x) m = Ok (y_hat, softmax_score) /\
    eval (query x y p rand) m = Ok (y_hat, softmax_score, loss) /\
    (loss = None <-> p = true) /\
    exec (query x y p rand) m = exec (query x y (negb p) rand) m.
Proof.
  intros Hm Hq. destruct (wf_query_predict m x y Hq) as [Hx _].
  exists (predicted x m),
    (softmax (map (map (Rmult (softmax_temperature m))) (fst (topk_of x m)))),
    (if p then None else Some (loss_of x y m)).
  unfold eval, exec.
  rewrite (predict_unfold m x Hm Hx), !(query_unfold m x y _ rand Hm Hq).
  repeat split; destruct p; simpl; congruence.
Qed.

(** A well-shaped call of [query] leaves a well-formed memory. *)
Theorem query_keeps_well_formed (m : Memory) (x : matrix) (y : list Z)
    (p : bool) (rand : nat -> R) :
  wf_memory m -> wf_query m x y -> wf_memory (exec (query x y p rand) m).
Proof.
  intros Hm Hq. unfold exec. rewrite (query_unfold m x y p rand Hm Hq).
  now apply wf_after_query.
Qed.

(** ** A batch without an incorrect row *)

(** When every row of the batch is predicted correctly the replacement step
    does not run: no label is stored, and only the best slots of the rows
    can change their key. *)
Theorem all_correct_batch_stores_nothing (m : Memory) (x : matrix)
    (y : list Z) (p : bool) (rand : nat -> R) :
  wf_memory m -> wf_query m x y -> incorrect_rows x y m = [] ->
  values (exec (query x y p rand) m) = values m /\
  forall s, ~ In s (best_slots x m) ->
            keys (exec (query x y p rand) m) !! s = keys m !! s.
Proof.
  intros Hm Hq Hinc. unfold exec. rewrite (query_unfold m x y p rand Hm Hq).
  simpl snd.
  assert (Hr : replaced_slots x y rand m = []).
  { unfold replaced_slots. now rewrite Hinc. }
  split.
  - unfold after_query. simpl. now rewrite Hr.
  - intros s Hs.
    apply (frame_after_query m x y rand s).
    unfold written_slots. rewrite Hr, app_nil_r.
    unfold reinforced_slots. intros Hin.
    apply In_index_select in Hin as (r & Hr' & ->).
    apply Hs. apply correct_rows_spec in Hr' as (v & Hv & _).
    apply nth_In. apply lookup_lt_Some in Hv.
    destruct (wf_query_predict m x y Hq) as [Hx _].
    rewrite (length_predicted m x Hm Hx) in Hv.
    now rewrite (length_best_slots m x Hm Hx).
Qed.

(** ** The slots a call leaves alone *)

(** A well-shaped call of [query] changes keys and values only in the slots
    it reinforces or replaces: every other slot keeps its key and its
    value. *)
Theorem query_touches_only_written_slots (m : Memory) (x : matrix)
    (y : list Z) (p : bool) (rand : nat -> R) (s : nat) :
  wf_memory m -> wf_query m x y ->
  ~ In s (reinforced_slots x y m) -> ~ In s (replaced_slots x y rand m) ->
  keys (exec (query x y p rand) m) !! s = keys m !! s /\
  values (exec (query x y p rand) m) !! s = values m !! s.
Proof.
  intros Hm Hq H1 H2. unfold exec.
  rewrite (query_unfold m x y p rand Hm Hq). simpl snd.
  apply frame_after_query. unfold written_slots. intros Hin.
  apply in_app_or in Hin as [Hin|Hin]; auto.
Qed.

(** ** The replacement step *)

Lemma Forall2_In_r {A B : Type} (P : A -> B -> Prop) (l : list A)
    (k : list B) (b : B) :
  Forall2 P l k -> In b k -> exists a, In a l /\ P a b.
Proof.
  induction 1 as [|a b' l k Hab _ IH]; intros Hin; [easy|].
  destruct Hin as [->|Hin].
  - exists a. split; [now left|exact Hab].
  - destruct (IH Hin) as (a' & Ha' & HP). exists a'. split; [now right|exact HP].
Qed.

(** The slots the replacement step takes are those of the largest noisy
    ages: a slot it leaves has no larger noisy age than a slot it takes. *)
Lemma replaced_noisy_age_largest (m : Memory) (x : matrix)
    (y : list Z) (rand : nat -> R) (s s' : nat) (a a' : R) :
  wf_memory m -> wf_query m x y ->
  In s (replaced_slots x y rand m) -> ~ In s' (replaced_slots x y rand m) ->
  noisy_ages x y rand m !! s = Some a ->
  noisy_ages x y rand m !! s' = Some a' ->
  a' <= a.
Proof.
  intros Hm Hq Hs Hs' Ha Ha'.
  unfold replaced_slots in Hs, Hs'.
  destruct (nonempty (incorrect_rows x y m)) eqn:E; [|easy].
  destruct (topk_ok (noisy_ages x y rand m) (length x))
    as (v & ix & Ht & _ & _ & _ & _ & Hvals).
  { rewrite (length_noisy_ages m x y rand Hm).
    apply wf_query_spec in Hq as [_ Hb]. now apply Hb, nonempty_true. }
  rewrite Ht in Hs, Hs'.
  destruct (Forall2_In_r _ _ _ _ Hvals Hs) as (a0 & Hin & Hl).
  rewrite Ha in Hl. injection Hl as ->.
  exact (topk_largest _ _ _ _ Ht s' a' Ha' Hs' a0 Hin).
Qed.

(** The noise added to an age stays within [age_noise] of it. *)
Lemma noisy_age_within_noise (m : Memory) (x : matrix) (y : list Z)
    (rand : nat -> R) (s : nat) (a : R) :
  0 <= age_noise m -> (forall i, 0 <= rand i < 1) ->
  noisy_ages x y rand m !! s = Some a ->
  exists b, ages_before_replacement x y m !! s = Some b /\
            b - age_noise m <= a <= b + age_noise m.
Proof.
  intros Hn Hrand Ha. unfold noisy_ages, add_row in Ha.
  rewrite lookup_map in Ha.
  destruct (combine _ _ !! s) as [[b r]|] eqn:Ec; [|discriminate].
  injection Ha as <-. rewrite lookup_combine in Ec.
  destruct (ages_before_replacement x y m !! s) as [b0|] eqn:Hb;
    [|discriminate].
  destruct (random_uniform _ _ _ _ !! s) as [r0|] eqn:Hr; [|discriminate].
  injection Ec as -> ->.
  exists b. split; [reflexivity|]. simpl.
  unfold random_uniform, tabulate in Hr. rewrite lookup_map in Hr.
  destruct (seq 0 (memory_size m) !! s) as [i|]; [|discriminate].
  injection Hr as <-. specialize (Hrand i). nra.
Qed.

(** The replacement step takes the slots of the largest noisy ages, and so
    follows the ages up to the noise: a slot it leaves has no larger noisy
    age than a slot it takes, and is at most twice [age_noise] older. *)
Theorem replacement_takes_oldest_up_to_noise (m : Memory) (x : matrix)
    (y : list Z) (rand : nat -> R) (s s' : nat) (b b' : R) :
  wf_memory m -> wf_query m x y ->
  0 <= age_noise m -> (forall i, 0 <= rand i < 1) ->
  In s (replaced_slots x y rand m) -> ~ In s' (replaced_slots x y rand m) ->
  ages_before_replacement x y m !! s = Some b ->
  ages_before_replacement x y m !! s' = Some b' ->
  (exists a a', noisy_ages x y rand m !! s = Some a /\
                noisy_ages x y rand m !! s' = Some a' /\ a' <= a) /\
  b' <= b + 2 * age_noise m.
Proof.
  intros Hm Hq Hn Hrand Hs Hs' Hb Hb'.
  assert (Hlen : length (noisy_ages x y rand m) =
                 length (ages_before_replacement x y m)).
  { rewrite (length_noisy_ages m x y rand Hm).
    unfold ages_before_replacement.
    rewrite length_index_fill, length_map.
    apply wf_memory_spec in Hm. lia. }
  destruct (lookup_lt_is_Some_2 (noisy_ages x y rand m) s) as [a Ha].
  { rewrite Hlen. now apply lookup_lt_Some in Hb. }
  destruct (lookup_lt_is_Some_2 (noisy_ages x y rand m) s') as [a' Ha'].
  { rewrite Hlen. now apply lookup_lt_Some in Hb'. }
  pose proof (replaced_noisy_age_largest m x y rand s s' a a'
                Hm Hq Hs Hs' Ha Ha') as Hle.
  split; [now exists a, a'|].
  destruct (noisy_age_within_noise m x y rand s a Hn Hrand Ha)
    as (c & Hc & Hca).
  destruct (noisy_age_within_noise m x y rand s' a' Hn Hrand Ha')
    as (c' & Hc' & Hca').
  rewrite Hb in Hc. injection Hc as <-.
  rewrite Hb' in Hc'. injection Hc' as <-. lra.
Qed.

(** ** Storing a label and asking for it *)

Lemma lookup_In {A : Type} (l : list A) (i : nat) (a : A) :
  l !! i = Some a -> In a l.
Proof.
  revert i. induction l as [|b l IH]; intros [|i] H; simpl in *;
    try discriminate.
  - injection H as ->. now left.
  - right. now apply (IH i).
Qed.

Lemma dot_unit (v : vec) : l2norm v = 1 -> dot v v = 1.
Proof.
  unfold l2norm. intros H.
  rewrite <- (sqrt_sqrt (dot v v)) by apply dot_self_nonneg.
  rewrite H. lra.
Qed.

(** A single query that the memory gets wrong is stored with its label, and
    [predict] on the same query then returns this label, when the query was
    not in the memory before: every key was at a similarity below 1. *)
Theorem stored_label_is_predicted (m : Memory) (q : vec) (l : Z) (p : bool)
    (rand : nat -> R) :
  wf_memory m -> wf_query m [q] [l] -> incorrect_rows [q] [l] m <> [] ->
  eps <= l2norm q ->
  Forall (fun k => dot (normalize_row q) k < 1) (keys m) ->
  exists conf,
    eval (predict [q]) (exec (query [q] [l] p rand) m) = Ok ([l], conf).
Proof.
  intros Hm Hq Hinc Hnorm Hfar.
  destruct (wf_query_predict m [q] [l] Hq) as [Hx _].
  unfold exec at 1. rewrite (query_unfold m [q] [l] p rand Hm Hq). simpl snd.
  set (m' := after_query [q] [l] rand m).
  assert (Hm' : wf_memory m') by now apply wf_after_query.
  assert (Hx' : wf_predict m' [q]) by exact Hx.
  unfold eval. rewrite (predict_unfold m' [q] Hm' Hx'). simpl fst.
  eexists. f_equal. f_equal.
  (* the slot that took the query *)
  destruct (replacement_writes_every_row m [q] [l] rand 0 (normalize_row q) l
              Hm Hq Hinc eq_refl eq_refl)
    as (Hlen & s & Hs & Hk & Hv & _).
  fold m' in Hk, Hv.
  assert (Hrep : replaced_slots [q] [l] rand m = [s]).
  { destruct (replaced_slots [q] [l] rand m) as [|s0 [|s1 r]];
      simpl in Hlen; try lia. simpl in Hs. congruence. }
  (* no row is correct *)
  assert (Hcor : correct_rows [q] [l] m = []).
  { destruct (correct_rows [q] [l] m) as [|r rs] eqn:E; [reflexivity|].
    exfalso. assert (Hr : In r (correct_rows [q] [l] m))
      by (rewrite E; now left).
    apply correct_rows_spec in Hr as (v & Hpv & Hyv).
    destruct r as [|r]; [|discriminate].
    destruct (incorrect_rows [q] [l] m) as [|r' rs'] eqn:E'; [easy|].
    assert (Hr' : In r' (incorrect_rows [q] [l] m))
      by (rewrite E'; now left).
    apply incorrect_rows_spec in Hr' as (a & b & Hpa & Hyb & Hab).
    destruct r' as [|r']; [|discriminate]. congruence. }
  (* the best slot of the query in the new memory *)
  pose proof (length_best_slots m' [q] Hm' Hx') as Hlb.
  destruct (best_slots [q] m') as [|s' [|s'' r]] eqn:Eb;
    simpl in Hlb; try lia.
  destruct (best_slot_nearest m' [q] 0 s' (normalize_row q) Hm' Hx')
    as (k & Hk' & Hmax); [now rewrite Eb|reflexivity|].
  assert (Hss : s' = s).
  { destruct (Nat.eq_dec s' s) as [|Hne]; [assumption|]. exfalso.
    pose proof (Hmax s _ Hk) as Hle.
    rewrite (dot_unit _ (normalize_row_norm q Hnorm)) in Hle.
    destruct (frame_after_query m [q] [l] rand s') as [Hkeep _].
    { unfold written_slots, reinforced_slots.
      rewrite Hcor, Hrep. simpl. intros [H|[]]. congruence. }
    fold m' in Hkeep. rewrite Hkeep in Hk'.
    rewrite List.Forall_forall in Hfar.
    assert (Hin : In k (keys m)) by exact (lookup_In _ _ _ Hk').
    specialize (Hfar k Hin). lra. }
  subst s'. unfold predicted. rewrite Eb. simpl.
  f_equal. now apply nth_lookup_Some with (d := 0%Z) in Hv.
Qed.

(** ** What the reinforcement does to a key *)

Lemma dot_comm (u v : vec) : dot u v = dot v u.
Proof.
  revert v. induction u as [|a u IH]; intros [|b v]; simpl; try lra.
  rewrite IH. lra.
Qed.

Lemma dot_add_row_l (u v w : vec) :
  length u = length v -> dot (add_row u v) w = dot u w + dot v w.
Proof.
  revert v w. induction u as [|a u IH]; intros [|b v] [|c w] H;
    simpl in *; try lra; try discriminate.
  unfold add_row in *. simpl. rewrite IH by lia. lra.
Qed.

Lemma dot_div_l (c : R) (u v : vec) :
  dot (map (fun a => a / c) u) v = dot u v / c.
Proof.
  revert v. induction u as [|a u IH]; intros [|b v]; simpl;
    unfold Rdiv in *; try lra.
  rewrite IH. lra.
Qed.

Lemma length_add_row_same (u v : vec) :
  length u = length v -> length (add_row u v) = length u.
Proof. intros H. rewrite length_add_row. lia. Qed.

(** The blend of two unit vectors is nearer to each of them than they are
    to one another. *)
Lemma blend_nearer (k q : vec) :
  length k = length q -> l2norm k = 1 -> l2norm q = 1 ->
  eps <= l2norm (add_row k q) ->
  dot k q <= dot (normalize_row (add_row k q)) q.
Proof.
  intros Hlen Hk Hq Hs. pose proof eps_pos as He.
  apply dot_unit in Hk, Hq.
  unfold normalize_row. rewrite Rmax_left by trivial.
  rewrite dot_div_l, dot_add_row_l, Hq by trivial.
  set (c := dot k q). set (n := l2norm (add_row k q)) in *.
  assert (Hn2 : n * n = 2 + 2 * c).
  { unfold n, l2norm. rewrite sqrt_sqrt by apply dot_self_nonneg.
    rewrite dot_add_row_l by trivial.
    rewrite (dot_comm k (add_row k q)), (dot_comm q (add_row k q)).
    rewrite !dot_add_row_l by trivial. rewrite (dot_comm q k).
    fold c. lra. }
  assert (Hn : 0 < n) by lra.
  assert (Hc1 : -1 < c) by nra.
  apply Rmult_le_reg_r with n; [exact Hn|].
  replace ((c + 1) / n * n) with (c + 1) by (field; lra).
  destruct (Rle_dec c 0) as [Hc0|Hc0]; [nra|].
  assert (Hc : 0 < c) by lra.
  (* c <= 1 from 0 <= |k - q|^2 *)
  assert (Hle1 : c <= 1).
  { pose proof (dot_self_nonneg (add_row k (map Ropp q))) as H.
    rewrite dot_add_row_l in H by now rewrite length_map.
    rewrite (dot_comm k (add_row _ _)), (dot_comm (map Ropp q) (add_row _ _))
      in H.
    rewrite !dot_add_row_l in H by now rewrite length_map.
    assert (Hneg : forall u v, dot (map Ropp u) v = - dot u v).
    { clear. induction u as [|a u IH]; intros [|b v]; simpl; try lra.
      rewrite IH. lra. }
    rewrite !Hneg in H. rewrite (dot_comm k (map Ropp q)), Hneg in H.
    rewrite (dot_comm q (map Ropp q)), Hneg in H.
    rewrite (dot_comm q k) in H. fold c in H. lra. }
  (* (c n)^2 <= (c + 1)^2 *)
  assert (Hsq : (c * n) * (c * n) <= (c + 1) * (c + 1)).
  { replace (c * n * (c * n)) with (c * c * (n * n)) by ring.
    rewrite Hn2. nra. }
  nra.
Qed.

(** The reinforcement moves the key of a correct row toward the query: the
    blend the code computes for the row and writes to its best slot is at
    least as similar to the normalized row as the stored key was, when the
    stored key and the normalized row are unit vectors and their sum is not
    shorter than [eps]. *)
Theorem reinforcement_moves_key_toward_query (m : Memory) (x : matrix)
    (y : list Z) (r s : nat) (k q : vec) :
  wf_memory m -> wf_query m x y -> In r (correct_rows x y m) ->
  best_slots x m !! r = Some s -> keys m !! s = Some k ->
  normalize x !! r = Some q ->
  l2norm k = 1 -> l2norm q = 1 -> eps <= l2norm (add_row k q) ->
  (exists j, reinforced_slots x y m !! j = Some s /\
             blended_keys x y m !! j = Some (blend_of x m r)) /\
  dot k q <= dot (blend_of x m r) q.
Proof.
  intros Hm Hq Hr Hs Hk Hnq Hk1 Hq1 Hsum.
  assert (Hns : nth r (best_slots x m) 0%nat = s)
    by now apply nth_lookup_Some with (d := 0%nat) in Hs.
  split.
  - destruct (reinforce_writes m x y r Hr) as (j & Hj & Hbj).
    exists j. now rewrite <- Hns.
  - unfold blend_of. rewrite Hns.
    apply nth_lookup_Some with (d := []) in Hk, Hnq. rewrite Hk, Hnq.
    apply blend_nearer; trivial.
    destruct (wf_query_predict m x y Hq) as [Hx' _].
    apply wf_memory_spec in Hm as (Hkeys & _).
    apply is_tensor2_spec in Hkeys as (_ & _ & _ & Hkr).
    unfold wf_predict in Hx'. apply is_tensor2_normalize in Hx'.
    apply is_tensor2_spec in Hx' as (_ & _ & _ & Hqr).
    rewrite List.Forall_forall in Hkr, Hqr.
    assert (Hlk : (s < length (keys m))%nat).
    { destruct (lt_dec s (length (keys m))) as [|Hge]; [assumption|].
      rewrite nth_overflow in Hk by lia. subst k.
      unfold l2norm in Hk1. simpl in Hk1. rewrite sqrt_0 in Hk1. lra. }
    assert (Hlq : (r < length (normalize x))%nat).
    { destruct (lt_dec r (length (normalize x))) as [|Hge]; [assumption|].
      rewrite nth_overflow in Hnq by lia. subst q.
      unfold l2norm in Hq1. simpl in Hq1. rewrite sqrt_0 in Hq1. lra. }
    rewrite (Hkr k), (Hqr q); trivial; subst; now apply nth_In.
Qed.

(** ** Calls that raise *)


(** A well-shaped batch larger than the memory with an incorrect row makes
    [query] raise in the replacement step, after the ages have ticked and
    the correct rows have been reinforced: the memory keeps these writes,
    and no value has changed. *)
Theorem oversized_batch_raises_after_reinforcing (m : Memory) (x : matrix)
    (y : list Z) (p : bool) (rand : nat -> R) :
  wf_memory m -> is_tensor2 (length y) (key_dim m) x = true ->
  incorrect_rows x y m <> [] -> (memory_size m < length x)%nat ->
  query x y p rand m =
  (Raise RuntimeError,
   set_age (set_keys m (keys_after_reinforce x y m))
           (ages_before_replacement x y m)).
Proof.
  intros Hm Hshape Hinc Hbig.
  assert (Hx : wf_predict m x).
  { unfold wf_predict. pose proof Hshape as H.
    apply is_tensor2_spec in H as (_ & _ & Hl & _). now rewrite Hl. }
  unfold query. rewrite (bind_ok _ _ _ _ _ (neighbors_ok m x Hm Hx)).
  unfold bind at 1. unfold confidence at 1. unfold bind at 1. simpl.
  assert (Hloss : exists l,
    (if p then ret None
     else bind (pos_neg_scores (fst (topk_of x m)) (snd (topk_of x m)) y)
            (fun x0 => let '(pos_score, neg_score) := x0 in
               bind (gets margin) (fun mg =>
                 bind (lift (MemoryLoss pos_score neg_score mg))
                   (fun l => ret (Some l))))) m = (Ok l, m)).
  { destruct p; [now exists None|].
    destruct (pos_neg_scores_ok m (fst (topk_of x m)) (snd (topk_of x m)) y)
      as (pos & neg & Heq & Hlp & Hln & _).
    - destruct (topk_of_spec m x Hm Hx) as (_ & Hlv & _).
      apply is_tensor2_spec in Hshape as (_ & _ & Hl & _). congruence.
    - destruct (topk_of_spec m x Hm Hx) as (_ & _ & Hli & _).
      apply is_tensor2_spec in Hshape as (_ & _ & Hl & _). congruence.
    - intros i v ix Hv Hix.
      destruct (topk_of_rows m x i v ix Hm Hx Hv Hix)
        as (q & _ & _ & H1 & H2 & _).
      apply wf_memory_spec in Hm. lia.
    - exists (Some (mean (map (hinge (margin m)) (combine pos neg)))).
      unfold bind at 1. rewrite Heq. unfold bind at 1. simpl.
      unfold bind at 1. unfold lift at 1, MemoryLoss.
      rewrite Hlp, Hln, Nat.eqb_refl. reflexivity. }
  destruct Hloss as [l Hl]. unfold bind at 1. rewrite Hl.
  unfold bind at 1.
  now rewrite (update_oversized m x y rand Hm Hshape Hinc Hbig).
Qed.

(** A batch whose rows have another length than the keys makes [predict]
    and [query] raise in the product with the keys, and the memory stays as
    it was. *)
Theorem wrong_key_dim_raises (m : Memory) (x : matrix) (y : list Z)
    (p : bool) (rand : nat -> R) (d : nat) :
  wf_memory m -> is_tensor2 (length x) d x = true -> d <> key_dim m ->
  predict x m = (Raise RuntimeError, m) /\
  query x y p rand m = (Raise RuntimeError, m).
Proof.
  intros Hm Hx Hd.
  assert (Hn : neighbors x m = (Raise RuntimeError, m)).
  { unfold neighbors. unfold bind at 1. unfold gets at 1.
    unfold bind at 1. unfold lift at 1.
    rewrite (size2_tensor _ _ _ (is_tensor2_normalize _ _ _ Hx)).
    unfold bind at 1. unfold lift at 1, matmul.
    rewrite (size2_tensor _ _ _ (is_tensor2_normalize _ _ _ Hx)).
    apply wf_memory_spec in Hm as (Hk & _).
    rewrite (size2_tensor _ _ _ Hk).
    apply Nat.eqb_neq in Hd. now rewrite Hd. }
  split.
  - unfold predict, bind. now rewrite Hn.
  - unfold query. unfold bind at 1. now rewrite Hn.
Qed.

(** ** What no call changes *)

(** A property of the memory that the four kinds of writes of [update] keep
    is kept by [update] and by [query], on every input and also when they
    raise. *)
Lemma update_preserves (I : Memory -> Prop) :
  (forall m idx src, I m -> I (set_keys m (index_copy (keys m) idx src))) ->
  (forall m idx src, I m -> I (set_values m (index_copy (values m) idx src))) ->
  (forall m, I m -> I (set_age m (map (fun a => a + 1) (age m)))) ->
  (forall m idx, I m -> I (set_age m (index_fill (age m) idx 0))) ->
  forall q y yh yhi rand m, I m -> I (exec (update q y yh yhi rand) m).
Proof.
  intros Hk Hv Ht Hf q y yh yhi rand m Hm.
  unfold update. apply exec_bind; [now apply Ht|].
  intros [] m1 H1. unfold modify in H1. injection H1 as <-.
  apply exec_bind; [now apply Ht|].
  intros res m2 H2. unfold lift in H2. injection H2 as _ <-.
  set (m1 := set_age m (map (fun a => a + 1) (age m))).
  assert (Hm1 : I m1) by now apply Ht.
  assert (H3 : I (exec (if nonempty (nonzero res)
                        then reinforce q yhi (nonzero res) else ret tt) m1)).
  { destruct (nonempty (nonzero res)); [|exact Hm1].
    unfold exec.
    destruct (reinforce_cases q yhi (nonzero res) m1) as [-> | ->];
      [|exact Hm1].
    exact (Hf (set_keys m1 _) _ (Hk m1 _ _ Hm1)). }
  apply exec_bind; [exact H3|].
  intros [] m3 E3. unfold exec in H3. rewrite E3 in H3. simpl in H3.
  destruct (nonempty (nonzero (map negb res))); [|exact H3].
  unfold exec.
  destruct (replace_oldest_cases q y rand m3)
    as [[e ->]|[(ix & e & ->)|(ix & _ & ->)]]; simpl.
  - exact H3.
  - now apply Hk.
  - exact (Hf (set_values (set_keys m3 _) _) _
              (Hv (set_keys m3 _) _ _ (Hk m3 _ _ H3))).
Qed.

Lemma query_preserves (I : Memory -> Prop) :
  (forall m idx src, I m -> I (set_keys m (index_copy (keys m) idx src))) ->
  (forall m idx src, I m -> I (set_values m (index_copy (values m) idx src))) ->
  (forall m, I m -> I (set_age m (map (fun a => a + 1) (age m)))) ->
  (forall m idx, I m -> I (set_age m (index_fill (age m) idx 0))) ->
  forall x y p rand m, I m -> I (exec (query x y p rand) m).
Proof.
  intros Hk Hv Ht Hf x y p rand m Hm. unfold query.
  apply exec_bind; [now rewrite neighbors_frame|].
  intros r m' Hn. apply neighbors_inv in Hn as [-> ->].
  apply exec_bind; [exact Hm|]. intros conf m' Hc.
  assert (m' = m) by (unfold confidence, bind, gets, ret in Hc; congruence).
  subst m'.
  assert (Hloss : forall l m',
    (if p then ret None
     else bind (pos_neg_scores (fst (topk_of x m)) (snd (topk_of x m)) y)
            (fun x0 => let '(pos_score, neg_score) := x0 in
               bind (gets margin) (fun mg =>
                 bind (lift (MemoryLoss pos_score neg_score mg))
                   (fun l => ret (Some l))))) m = (l, m') -> m' = m).
  { intros l m' Hl. destruct p; [unfold ret in Hl; congruence|].
    unfold bind in Hl.
    pose proof (pos_neg_scores_frame (fst (topk_of x m))
                  (snd (topk_of x m)) y m) as Hfr.
    unfold exec in Hfr.
    destruct (pos_neg_scores _ _ y m) as [[[pos neg]|e] m2];
      simpl in Hfr; subst; [|congruence].
    unfold gets, lift, ret in Hl.
    destruct (MemoryLoss pos neg (margin m)); congruence. }
  apply exec_bind.
  - unfold exec.
    destruct ((if p then ret None else _) m) as [l m'] eqn:El.
    simpl. now rewrite (Hloss l m' eq_refl).
  - intros loss m' Hl. rewrite (Hloss _ _ Hl).
    assert (Hu : I (exec (update (normalize x) y (predicted x m)
                                 (best_slots x m) rand) m))
      by now apply update_preserves.
    apply exec_bind; [exact Hu|].
    intros a m2 Hu'. unfold exec in Hu. now rewrite Hu' in Hu.
Qed.

Lemma run_preserves (I : Memory -> Prop) :
  (forall m idx src, I m -> I (set_keys m (index_copy (keys m) idx src))) ->
  (forall m idx src, I m -> I (set_values m (index_copy (values m) idx src))) ->
  (forall m, I m -> I (set_age m (map (fun a => a + 1) (age m)))) ->
  (forall m idx, I m -> I (set_age m (index_fill (age m) idx 0))) ->
  forall cs m, I m -> I (run cs m).
Proof.
  intros Hk Hv Ht Hf cs. induction cs as [|c cs IH]; intros m Hm; trivial.
  simpl. apply IH. destruct c as [x|x y p rand]; simpl.
  - now rewrite predict_frame.
  - now apply query_preserves.
Qed.

(** No sequence of calls changes the settings of the memory or the number
    of its slots, whatever the inputs and also when calls raise. *)
Theorem calls_keep_config_and_size (cs : list call) (m : Memory) :
  config (run cs m) = config m /\
  length (keys (run cs m)) = length (keys m) /\
  length (values (run cs m)) = length (values m) /\
  length (age (run cs m)) = length (age m).
Proof.
  apply (run_preserves
           (fun m' => config m' = config m /\
                      length (keys m') = length (keys m) /\
                      length (values m') = length (values m) /\
                      length (age m') = length (age m))).
  - intros m' idx src (H1 & H2 & H3 & H4). simpl.
    now rewrite length_index_copy.
  - intros m' idx src (H1 & H2 & H3 & H4). simpl.
    now rewrite length_index_copy.
  - intros m' (H1 & H2 & H3 & H4). simpl. now rewrite length_map.
  - intros m' idx (H1 & H2 & H3 & H4). simpl.
    now rewrite length_index_fill.
  - auto.
Qed.

Lemma Forall_index_fill {A : Type} (P : A -> Prop) (t : list A)
    (idx : list nat) (v : A) :
  Forall P t -> P v -> Forall P (index_fill t idx v).
Proof.
  unfold index_fill. revert t.
  induction idx as [|i idx IH]; intros t Ht Hv; simpl; trivial.
  apply IH; trivial. now apply Forall_insert.
Qed.

(** The ages of a memory built by [__init__] are never negative, after any
    sequence of calls. *)
Theorem ages_never_negative (n d k : nat) (it an mg : R)
    (randn : nat -> nat -> R) (m : Memory) (cs : list call) :
  init n d k it an mg randn = Ok m ->
  Forall (fun a => 0 <= a) (age (run cs m)).
Proof.
  intros Hi.
  apply (run_preserves (fun m' => Forall (fun a => 0 <= a) (age m'))).
  - intros m' idx src H. exact H.
  - intros m' idx src H. exact H.
  - intros m' H. simpl. apply List.Forall_forall. intros a Ha.
    apply in_map_iff in Ha as (b & <- & Hb).
    rewrite List.Forall_forall in H. specialize (H b Hb). lra.
  - intros m' idx H. simpl. apply Forall_index_fill; [exact H|lra].
  - apply init_spec in Hi as (_ & _ & _ & _ & _ & _ & _ & ->).
    apply List.Forall_forall. intros a Ha. apply repeat_spec in Ha. lra.
Qed.

(** ** The labels of the memory *)

Lemma update_values (P : Z -> Prop) (q : matrix) (y yh : list Z)
    (yhi : list nat) (rand : nat -> R) (m : Memory) :
  Forall P y -> Forall P (values m) ->
  Forall P (values (exec (update q y yh yhi rand) m)).
Proof.
  intros Hy Hm.
  unfold update. apply exec_bind; [exact Hm|].
  intros [] m1 H1. unfold modify in H1. injection H1 as <-.
  apply exec_bind; [exact Hm|].
  intros res m2 H2. unfold lift in H2. injection H2 as _ <-.
  set (m1 := set_age m (map (fun a => a + 1) (age m))).
  assert (H3 : Forall P (values (exec
                 (if nonempty (nonzero res)
                  then reinforce q yhi (nonzero res) else ret tt) m1))).
  { destruct (nonempty (nonzero res)); [|exact Hm].
    unfold exec.
    destruct (reinforce_cases q yhi (nonzero res) m1) as [-> | ->];
      exact Hm. }
  apply exec_bind; [exact H3|].
  intros [] m3 E3. unfold exec in H3. rewrite E3 in H3. simpl in H3.
  destruct (nonempty (nonzero (map negb res))); [|exact H3].
  unfold exec.
  destruct (replace_oldest_cases q y rand m3)
    as [[e ->]|[(ix & e & ->)|(ix & _ & ->)]]; simpl; trivial.
  apply Forall_index_copy; trivial. now apply Forall_expand.
Qed.

Lemma query_values (P : Z -> Prop) (x : matrix) (y : list Z) (p : bool)
    (rand : nat -> R) (m : Memory) :
  Forall P y -> Forall P (values m) ->
  Forall P (values (exec (query x y p rand) m)).
Proof.
  intros Hy Hm. unfold query.
  apply exec_bind; [now rewrite neighbors_frame|].
  intros r m' Hn. apply neighbors_inv in Hn as [-> ->].
  apply exec_bind; [exact Hm|]. intros conf m' Hc.
  assert (m' = m) by (unfold confidence, bind, gets, ret in Hc; congruence).
  subst m'.
  assert (Hloss : forall l m',
    (if p then ret None
     else bind (pos_neg_scores (fst (topk_of x m)) (snd (topk_of x m)) y)
            (fun x0 => let '(pos_score, neg_score) := x0 in
               bind (gets margin) (fun mg =>
                 bind (lift (MemoryLoss pos_score neg_score mg))
                   (fun l => ret (Some l))))) m = (l, m') -> m' = m).
  { intros l m' Hl. destruct p; [unfold ret in Hl; congruence|].
    unfold bind in Hl.
    pose proof (pos_neg_scores_frame (fst (topk_of x m))
                  (snd (topk_of x m)) y m) as Hfr.
    unfold exec in Hfr.
    destruct (pos_neg_scores _ _ y m) as [[[pos neg]|e] m2];
      simpl in Hfr; subst; [|congruence].
    unfold gets, lift, ret in Hl.
    destruct (MemoryLoss pos neg (margin m)); congruence. }
  apply exec_bind.
  - unfold exec.
    destruct ((if p then ret None else _) m) as [l m'] eqn:El.
    simpl. now rewrite (Hloss l m' eq_refl).
  - intros loss m' Hl. rewrite (Hloss _ _ Hl).
    assert (Hu : Forall P (values (exec (update (normalize x) y
                   (predicted x m) (best_slots x m) rand) m)))
      by now apply update_values.
    apply exec_bind; [exact Hu|].
    intros a m2 Hu'. unfold exec in Hu. now rewrite Hu' in Hu.
Qed.

(** The memory holds no label of its own making: a property of labels that
    the stored values have at the start and that the labels of all [query]
    calls have holds of every stored value after the calls, whatever the
    inputs and also when calls raise. *)
Theorem stored_labels_come_from_queries (P : Z -> Prop) (cs : list call)
    (m : Memory) :
  Forall P (values m) -> labels_in P cs -> Forall P (values (run cs m)).
Proof.
  revert m. induction cs as [|c cs IH]; intros m Hm Hcs; [exact Hm|].
  inversion Hcs as [|c' cs' Hc Hrest]; subst.
  simpl. apply IH; [|exact Hrest].
  destruct c as [x|x y p rand]; simpl.
  - now rewrite predict_frame.
  - now apply query_values.
Qed.

(** ** A single label for a batch *)








(** ** The properties at the sample calls *)

Lemma flatten_resize_round_trip_witness :
  length grid = 2%nat /\ Forall (fun r => length r = 2%nat) grid /\
  entries 0%nat (transpose (contiguous grid)) = [[0; 2]; [1; 1]]%nat /\
  entries 0%nat (contiguous grid) = grid /\
  flatten (fun _ => 0%nat) (contiguous grid) = concat grid /\
  length (flatten (fun _ => 0%nat) (contiguous grid)) = (2 * 2)%nat /\
  resize2 2 2 (flatten (fun _ => 0%nat) (contiguous grid)) = grid /\
  flatten (fun _ => 0%nat) (transpose (contiguous grid)) = concat grid.
Proof.
  split; [reflexivity|]. split; [repeat constructor|].
  split; [reflexivity|].
  apply (flatten_resize_round_trip 0%nat (fun _ => 0%nat) grid 2 2);
    [reflexivity|repeat constructor].
Defined.

Lemma gather_flat_resize_witness :
  length grid = 2%nat /\ Forall (fun r => length r = 2%nat) grid /\
  resize2 2 2
    (index_select 0%Z (values stored5)
       (flatten (fun _ => 0%nat) (contiguous grid))) =
  map (index_select 0%Z (values stored5)) grid.
Proof.
  split; [reflexivity|]. split; [repeat constructor|].
  apply (gather_flat_resize 0%Z (values stored5) (fun _ => 0%nat) grid 2 2);
    [reflexivity|repeat constructor].
Defined.

Lemma draw3_unit (i : nat) : 0 <= draw3 i < 1.
Proof.
  unfold draw3. destruct i as [|[|[|i]]]; simpl; try lra.
  destruct i; simpl; lra.
Qed.

Lemma random_uniform_range_witness :
  -8 < 8 /\ (forall i, (i < 3)%nat -> 0 <= draw3 i < 1) /\
  length (random_uniform 3 (-8) 8 draw3) = 3%nat /\
  Forall (fun a => -8 <= a < 8) (random_uniform 3 (-8) 8 draw3).
Proof.
  assert (H1 : -8 < 8) by lra.
  assert (H2 : forall i, (i < 3)%nat -> 0 <= draw3 i < 1)
    by (intros i _; apply draw3_unit).
  split; [exact H1|]. split; [exact H2|].
  apply (random_uniform_range 3 (-8) 8 draw3 H1 H2).
Defined.

Lemma MemoryLoss_zero_iff_witness :
  length [1] = length [0] /\ [1] <> [] /\
  exists l,
    MemoryLoss [1] [0] 0.1 = Ok l /\
    (l = 0 <->
     Forall (fun pn : R * R => snd pn + 0.1 <= fst pn) (combine [1] [0])).
Proof.
  assert (H : [1] <> @nil R) by discriminate.
  split; [reflexivity|]. split; [exact H|].
  apply (MemoryLoss_zero_iff [1] [0] 0.1 eq_refl H).
Defined.

Lemma MemoryLoss_monotone_in_margin_witness :
  length [1] = length [0] /\ [1] <> [] /\ 0.1 <= 0.2 /\
  exists l1 l2,
    MemoryLoss [1] [0] 0.1 = Ok l1 /\
    MemoryLoss [1] [0] 0.2 = Ok l2 /\ l1 <= l2.
Proof.
  assert (H : [1] <> @nil R) by discriminate.
  assert (Hm : 0.1 <= 0.2) by lra.
  split; [reflexivity|]. split; [exact H|]. split; [exact Hm|].
  apply (MemoryLoss_monotone_in_margin [1] [0] 0.1 0.2 eq_refl H Hm).
Defined.

Lemma init_outcomes_witness :
  3%nat <> 0%nat /\ 2%nat <> 0%nat /\
  init 3 2 0 1 8 0.1 randn3 = Raise ValueError.
Proof.
  assert (H3 : 3%nat <> 0%nat) by lia.
  assert (H2 : 2%nat <> 0%nat) by lia.
  split; [exact H3|]. split; [exact H2|].
  apply (proj1 (init_outcomes 3 2 0 1 8 0.1 randn3 H3 H2) eq_refl).
Defined.

Lemma wf_predict_mixed : wf_predict fresh3 mixed_x.
Proof. reflexivity. Qed.

Lemma predict_returns_distributions_witness :
  wf_memory fresh3 /\ wf_predict fresh3 mixed_x /\
  exists y_hat conf,
    eval (predict mixed_x) fresh3 = Ok (y_hat, conf) /\
    length y_hat = length mixed_x /\ length conf = length mixed_x /\
    Forall (fun row => length row = top_k fresh3 /\ Rsum row = 1 /\
                       Forall (fun c => 0 < c <= 1) row) conf.
Proof.
  split; [exact wf_fresh3|]. split; [exact wf_predict_mixed|].
  apply (predict_returns_distributions fresh3 mixed_x wf_fresh3
           wf_predict_mixed).
Defined.

Lemma temperature_fresh3 : 0 <= softmax_temperature fresh3.
Proof. simpl. lra. Qed.

Lemma confidence_goes_down_witness :
  wf_memory fresh3 /\ wf_predict fresh3 mixed_x /\
  0 <= softmax_temperature fresh3 /\
  exists y_hat conf,
    eval (predict mixed_x) fresh3 = Ok (y_hat, conf) /\
    Forall (StronglySorted (fun a b => b <= a)) conf.
Proof.
  split; [exact wf_fresh3|]. split; [exact wf_predict_mixed|].
  split; [exact temperature_fresh3|].
  apply (confidence_goes_down fresh3 mixed_x wf_fresh3 wf_predict_mixed
           temperature_fresh3).
Defined.

Lemma neighbors_are_nearest_witness :
  wf_memory fresh3 /\ wf_predict fresh3 mixed_x /\
  normalize mixed_x !! 0%nat = Some (normalize_row [1; 0]) /\
  exists sims slots,
    fst (topk_of mixed_x fresh3) !! 0%nat = Some sims /\
    snd (topk_of mixed_x fresh3) !! 0%nat = Some slots /\
    List.NoDup slots /\
    StronglySorted (fun a b => b <= a) sims.
Proof.
  split; [exact wf_fresh3|]. split; [exact wf_predict_mixed|].
  split; [reflexivity|].
  destruct (neighbors_are_nearest fresh3 mixed_x 0 (normalize_row [1; 0])
              wf_fresh3 wf_predict_mixed eq_refl)
    as (sims & slots & _ & H1 & H2 & _ & _ & H3 & _ & _ & H4 & _).
  exists sims, slots. auto.
Defined.

Lemma unit_keys_fresh3 : unit_keys fresh3.
Proof.
  unfold unit_keys. simpl.
  repeat constructor; apply l2norm_of_square; simpl; lra.
Qed.

Lemma similarities_are_cosines_witness :
  wf_memory fresh3 /\ wf_predict fresh3 mixed_x /\ unit_keys fresh3 /\
  exists q sims slots best y_hat,
    eval (neighbors mixed_x) fresh3 = Ok (q, sims, slots, best, y_hat) /\
    Forall (Forall (fun a => -1 <= a <= 1)) sims.
Proof.
  split; [exact wf_fresh3|]. split; [exact wf_predict_mixed|].
  split; [exact unit_keys_fresh3|].
  apply (similarities_are_cosines fresh3 mixed_x wf_fresh3 wf_predict_mixed
           unit_keys_fresh3).
Defined.

Lemma scaled_rows_mixed :
  Forall (fun v => eps <= l2norm v /\ eps <= 2 * l2norm v) mixed_x.
Proof.
  pose proof eps_le_1 as He. unfold mixed_x.
  constructor; [|constructor; [|constructor]];
    rewrite (l2norm_of_square _ 1) by (simpl; lra); lra.
Qed.

Lemma positive_scaling_changes_nothing_witness :
  0 < 2 /\
  Forall (fun v => eps <= l2norm v /\ eps <= 2 * l2norm v) mixed_x /\
  predict (map (map (Rmult 2)) mixed_x) fresh3 = predict mixed_x fresh3.
Proof.
  assert (H : 0 < 2) by lra.
  split; [exact H|]. split; [exact scaled_rows_mixed|].
  apply (proj1 (positive_scaling_changes_nothing fresh3 mixed_x 2 H
                  scaled_rows_mixed)).
Defined.

Lemma wf_predict_zero : wf_predict fresh3 zero_x.
Proof. reflexivity. Qed.

Lemma zero_row_gets_uniform_confidence_witness :
  wf_memory fresh3 /\ wf_predict fresh3 zero_x /\
  zero_x !! 0%nat = Some [0; 0] /\ Forall (fun a => a = 0) [0; 0] /\
  exists y_hat conf,
    eval (predict zero_x) fresh3 = Ok (y_hat, conf) /\
    fst (topk_of zero_x fresh3) !! 0%nat = Some (repeat 0 (top_k fresh3)) /\
    conf !! 0%nat =
      Some (repeat (1 / INR (top_k fresh3)) (top_k fresh3)).
Proof.
  assert (H : Forall (fun a => a = 0) [0; 0]) by (repeat constructor).
  split; [exact wf_fresh3|]. split; [exact wf_predict_zero|].
  split; [reflexivity|]. split; [exact H|].
  apply (zero_row_gets_uniform_confidence fresh3 zero_x 0 [0; 0]
           wf_fresh3 wf_predict_zero eq_refl H).
Defined.

Lemma query_answers_as_predict_witness :
  wf_memory fresh3 /\ wf_query fresh3 mixed_x mixed_y /\
  exists y_hat softmax_score loss,
    eval (predict mixed_x) fresh3 = Ok (y_hat, softmax_score) /\
    eval (query mixed_x mixed_y false draw3) fresh3 =
      Ok (y_hat, softmax_score, loss) /\
    (loss = None <-> false = true) /\
    exec (query mixed_x mixed_y false draw3) fresh3 =
    exec (query mixed_x mixed_y (negb false) draw3) fresh3.
Proof.
  split; [exact wf_fresh3|]. split; [exact wf_mixed|].
  apply (query_answers_as_predict fresh3 mixed_x mixed_y false draw3
           wf_fresh3 wf_mixed).
Defined.

Lemma query_keeps_well_formed_witness :
  wf_memory fresh3 /\ wf_query fresh3 mixed_x mixed_y /\
  wf_memory (exec (query mixed_x mixed_y false draw3) fresh3).
Proof.
  split; [exact wf_fresh3|]. split; [exact wf_mixed|].
  apply (query_keeps_well_formed fresh3 mixed_x mixed_y false draw3
           wf_fresh3 wf_mixed).
Defined.

Lemma incorrect_rows_shared : incorrect_rows shared_x shared_y fresh3 = [].
Proof.
  unfold incorrect_rows, correct_mask_of, predicted.
  now rewrite best_slots_shared.
Qed.

Lemma all_correct_batch_stores_nothing_witness :
  wf_memory fresh3 /\ wf_query fresh3 shared_x shared_y /\
  incorrect_rows shared_x shared_y fresh3 = [] /\
  values (exec (query shared_x shared_y false draw3) fresh3) =
    values fresh3.
Proof.
  split; [exact wf_fresh3|]. split; [exact wf_shared|].
  split; [exact incorrect_rows_shared|].
  apply (proj1 (all_correct_batch_stores_nothing fresh3 shared_x shared_y
                  false draw3 wf_fresh3 wf_shared incorrect_rows_shared)).
Defined.

Lemma reinforced_slots_shared :
  reinforced_slots shared_x shared_y fresh3 = [0; 0]%nat.
Proof.
  unfold reinforced_slots. now rewrite best_slots_shared, correct_rows_shared.
Qed.

Lemma replaced_slots_shared :
  replaced_slots shared_x shared_y draw3 fresh3 = [].
Proof. unfold replaced_slots. now rewrite incorrect_rows_shared. Qed.

Lemma query_touches_only_written_slots_witness :
  wf_memory fresh3 /\ wf_query fresh3 shared_x shared_y /\
  ~ In 1%nat (reinforced_slots shared_x shared_y fresh3) /\
  ~ In 1%nat (replaced_slots shared_x shared_y draw3 fresh3) /\
  keys (exec (query shared_x shared_y false draw3) fresh3) !! 1%nat =
    keys fresh3 !! 1%nat /\
  values (exec (query shared_x shared_y false draw3) fresh3) !! 1%nat =
    values fresh3 !! 1%nat.
Proof.
  assert (H1 : ~ In 1%nat (reinforced_slots shared_x shared_y fresh3)).
  { rewrite reinforced_slots_shared. simpl. intros [H|[H|[]]]; discriminate. }
  assert (H2 : ~ In 1%nat (replaced_slots shared_x shared_y draw3 fresh3)).
  { rewrite replaced_slots_shared. simpl. tauto. }
  split; [exact wf_fresh3|]. split; [exact wf_shared|].
  split; [exact H1|]. split; [exact H2|].
  apply (query_touches_only_written_slots fresh3 shared_x shared_y false
           draw3 1 wf_fresh3 wf_shared H1 H2).
Defined.

Lemma age_noise_fresh3 : 0 <= age_noise fresh3.
Proof. simpl. lra. Qed.

Lemma ages_before_mixed :
  ages_before_replacement mixed_x mixed_y fresh3 = [0; 0 + 1; 0 + 1].
Proof.
  unfold ages_before_replacement. now rewrite reinforced_slots_mixed.
Qed.

Lemma replacement_takes_oldest_up_to_noise_witness :
  wf_memory fresh3 /\ wf_query fresh3 mixed_x mixed_y /\
  0 <= age_noise fresh3 /\ (forall i, 0 <= draw3 i < 1) /\
  In 1%nat (replaced_slots mixed_x mixed_y draw3 fresh3) /\
  ~ In 0%nat (replaced_slots mixed_x mixed_y draw3 fresh3) /\
  ages_before_replacement mixed_x mixed_y fresh3 !! 1%nat = Some (0 + 1) /\
  ages_before_replacement mixed_x mixed_y fresh3 !! 0%nat = Some 0 /\
  0 <= 0 + 1 + 2 * age_noise fresh3.
Proof.
  assert (H1 : In 1%nat (replaced_slots mixed_x mixed_y draw3 fresh3))
    by (rewrite replaced_slots_mixed; now left).
  assert (H0 : ~ In 0%nat (replaced_slots mixed_x mixed_y draw3 fresh3)).
  { rewrite replaced_slots_mixed. simpl. intros [H|[H|[]]]; discriminate. }
  assert (Hb1 : ages_before_replacement mixed_x mixed_y fresh3 !! 1%nat
                = Some (0 + 1)) by now rewrite ages_before_mixed.
  assert (Hb0 : ages_before_replacement mixed_x mixed_y fresh3 !! 0%nat
                = Some 0) by now rewrite ages_before_mixed.
  split; [exact wf_fresh3|]. split; [exact wf_mixed|].
  split; [exact age_noise_fresh3|]. split; [exact draw3_unit|].
  split; [exact H1|]. split; [exact H0|]. split; [exact Hb1|].
  split; [exact Hb0|].
  apply (proj2 (replacement_takes_oldest_up_to_noise fresh3 mixed_x mixed_y
                  draw3 1 0 (0 + 1) 0 wf_fresh3 wf_mixed age_noise_fresh3
                  draw3_unit H1 H0 Hb1 Hb0)).
Defined.

Lemma reinforcing_with_stored_key_keeps_it_witness :
  best_slots mixed_x fresh3 !! 0%nat = Some 0%nat /\
  keys fresh3 !! 0%nat = Some [1; 0] /\
  normalize mixed_x !! 0%nat = Some [1; 0] /\ l2norm [1; 0] = 1 /\
  blend_of mixed_x fresh3 0 = [1; 0].
Proof.
  assert (Hb : best_slots mixed_x fresh3 !! 0%nat = Some 0%nat)
    by now rewrite best_slots_mixed.
  assert (Hq : normalize mixed_x !! 0%nat = Some [1; 0])
    by (unfold normalize, mixed_x; simpl; now rewrite unit_10).
  assert (Hn : l2norm [1; 0] = 1)
    by (apply l2norm_of_square; simpl; lra).
  split; [exact Hb|]. split; [reflexivity|]. split; [exact Hq|].
  split; [exact Hn|].
  apply (reinforcing_with_stored_key_keeps_it fresh3 mixed_x 0 0 [1; 0]
           Hb eq_refl Hq Hn).
Defined.

Lemma reinforcement_moves_key_toward_query_witness :
  wf_memory fresh3 /\ wf_query fresh3 shared_x shared_y /\
  In 1%nat (correct_rows shared_x shared_y fresh3) /\
  best_slots shared_x fresh3 !! 1%nat = Some 0%nat /\
  keys fresh3 !! 0%nat = Some [1; 0] /\
  normalize shared_x !! 1%nat = Some [4 / 5; 3 / 5] /\
  l2norm [1; 0] = 1 /\ l2norm [4 / 5; 3 / 5] = 1 /\
  eps <= l2norm (add_row [1; 0] [4 / 5; 3 / 5]) /\
  dot [1; 0] [4 / 5; 3 / 5] <=
    dot (blend_of shared_x fresh3 1) [4 / 5; 3 / 5].
Proof.
  assert (Hr : In 1%nat (correct_rows shared_x shared_y fresh3))
    by (rewrite correct_rows_shared; right; now left).
  assert (Hb : best_slots shared_x fresh3 !! 1%nat = Some 0%nat)
    by now rewrite best_slots_shared.
  assert (Hq : normalize shared_x !! 1%nat = Some [4 / 5; 3 / 5])
    by (unfold normalize, shared_x; simpl; now rewrite unit_43).
  assert (Hk1 : l2norm [1; 0] = 1)
    by (apply l2norm_of_square; simpl; lra).
  assert (Hq1 : l2norm [4 / 5; 3 / 5] = 1)
    by (apply l2norm_of_square; simpl; lra).
  assert (Hs : eps <= l2norm (add_row [1; 0] [4 / 5; 3 / 5])).
  { unfold l2norm, add_row. simpl.
    apply Rle_trans with 1; [apply eps_le_1|].
    rewrite <- sqrt_1 at 1. apply sqrt_le_1_alt. lra. }
  split; [exact wf_fresh3|]. split; [exact wf_shared|].
  split; [exact Hr|]. split; [exact Hb|]. split; [reflexivity|].
  split; [exact Hq|]. split; [exact Hk1|]. split; [exact Hq1|].
  split; [exact Hs|].
  apply (proj2 (reinforcement_moves_key_toward_query fresh3 shared_x shared_y
                  1 0 [1; 0] [4 / 5; 3 / 5] wf_fresh3 wf_shared Hr Hb
                  eq_refl Hq Hk1 Hq1 Hs)).
Defined.

Lemma shape_mixed_built1 :
  is_tensor2 (length mixed_y) (key_dim built1) mixed_x = true.
Proof. reflexivity. Qed.

Lemma incorrect_rows_built1 : incorrect_rows mixed_x mixed_y built1 <> [].
Proof.
  assert (Hx : wf_predict built1 mixed_x) by reflexivity.
  pose proof (length_best_slots built1 mixed_x wf_built1 Hx) as Hl.
  unfold incorrect_rows, correct_mask_of, predicted.
  destruct (best_slots mixed_x built1) as [|s [|s' [|? ?]]];
    try discriminate.
  destruct s as [|[|s]]; destruct s' as [|[|s']]; discriminate.
Qed.

Lemma small_built1 : (memory_size built1 < length mixed_x)%nat.
Proof. simpl. lia. Qed.

Lemma oversized_batch_raises_after_reinforcing_witness :
  wf_memory built1 /\
  is_tensor2 (length mixed_y) (key_dim built1) mixed_x = true /\
  incorrect_rows mixed_x mixed_y built1 <> [] /\
  (memory_size built1 < length mixed_x)%nat /\
  query mixed_x mixed_y false draw3 built1 =
  (Raise RuntimeError,
   set_age (set_keys built1 (keys_after_reinforce mixed_x mixed_y built1))
           (ages_before_replacement mixed_x mixed_y built1)).
Proof.
  split; [exact wf_built1|]. split; [exact shape_mixed_built1|].
  split; [exact incorrect_rows_built1|]. split; [exact small_built1|].
  apply (oversized_batch_raises_after_reinforcing built1 mixed_x mixed_y
           false draw3 wf_built1 shape_mixed_built1 incorrect_rows_built1
           small_built1).
Defined.

Lemma shape_wide : is_tensor2 (length wide_x) 3 wide_x = true.
Proof. reflexivity. Qed.

Lemma wrong_key_dim_raises_witness :
  wf_memory fresh3 /\ is_tensor2 (length wide_x) 3 wide_x = true /\
  3%nat <> key_dim fresh3 /\
  predict wide_x fresh3 = (Raise RuntimeError, fresh3) /\
  query wide_x [5%Z] false draw3 fresh3 = (Raise RuntimeError, fresh3).
Proof.
  assert (H : 3%nat <> key_dim fresh3) by (simpl; lia).
  split; [exact wf_fresh3|]. split; [exact shape_wide|]. split; [exact H|].
  apply (wrong_key_dim_raises fresh3 wide_x [5%Z] false draw3 3
           wf_fresh3 shape_wide H).
Defined.

Lemma ages_never_negative_witness :
  init 3 2 2 1 8 0.1 randn3 = Ok built3 /\
  Forall (fun a => 0 <= a)
    (age (run [Query mixed_x mixed_y false draw3] built3)).
Proof.
  split; [exact init_built3|].
  apply (ages_never_negative 3 2 2 1 8 0.1 randn3 built3
           [Query mixed_x mixed_y false draw3] init_built3).
Defined.

Lemma seen_fresh3 : Forall seen_label (values fresh3).
Proof. unfold seen_label. simpl. repeat constructor; now left. Qed.

Lemma seen_mixed : labels_in seen_label [Query mixed_x mixed_y false draw3].
Proof.
  unfold labels_in, seen_label, mixed_y.
  constructor; [|constructor].
  constructor; [now left|]. constructor; [now right|constructor].
Qed.

Lemma stored_labels_come_from_queries_witness :
  Forall seen_label (values fresh3) /\
  labels_in seen_label [Query mixed_x mixed_y false draw3] /\
  Forall seen_label
    (values (run [Query mixed_x mixed_y false draw3] fresh3)).
Proof.
  split; [exact seen_fresh3|]. split; [exact seen_mixed|].
  apply (stored_labels_come_from_queries seen_label
           [Query mixed_x mixed_y false draw3] fresh3 seen_fresh3 seen_mixed).
Defined.

Lemma wf_new : wf_query fresh3 [[4 / 5; 3 / 5]] [5%Z].
Proof. apply wf_query_small; reflexivity. Qed.

Lemma incorrect_rows_new : incorrect_rows [[4 / 5; 3 / 5]] [5%Z] fresh3 <> [].
Proof.
  assert (Hx : wf_predict fresh3 [[4 / 5; 3 / 5]]) by reflexivity.
  pose proof (length_best_slots fresh3 [[4 / 5; 3 / 5]] wf_fresh3 Hx) as Hl.
  unfold incorrect_rows, correct_mask_of, predicted.
  destruct (best_slots [[4 / 5; 3 / 5]] fresh3) as [|s [|? ?]];
    try discriminate.
  destruct s as [|[|[|[|s]]]]; discriminate.
Qed.

Lemma long_new : eps <= l2norm [4 / 5; 3 / 5].
Proof.
  rewrite (l2norm_of_square _ 1) by (simpl; lra). apply eps_le_1.
Qed.

Lemma far_new :
  Forall (fun k => dot (normalize_row [4 / 5; 3 / 5]) k < 1) (keys fresh3).
Proof. rewrite unit_43. simpl. repeat constructor; lra. Qed.

Lemma stored_label_is_predicted_witness :
  wf_memory fresh3 /\ wf_query fresh3 [[4 / 5; 3 / 5]] [5%Z] /\
  incorrect_rows [[4 / 5; 3 / 5]] [5%Z] fresh3 <> [] /\
  eps <= l2norm [4 / 5; 3 / 5] /\
  Forall (fun k => dot (normalize_row [4 / 5; 3 / 5]) k < 1) (keys fresh3) /\
  exists conf,
    eval (predict [[4 / 5; 3 / 5]])
         (exec (query [[4 / 5; 3 / 5]] [5%Z] false draw3) fresh3) =
    Ok ([5%Z], conf).
Proof.
  split; [exact wf_fresh3|]. split; [exact wf_new|].
  split; [exact incorrect_rows_new|]. split; [exact long_new|].
  split; [exact far_new|].
  apply (stored_label_is_predicted fresh3 [4 / 5; 3 / 5] 5%Z false draw3
           wf_fresh3 wf_new incorrect_rows_new long_new far_new).
Defined.





